(** * process_enums.py: from PySide6 type stubs to a sed script

    A shallow embedding of [process_enums.py]: the name resolver
    ([resolve_qualname], [_resolve_annotation]), the enum extractor
    ([Parser]), the substitution compiler ([_sort_key], [_to_sed_script])
    and [main], followed by a reading of the emitted generic rule as an
    extended regular expression applied the way [sed -E] applies it.

    Python [str] values are [string]s (the identifiers of the stubs are
    ASCII, so [len] counts characters and the order of strings is the
    order of their character codes), lists are lists, the insertion-ordered
    [defaultdict] is an association list, and the parser's
    [_qual_name_stack] is threaded explicitly. *)

From Stdlib Require Import List String Ascii ZArith Lia Bool Arith.
From Stdlib Require Import Sorting.Sorted Sorting.Permutation.
Import ListNotations.
Open Scope string_scope.
Set Warnings "-register-all".

(* ================================================================== *)
(** * Part I: definitions *)
(* ================================================================== *)

(** ** Python string operations used by the script *)
Module PyStr.

(** [s[n:]] *)
Fixpoint drop (n : nat) (s : string) : string :=
  match n, s with
  | O, _ => s
  | S _, EmptyString => EmptyString
  | S k, String _ s' => drop k s'
  end.

(** [s.startswith(p)] *)
Definition startswith (s p : string) : bool := String.prefix p s.

(** [s.split(".", 1)[0]]: the text before the first dot. *)
Fixpoint first_segment (s : string) : string :=
  match s with
  | EmptyString => EmptyString
  | String c s' =>
      if Ascii.eqb c "." then EmptyString else String c (first_segment s')
  end.

(** what [first_segment] leaves: the first dot and everything after it. *)
Fixpoint after_first_segment (s : string) : string :=
  match s with
  | EmptyString => EmptyString
  | String c s' => if Ascii.eqb c "." then s else after_first_segment s'
  end.

(** [s.split(sep)] for a separator of one character. *)
Fixpoint split (sep : ascii) (s : string) : list string :=
  match s with
  | EmptyString => [EmptyString]
  | String c s' =>
      if Ascii.eqb c sep then EmptyString :: split sep s'
      else match split sep s' with
           | seg :: rest => String c seg :: rest
           | [] => [String c EmptyString]
           end
  end.

(** [s.endswith(suffix)] *)
Definition endswith (s suffix : string) : bool :=
  (String.length suffix <=? String.length s)%nat
  && String.eqb (drop (String.length s - String.length suffix) s) suffix.

(** [sep.join(parts)] *)
Definition join (sep : string) (parts : list string) : string :=
  String.concat sep parts.

(** [s.replace(old, new, 1)]: the first occurrence only; an empty [old]
    occurs at position 0. *)
Fixpoint replace_first (old new s : string) : string :=
  if String.prefix old s then new ++ drop (String.length old) s
  else match s with
       | EmptyString => EmptyString
       | String c s' => String c (replace_first old new s')
       end.

(** For the text after an opening parenthesis: how many characters the
    greedy [.*\)] takes, up to and including the last closing parenthesis
    before the end of the line ([.] does not cross a newline). *)
Fixpoint last_close (s : string) : option nat :=
  match s with
  | EmptyString => None
  | String c s' =>
      if Ascii.eqb c "010" then None
      else match last_close s' with
           | Some n => Some (S n)
           | None => if Ascii.eqb c ")" then Some 1 else None
           end
  end.

(** [re.sub(r"\(.*\)", repl, s)]: matches are found left to right and do
    not overlap; [skip] counts the characters of the current match that
    are still to be dropped. *)
Fixpoint re_sub_parens_from (repl : string) (skip : nat) (s : string) : string :=
  match s with
  | EmptyString => EmptyString
  | String c s' =>
      match skip with
      | S k => re_sub_parens_from repl k s'
      | O =>
          if Ascii.eqb c "("
          then match last_close s' with
               | Some n => repl ++ re_sub_parens_from repl n s'
               | None => String c (re_sub_parens_from repl 0 s')
               end
          else String c (re_sub_parens_from repl 0 s')
      end
  end.

Definition re_sub_parens (repl s : string) : string :=
  re_sub_parens_from repl 0 s.

(** [c in s] for a character. *)
Fixpoint has_char (c : ascii) (s : string) : bool :=
  match s with
  | EmptyString => false
  | String d s' => Ascii.eqb d c || has_char c s'
  end.

End PyStr.

(** ** The astroid nodes the script reads

    astroid itself (parsing, scopes, [lookup], [qname], [as_string]) is a
    library; a node carries here the attributes the script reads off it. *)
Module Astroid.

(** A binding site returned by [scope.lookup(name)[1]]. *)
Inductive Binding : Type :=
| ImportFrom (root_name : string) (modname : string)
             (names : list (string * option string)) (level : option nat)
    (** [from modname import a as b, ...] in module [root_name] *)
| Import_ (names : list (string * option string))
    (** [import a as b, ...] *)
| ClassDef_site (qname : string)
    (** a class statement; [qname] is its [qname()] *)
| AssignName_site (scope_qname : string) (name : string)
    (** an assigned name; [scope_qname] is [scope().qname()] *)
| Other_site.
    (** any other node (function definition, argument, ...) *)

(** [lookup_node.lookup]: from a name to its binding sites, in order. *)
Definition Scope : Type := string -> list Binding.

(** What [resolve_qualname] reads off its [node] argument. *)
Record NodeNG : Type := mkNode {
  is_Call : bool;          (** [isinstance(node, astroid.nodes.Call)] *)
  lookup : Scope           (** the [lookup] of the node or of its scope *)
}.

(** Expressions found in base lists and annotations. [text] is the node's
    [as_string()] where the script asks for it. *)
Inductive expr : Type :=
| Const (value : string) (text : string) (sc : Scope)
| Name (name : string) (sc : Scope)
| Attribute (text : string) (sc : Scope)
| Subscript (value : expr) (slice : expr)
| Tuple (elts : list expr)
| List_ (elts : list expr)
| BinOp (op : string) (lhs rhs : expr) (text : string)
| OtherExpr (text : string).

(** The target of an annotated assignment. *)
Inductive target : Type :=
| AssignName (name : string)
| AssignAttr (attrname : string)
| OtherTarget.

(** Statements. [OtherStmt] stands for every statement that is neither a
    class nor an annotated assignment (an assignment, a function, an [if]
    block, ...), with the statements nested in it, if any. *)
Inductive stmt : Type :=
| ClassDef (name : string) (bases : list expr) (body : list stmt)
| AnnAssign (tgt : target)
| OtherStmt (children : list stmt).

Record Module_ : Type := mkModule {
  mod_name : string;            (** [node.name], dotted *)
  mod_children : list stmt      (** [node.get_children()] *)
}.

End Astroid.

(** ** Name resolver *)
Module Resolver.
Import PyStr Astroid.

Fixpoint resolve_import_alias (name : string)
    (import_names : list (string * option string)) : string :=
  match import_names with
  | [] => name
  | (import_name, imported_as) :: rest =>
      if String.eqb import_name name then name
      else match imported_as with
           | Some alias =>
               if String.eqb alias name then import_name
               else resolve_import_alias name rest
           | None => resolve_import_alias name rest
           end
  end.

(** The bindings at which the loop of [resolve_qualname] has a [break]. *)
Definition breaks (b : Binding) : bool :=
  match b with
  | ImportFrom _ _ _ _ | Import_ _ | ClassDef_site _ => true
  | AssignName_site _ _ | Other_site => false
  end.

(** The bindings none of the four [isinstance] tests recognises. *)
Definition unrecognised (b : Binding) : bool :=
  match b with
  | Other_site => true
  | _ => false
  end.

(** [if import_from.level:] *)
Definition truthy_level (level : option nat) : option nat :=
  match level with
  | Some (S k) => Some (S k)
  | _ => None
  end.

Section WithAstroid.

(** [module.relative_to_absolute_name(modname, level=level)] of astroid,
    for the module named by the first argument. *)
Variable relative_to_absolute_name : string -> string -> nat -> string.

Definition import_module_name (root_name modname : string)
    (level : option nat) : string :=
  match truthy_level level with
  | Some l => relative_to_absolute_name root_name modname l
  | None => modname
  end.

Definition get_full_import_name (root_name modname : string)
    (names : list (string * option string)) (level : option nat)
    (name : string) : string :=
  let partial_basename := resolve_import_alias name names in
  let module_name := import_module_name root_name modname level in
  module_name ++ "." ++ partial_basename.

(** The [for assignment in assigns] loop; [full_basename] is the value the
    variable holds when the loop reaches [assigns]. The three [break]
    branches return at once; the [AssignName] branch goes on. *)
Fixpoint resolve_loop (basename top_level_name : string)
    (assigns : list Binding) (full_basename : string) : string :=
  match assigns with
  | [] => full_basename
  | ImportFrom root_name modname names level :: _ =>
      let import_name :=
        get_full_import_name root_name modname names level top_level_name in
      replace_first top_level_name import_name basename
  | Import_ names :: _ =>
      let import_name := resolve_import_alias top_level_name names in
      replace_first top_level_name import_name basename
  | ClassDef_site qname :: _ => qname
  | AssignName_site scope_qname name :: rest =>
      resolve_loop basename top_level_name rest (scope_qname ++ "." ++ name)
  | Other_site :: rest =>
      resolve_loop basename top_level_name rest full_basename
  end.

Definition top_level_name_of (basename : string) : string :=
  first_segment (re_sub_parens "" basename).

(** The statements after the loop. *)
Definition finish (node : NodeNG) (full_basename : string) : string :=
  let full_basename :=
    if is_Call node then re_sub_parens "()" full_basename else full_basename in
  if startswith full_basename "builtins."
  then drop (String.length "builtins.") full_basename
  else if startswith full_basename "__builtin__."
  then drop (String.length "__builtin__.") full_basename
  else full_basename.

Definition resolve_qualname (node : NodeNG) (basename : string) : string :=
  let top_level_name := top_level_name_of basename in
  let assigns := lookup node top_level_name in
  finish node (resolve_loop basename top_level_name assigns basename).

(** [root_name] is [annotation.root().name]. The [Index] wrapper of a
    subscript's slice, gone from astroid since its version 3, is left
    out. *)
Fixpoint _resolve_annotation (root_name : string) (annotation : expr)
    : string :=
  let resolved :=
    match annotation with
    | Const value _ sc => resolve_qualname (mkNode false sc) value
    | Name name sc => resolve_qualname (mkNode false sc) name
    | Attribute text sc => resolve_qualname (mkNode false sc) text
    | Subscript value slice_node =>
        let value := _resolve_annotation root_name value in
        let slice_ :=
          if String.eqb value "Literal" then
            let render elt :=
              match elt with
              | Const _ text _ => text
              | _ => _resolve_annotation root_name elt
              end in
            match slice_node with
            | Tuple elts => join ", " (map render elts)
            | _ => join ", " [render slice_node]
            end
          else
            match slice_node with
            | Tuple elts =>
                join ", " (map (_resolve_annotation root_name) elts)
            | _ => _resolve_annotation root_name slice_node
            end in
        value ++ "[" ++ slice_ ++ "]"
    | Tuple elts =>
        "(" ++ join ", " (map (_resolve_annotation root_name) elts) ++ ")"
    | List_ elts =>
        "[" ++ join ", " (map (_resolve_annotation root_name) elts) ++ "]"
    | BinOp op lhs rhs text =>
        if String.eqb op "|"
        then _resolve_annotation root_name lhs ++ " | "
             ++ _resolve_annotation root_name rhs
        else text
    | OtherExpr text => text
    end in
  if startswith resolved "typing."
  then drop (String.length "typing.") resolved
  else
    let module_prefix := root_name ++ "." in
    if startswith resolved module_prefix
    then drop (String.length module_prefix) resolved
    else resolved.

(** [get_full_basenames(node)], with the bases of the class given. *)
Definition get_full_basenames (root_name : string) (bases : list expr)
    : list string :=
  map (_resolve_annotation root_name) bases.

End WithAstroid.
End Resolver.

(** ** Enum extractor *)
Module Extractor.
Import PyStr Astroid Resolver.

Definition Pairs : Type := list (string * string).

(** The state of a [Parser] object. *)
Record Parser : Type := mkParser { _qual_name_stack : list string }.

(** A [for] loop whose body returns the results to [extend] with and the
    next state of [self]. *)
Section ForEach.
Context {A S R : Type}.
Variable body : A -> S -> list R * S.

Fixpoint for_each (items : list A) (self : S) : list R * S :=
  match items with
  | [] => ([], self)
  | item :: rest =>
      let '(r1, self1) := body item self in
      let '(r2, self2) := for_each rest self1 in
      ((r1 ++ r2)%list, self2)
  end.
End ForEach.

Definition _get_qual_name (self : Parser) (name : string) : string :=
  join "." (_qual_name_stack self ++ [name])%list.

(** An [AnnAssign] has no [targets]: [targets = [node.target]]. *)
Definition _get_assign_target_node (tgt : target) : option target :=
  match tgt with
  | AssignName _ | AssignAttr _ => Some tgt
  | OtherTarget => None
  end.

Definition get_assign_target_name (tgt : target) : option string :=
  match _get_assign_target_node tgt with
  | Some (AssignName name) => Some name
  | Some (AssignAttr attrname) => Some attrname
  | _ => None
  end.

Definition _parse_enum_member (self : Parser) (tgt : target) : Pairs :=
  match tgt with
  | AssignAttr _ => []
  | _ =>
      match get_assign_target_name tgt with
      | Some target =>
          if String.eqb target "" then []
          else [(target, _get_qual_name self target)]
      | None => []
      end
  end.

(** [self._qual_name_stack.append(name)] and [self._qual_name_stack.pop()] *)
Definition push (name : string) (self : Parser) : Parser :=
  mkParser (_qual_name_stack self ++ [name])%list.
Definition pop (self : Parser) : Parser :=
  mkParser (removelast (_qual_name_stack self)).

(** [isinstance(child, astroid.nodes.ClassDef)] *)
Definition is_classdef (node : stmt) : bool :=
  match node with
  | ClassDef _ _ _ => true
  | _ => false
  end.

(** [base.split(".", 1)[0] == "enum"] *)
Definition enum_rooted (base : string) : bool :=
  String.eqb (first_segment base) "enum".

Section WithAstroid.
Variable relative_to_absolute_name : string -> string -> nat -> string.

(** [root_name] is [node.root().name]. The function is only ever applied
    to class statements. *)
Fixpoint parse_classdef (root_name : string) (node : stmt) (self : Parser)
    : Pairs * Parser :=
  match node with
  | ClassDef name node_bases body =>
      let self := push name self in
      let bases :=
        get_full_basenames relative_to_absolute_name root_name node_bases in
      let '(results, self) :=
        if existsb enum_rooted bases
        then
          for_each (fun child self =>
                      match child with
                      | AnnAssign tgt => (_parse_enum_member self tgt, self)
                      | _ => ([], self)
                      end) body self
        else
          for_each (fun child self =>
                      match child with
                      | ClassDef _ _ _ => parse_classdef root_name child self
                      | _ => ([], self)
                      end) body self in
      (results, pop self)
  | _ => ([], self)
  end.

(** What the loop over the body of an enum class returns, for the stack
    of [self]. *)
Definition enum_members (self : Parser) (body : list stmt) : Pairs :=
  flat_map (fun child =>
              match child with
              | AnnAssign tgt => _parse_enum_member self tgt
              | _ => []
              end) body.

(** What the loop over the body of any other class returns, when every
    nested call starts from the stack of [self]. *)
Definition nested_members (root_name : string) (self : Parser)
    (body : list stmt) : Pairs :=
  flat_map (fun child =>
              match child with
              | ClassDef _ _ _ => fst (parse_classdef root_name child self)
              | _ => []
              end) body.

Definition parse_module (node : Module_) (self : Parser) : Pairs * Parser :=
  let name := last (split "." (mod_name node)) "" in
  let self := mkParser [name] in
  for_each (fun child self =>
              match child with
              | ClassDef _ _ _ => parse_classdef (mod_name node) child self
              | _ => ([], self)
              end) (mod_children node) self.

(** [parse] dispatches on the node's class; [parse_file] hands it the
    module that astroid built, so the handler is [parse_module]. *)
Definition parse (node : Module_) (self : Parser) : Pairs * Parser :=
  parse_module node self.

(** *** The same traversal, observed

    [parse_classdef] and [parse_module] once more, logging the stack where
    the source reads or changes it. [depth] counts the class statements
    entered and not yet left. *)
Inductive event : Type :=
| Entered (depth : nat) (stack : list string)
| Member (depth : nat) (stack : list string) (pair : string * string)
| Left (depth : nat) (stack : list string).

Definition members (log : list event) : Pairs :=
  flat_map (fun e => match e with Member _ _ p => [p] | _ => [] end) log.

(** The invariant of the stack, read at an event of a traversal that
    started with [base] names on the stack: so many names plus one for
    each class entered, and a member qualified by the names of the
    stack. *)
Definition stack_tracks_depth (base : nat) (e : event) : Prop :=
  match e with
  | Entered depth stack | Left depth stack =>
      List.length stack = base + depth
  | Member depth stack (member, qual_name) =>
      List.length stack = base + depth
      /\ qual_name = join "." (stack ++ [member])%list
  end.

Definition observe_member (depth : nat) (self : Parser) (tgt : target)
    : list event :=
  map (Member depth (_qual_name_stack self)) (_parse_enum_member self tgt).

Fixpoint observe_classdef (root_name : string) (depth : nat) (node : stmt)
    (self : Parser) : list event * Parser :=
  match node with
  | ClassDef name node_bases body =>
      let self := push name self in
      let depth := S depth in
      let bases :=
        get_full_basenames relative_to_absolute_name root_name node_bases in
      let entered := Entered depth (_qual_name_stack self) in
      let '(log, self) :=
        if existsb enum_rooted bases
        then
          for_each (fun child self =>
                      match child with
                      | AnnAssign tgt => (observe_member depth self tgt, self)
                      | _ => ([], self)
                      end) body self
        else
          for_each (fun child self =>
                      match child with
                      | ClassDef _ _ _ =>
                          observe_classdef root_name depth child self
                      | _ => ([], self)
                      end) body self in
      let self := pop self in
      ((entered :: log
          ++ [Left (Nat.pred depth) (_qual_name_stack self)])%list, self)
  | _ => ([], self)
  end.

Definition observe_module (node : Module_) (self : Parser)
    : list event * Parser :=
  let name := last (split "." (mod_name node)) "" in
  let self := mkParser [name] in
  for_each (fun child self =>
              match child with
              | ClassDef _ _ _ => observe_classdef (mod_name node) 0 child self
              | _ => ([], self)
              end) (mod_children node) self.

End WithAstroid.
End Extractor.

(** ** Substitution compiler *)
Module Compiler.
Import PyStr.

Definition Pairs : Type := list (string * string).

Definition _PREFFERED_QT_MODULES : list string :=
  ["QtCore"; "QtGui"; "QtWidgets"].

(** The tuple [_sort_key] returns. *)
Definition Key : Type := (Z * string * bool * string)%type.

Definition _sort_key (member_qual_name : string * string) : Key :=
  let '(member, qual_name) := member_qual_name in
  ((- Z.of_nat (String.length member))%Z,
   member,
   existsb (String.eqb (first_segment qual_name)) _PREFFERED_QT_MODULES,
   qual_name).

(** Python orders tuples lexicographically, [False] before [True], and
    strings by code point. *)
Definition bool_compare (a b : bool) : comparison :=
  match a, b with
  | false, true => Lt
  | true, false => Gt
  | _, _ => Eq
  end.

Definition key_compare (k1 k2 : Key) : comparison :=
  let '(n1, m1, p1, q1) := k1 in
  let '(n2, m2, p2, q2) := k2 in
  match Z.compare n1 n2 with
  | Eq =>
      match String.compare m1 m2 with
      | Eq =>
          match bool_compare p1 p2 with
          | Eq => String.compare q1 q2
          | c => c
          end
      | c => c
      end
  | c => c
  end.

Definition key_lt (k1 k2 : Key) : bool :=
  match key_compare k1 k2 with Lt => true | _ => false end.

Definition key_le (k1 k2 : Key) : Prop := key_compare k1 k2 <> Gt.

(** A three-way comparison that is a total order. *)
Class Order {A : Type} (cmp : A -> A -> comparison) : Prop := {
  cmp_eq : forall a b, cmp a b = Eq <-> a = b;
  cmp_antisym : forall a b, cmp a b = CompOpp (cmp b a);
  cmp_trans : forall a b c, cmp a b = Lt -> cmp b c = Lt -> cmp a c = Lt
}.

(** Comparing by a first component, then by a second. *)
Definition lexicographic {A B : Type} (cmpA : A -> A -> comparison)
    (cmpB : B -> B -> comparison) (x y : A * B) : comparison :=
  match cmpA (fst x) (fst y) with
  | Eq => cmpB (snd x) (snd y)
  | c => c
  end.

(** [sorted(items, key=key)]: a stable sort; an item goes in front of the
    first item whose key is not smaller than its own. *)
Section Sorted.
Context {A : Type}.
Variable key : A -> Key.

Fixpoint insert (x : A) (l : list A) : list A :=
  match l with
  | [] => [x]
  | y :: l' =>
      if key_lt (key y) (key x) then y :: insert x l' else x :: y :: l'
  end.

Definition sorted (items : list A) : list A := fold_right insert [] items.
End Sorted.

Definition generic_rule (member qual_name : string) : string :=
  "s/([^a-zA-Z0-9_.]|^)[a-zA-PR-Z0-9_.]([a-su-z0-9_.][a-zA-Z0-9_.]*)?\."
  ++ member ++ "([^a-zA-Z0-9_.]|$)/\1" ++ qual_name ++ "\3/g".

(** [old] of the second rule: the qualified name without its last but one
    segment. *)
Definition old_location (qual_name : string) : string :=
  let qual_parts := split "." qual_name in
  join "." (firstn (List.length qual_parts - 2) qual_parts)
  ++ "." ++ last qual_parts "".

Definition legacy_rule (qual_name : string) : string :=
  "s/([^a-zA-Z0-9_.]|^)[a-zA-Z0-9_.]+\." ++ old_location qual_name
  ++ "([^a-zA-Z0-9_.]|$)/\1" ++ qual_name ++ "\2/g".

(** The two rules appended for one pair. *)
Definition rules_of (p : string * string) : list string :=
  [generic_rule (fst p) (snd p); legacy_rule (snd p)].

(** [member_qual_names[member].append(qual_name)] on a [defaultdict(list)]:
    keys stay in the order of their first insertion. *)
Fixpoint dict_append (d : list (string * list string))
    (member qual_name : string) : list (string * list string) :=
  match d with
  | [] => [(member, [qual_name])]
  | (k, v) :: d' =>
      if String.eqb k member then (k, (v ++ [qual_name])%list) :: d'
      else (k, v) :: dict_append d' member qual_name
  end.

Definition warning (member : string) (qual_names : list string) : string :=
  "* Will substitute `" ++ member ++ "` to `" ++ last qual_names ""
  ++ "`, but could be any of `" ++ join "`, `" qual_names ++ "`".

(** The first loop: [result] and [member_qual_names] after the pairs. *)
Definition compile_loop (pairs : Pairs)
    : list string * list (string * list string) :=
  fold_left
    (fun (state : list string * list (string * list string)) p =>
       let '(result, member_qual_names) := state in
       let '(member, qual_name) := p in
       ((result ++ [generic_rule member qual_name; legacy_rule qual_name])%list,
        dict_append member_qual_names member qual_name))
    pairs ([], []).

(** The second loop: the lines printed to [sys.stderr]. *)
Definition warnings (member_qual_names : list (string * list string))
    : list string :=
  flat_map
    (fun entry : string * list string =>
       let '(member, qual_names) := entry in
       if (1 <? List.length qual_names)%nat
       then [warning member qual_names] else [])
    member_qual_names.

(** [member_qual_names[member]], read without inserting. *)
Definition dict_get (d : list (string * list string)) (member : string)
    : list string :=
  match find (fun entry => String.eqb (fst entry) member) d with
  | Some entry => snd entry
  | None => []
  end.

(** [d] after [member_qual_names[member].append(qual_name)] for each of
    [pairs] in turn. *)
Definition grouped (pairs : Pairs) (d : list (string * list string))
    : list (string * list string) :=
  fold_left (fun d (p : string * string) => dict_append d (fst p) (snd p))
            pairs d.

(** The qualified names paired with [member], in the order of [pairs]. *)
Definition quals_of (member : string) (pairs : Pairs) : list string :=
  map snd (filter (fun p => String.eqb (fst p) member) pairs).

(** [member_qual_names] when the first loop of [_to_sed_script] is done. *)
Definition member_qual_names_of (substitutions : Pairs)
    : list (string * list string) :=
  snd (compile_loop (sorted _sort_key substitutions)).

(** Ordered by key, each item before all the later ones. *)
Definition ordered_by {A : Type} (key : A -> Key) : list A -> Prop :=
  StronglySorted (fun x y => key_le (key x) (key y)).

(** [_to_sed_script]: the returned list and what it wrote to [stderr]. *)
Definition _to_sed_script (substitutions : Pairs)
    : list string * list string :=
  let '(result, member_qual_names) :=
    compile_loop (sorted _sort_key substitutions) in
  (result, warnings member_qual_names).

End Compiler.

(** ** Command line *)
Module Cli.
Import PyStr Astroid Extractor Compiler.

(** What a path of the command line holds: a file, with the module astroid
    builds from it, or a directory, with the files [walk] yields. *)
Inductive Path : Type :=
| IsFile (module : Module_)
| IsDir (walked : list (string * Module_)).

(** The namespace [parse_args] returns. [binding] is [None] when no [-b]
    was given: the [append] action has no default list. *)
Record Namespace : Type := mkArgs {
  binding : option (list string);
  file_or_directory : list Path
}.

Inductive Exception : Type := TypeError | ValueError.

(** How a run ends: the lines printed on each stream, and the status
    returned or the exception that left [main]. *)
Record Run : Type := mkRun {
  stdout : list string;
  stderr : list string;
  outcome : Exception + Z
}.

Definition hard_coded : string * string :=
  ("MidButton", "QtCore.Qt.MouseButton.MiddleButton").

Definition binding_lines (old new : string) : list string :=
  ["s/import " ++ old ++ "/import " ++ new ++ "/";
   "s/from " ++ old ++ " import/from " ++ new ++ " import/"].

(** [for binding in args.binding]: the lines printed, and the exception of
    [old, new = binding.split(",")] if one stopped the loop. *)
Fixpoint print_bindings (bindings : list string)
    : list string * option Exception :=
  match bindings with
  | [] => ([], None)
  | b :: rest =>
      match split "," b with
      | [old; new] =>
          let '(out, exn) := print_bindings rest in
          ((binding_lines old new ++ out)%list, exn)
      | _ => ([], Some ValueError)
      end
  end.

Section WithAstroid.
Variable relative_to_absolute_name : string -> string -> nat -> string.

Definition parse_file (module : Module_) (self : Parser) : Pairs * Parser :=
  parse relative_to_absolute_name module self.

(** The loop over [args.file_or_directory]. *)
Definition parse_path (p : Path) (self : Parser) : Pairs * Parser :=
  match p with
  | IsFile module => parse_file module self
  | IsDir walked =>
      for_each (fun (entry : string * Module_) self =>
                  let '(filename, module) := entry in
                  if endswith filename ".pyi" then parse_file module self
                  else ([], self))
               walked self
  end.

(** [substitutions] when the loop over the paths is done. *)
Definition substitutions_of (args : Namespace) : Pairs :=
  (hard_coded :: fst (for_each parse_path (file_or_directory args)
                               (mkParser [])))%list.

(** [sed_script] of [main]. *)
Definition sed_script_of (args : Namespace) : list string :=
  fst (_to_sed_script (substitutions_of args)).

Definition main (args : Namespace) : Run :=
  let '(sed_script, warned) := _to_sed_script (substitutions_of args) in
  match binding args with
  | None => mkRun [] warned (inl TypeError)
  | Some bindings =>
      match print_bindings bindings with
      | (out, Some exn) => mkRun out warned (inl exn)
      | (out, None) => mkRun (out ++ sed_script)%list warned (inr 0%Z)
      end
  end.

End WithAstroid.
End Cli.

(** ** The emitted rule, read as sed reads it

    A rule is the text of a [sed -E] command [s/regex/replacement/g]. The
    syntax below covers the extended regular expressions the script
    writes; [show_command] gives back the text, and [substitute] applies
    a command to one line (the pattern space) the way sed does: matches
    are looked for from left to right, the leftmost one wins and among
    those the longest, a match is replaced, and the search goes on after
    the end of the match. *)
Module Sed.

(** An item of a bracket expression. *)
Inductive item : Type :=
| Range (lo hi : ascii)
| Single (c : ascii).

Inductive regex : Type :=
| Bol                                    (** [^] *)
| Eol                                    (** [$] *)
| Bracket (negated : bool) (items : list item)
| Escaped (c : ascii)                    (** a backslash and [c] *)
| Literal (s : string)                   (** ordinary characters *)
| Seq (r1 r2 : regex)
| Alt (r1 r2 : regex)
| Star (r : regex)
| Opt (r : regex)
| Group (n : nat) (r : regex).           (** the [n]th parenthesis *)

(** A piece of a replacement. *)
Inductive piece : Type :=
| Text (s : string)
| Ref (n : nat).                         (** a backslash and the digit *)

Record command : Type := mkCommand {
  pattern : regex;
  replacement : list piece
}.

(** *** Concrete syntax *)

Definition show_item (it : item) : string :=
  match it with
  | Range lo hi => String lo (String "-" (String hi EmptyString))
  | Single c => String c EmptyString
  end.

Definition show_digit (n : nat) : string :=
  String (ascii_of_nat (48 + n)) EmptyString.

Fixpoint show (r : regex) : string :=
  match r with
  | Bol => "^"
  | Eol => "$"
  | Bracket negated items =>
      "[" ++ (if negated then "^" else "")
      ++ String.concat "" (map show_item items) ++ "]"
  | Escaped c => String "\" (String c EmptyString)
  | Literal s => s
  | Seq r1 r2 => show r1 ++ show r2
  | Alt r1 r2 => show r1 ++ "|" ++ show r2
  | Star r => show r ++ "*"
  | Opt r => show r ++ "?"
  | Group _ r => "(" ++ show r ++ ")"
  end.

Definition show_piece (p : piece) : string :=
  match p with
  | Text s => s
  | Ref n => "\" ++ show_digit n
  end.

Definition show_command (c : command) : string :=
  "s/" ++ show (pattern c) ++ "/"
  ++ String.concat "" (map show_piece (replacement c)) ++ "/g".

(** *** The generic rule *)

(** [a-zA-Z0-9_.] *)
Definition ident_dot : list item :=
  [Range "a" "z"; Range "A" "Z"; Range "0" "9"; Single "_"; Single "."].

(** [a-zA-PR-Z0-9_.] *)
Definition first_char : list item :=
  [Range "a" "z"; Range "A" "P"; Range "R" "Z"; Range "0" "9";
   Single "_"; Single "."].

(** [a-su-z0-9_.] *)
Definition second_char : list item :=
  [Range "a" "s"; Range "u" "z"; Range "0" "9"; Single "_"; Single "."].

(** The part of the pattern between the leading boundary and the dot in
    front of the member. *)
Definition base_name : regex :=
  Seq (Bracket false first_char)
      (Opt (Group 2 (Seq (Bracket false second_char)
                         (Star (Bracket false ident_dot))))).

Definition generic_pattern (member : string) : regex :=
  Seq (Group 1 (Alt (Bracket true ident_dot) Bol))
      (Seq base_name
           (Seq (Escaped ".")
                (Seq (Literal member)
                     (Group 3 (Alt (Bracket true ident_dot) Eol))))).

Definition generic_command (member qual_name : string) : command :=
  mkCommand (generic_pattern member) [Ref 1; Text qual_name; Ref 3].

(** *** Matching *)

Definition item_has (c : ascii) (it : item) : bool :=
  match it with
  | Range lo hi =>
      (nat_of_ascii lo <=? nat_of_ascii c)%nat
      && (nat_of_ascii c <=? nat_of_ascii hi)%nat
  | Single d => Ascii.eqb c d
  end.

Definition in_bracket (negated : bool) (items : list item) (c : ascii)
    : bool :=
  xorb negated (existsb (item_has c) items).

(** The spans of the groups matched so far, the latest first. *)
Definition Captures : Type := list (nat * (nat * nat)).

Fixpoint capture (n : nat) (caps : Captures) : option (nat * nat) :=
  match caps with
  | [] => None
  | (k, span) :: rest => if (k =? n)%nat then Some span else capture n rest
  end.

(** [text[i:j]] *)
Definition slice (text : list ascii) (i j : nat) : list ascii :=
  firstn (j - i) (skipn i text).

(** Zero or more rounds of [step], each taking at least one character;
    the text is no longer than [fuel]. *)
Fixpoint iterate (step : nat -> Captures -> list (nat * Captures))
    (fuel i : nat) (caps : Captures) : list (nat * Captures) :=
  match fuel with
  | O => [(i, caps)]
  | S fuel' =>
      (flat_map (fun m : nat * Captures =>
                   if (i <? fst m)%nat
                   then iterate step fuel' (fst m) (snd m) else [])
                (step i caps)
       ++ [(i, caps)])%list
  end.

Section Matching.
Variable text : list ascii.

(** Does [s] stand in the text at position [i]? *)
Fixpoint literal_at (s : list ascii) (i : nat) : bool :=
  match s with
  | [] => true
  | c :: s' =>
      match nth_error text i with
      | Some d => Ascii.eqb c d && literal_at s' (S i)
      | None => false
      end
  end.

(** Every way [r] matches from position [i]: where the match ends, and
    the captures then. Greedy choices come first. *)
Fixpoint run (r : regex) (i : nat) (caps : Captures)
    : list (nat * Captures) :=
  match r with
  | Bol => if (i =? 0)%nat then [(i, caps)] else []
  | Eol => if (i =? List.length text)%nat then [(i, caps)] else []
  | Bracket negated items =>
      match nth_error text i with
      | Some c => if in_bracket negated items c then [(S i, caps)] else []
      | None => []
      end
  | Escaped c =>
      if literal_at [c] i then [(S i, caps)] else []
  | Literal s =>
      if literal_at (list_ascii_of_string s) i
      then [(i + String.length s, caps)] else []
  | Seq r1 r2 =>
      flat_map (fun m : nat * Captures => run r2 (fst m) (snd m))
               (run r1 i caps)
  | Alt r1 r2 => (run r1 i caps ++ run r2 i caps)%list
  | Star r1 => iterate (run r1) (S (List.length text)) i caps
  | Opt r1 => (run r1 i caps ++ [(i, caps)])%list
  | Group n r1 =>
      map (fun m : nat * Captures => (fst m, (n, (i, fst m)) :: snd m))
          (run r1 i caps)
  end.

(** The longest of the matches, the first of them if several are. *)
Fixpoint longest (results : list (nat * Captures))
    : option (nat * Captures) :=
  match results with
  | [] => None
  | m :: rest =>
      match longest rest with
      | Some m' => if (fst m <? fst m')%nat then Some m' else Some m
      | None => Some m
      end
  end.

(** The leftmost match starting at [start] or one of the [n] positions
    after it. *)
Fixpoint search_from (r : regex) (n start : nat)
    : option (nat * (nat * Captures)) :=
  match longest (run r start []) with
  | Some m => Some (start, m)
  | None =>
      match n with
      | O => None
      | S n' => search_from r n' (S start)
      end
  end.

Definition search (r : regex) (start : nat)
    : option (nat * (nat * Captures)) :=
  search_from r (List.length text - start) start.

Definition expand (repl : list piece) (caps : Captures) : list ascii :=
  flat_map (fun p =>
              match p with
              | Text s => list_ascii_of_string s
              | Ref n =>
                  match capture n caps with
                  | Some (i, j) => slice text i j
                  | None => []
                  end
              end) repl.

(** The loop of the [g] flag, from position [start]. After an empty match
    one character is copied before the search resumes. *)
Fixpoint substitute_from (c : command) (fuel start : nat) : list ascii :=
  match fuel with
  | O => skipn start text
  | S fuel' =>
      if (List.length text <? start)%nat then []
      else
        match search (pattern c) start with
        | None => skipn start text
        | Some (s, (e, caps)) =>
            (slice text start s ++ expand (replacement c) caps
             ++ (if (s =? e)%nat
                 then slice text e (S e) ++ substitute_from c fuel' (S e)
                 else substitute_from c fuel' e))%list
        end
  end.

End Matching.

(** [sed -E 'command'] on one line. *)
Definition substitute (c : command) (line : string) : string :=
  let text := list_ascii_of_string line in
  string_of_list_ascii
    (substitute_from text c (2 + List.length text) 0).

(** *** Shapes of text *)

Definition is_ident_dot (c : ascii) : bool := in_bracket false ident_dot c.

(** Every run of identifier characters and dots of [text] starts with a
    character accepted by [head]; [at_start] tells that the text begins a
    run when it begins with such a character. *)
Fixpoint run_heads (head : ascii -> bool) (at_start : bool)
    (text : list ascii) : bool :=
  match text with
  | [] => true
  | c :: rest =>
      (if at_start && is_ident_dot c then head c else true)
      && run_heads head (negb (is_ident_dot c)) rest
  end.

(** Every dotted path of the line starts with the letter Q. *)
Definition paths_start_with_Q (line : string) : bool :=
  run_heads (Ascii.eqb "Q") true (list_ascii_of_string line).

(** Nothing, or one character that is neither of an identifier nor a
    dot. *)
Definition is_boundary (b : string) : bool :=
  match b with
  | EmptyString => true
  | String c EmptyString => negb (is_ident_dot c)
  | _ => false
  end.

(** The same for a list of characters. *)
Definition boundary_chars (b : list ascii) : bool :=
  match b with
  | [] => true
  | [c] => negb (is_ident_dot c)
  | _ => false
  end.

(** A base the generic pattern accepts: a first character of
    [first_char], then nothing or a character of [second_char] and any
    identifier characters and dots. *)
Definition accepted_base (base : string) : bool :=
  match base with
  | EmptyString => false
  | String c rest =>
      in_bracket false first_char c
      && match rest with
         | EmptyString => true
         | String d rest' =>
             in_bracket false second_char d
             && forallb is_ident_dot (list_ascii_of_string rest')
         end
  end.

(** A non-empty identifier of ASCII letters, digits and underscores. *)
Definition is_identifier (s : string) : bool :=
  negb (String.eqb s "")
  && forallb (fun c => is_ident_dot c && negb (Ascii.eqb c "."))
             (list_ascii_of_string s).

End Sed.

(** ** Inputs used in the examples *)
Module Examples.
Import Astroid Sed.

(** A module whose packages are all absolute: a relative import is
    resolved to the module name as written. *)
Definition absolute_only : string -> string -> nat -> string :=
  fun _ modname _ => modname.

(** A scope that binds nothing. *)
Definition no_bindings : Scope := fun _ => [].


(** [widgets.pyi], built as module [QtWidgets]:
<<
class QAbstractItemView:
    class SelectionMode(enum.Enum):
        MultiSelection: int
>>
    [sc] is the scope in which the base [enum.Enum] is looked up. *)
Definition widgets (sc : Scope) : Module_ :=
  mkModule "QtWidgets"
    [ClassDef "QAbstractItemView" []
       [ClassDef "SelectionMode" [Attribute "enum.Enum" sc]
          [AnnAssign (AssignName "MultiSelection")]]].

Definition MultiSelection_qual_name : string :=
  "QtWidgets.QAbstractItemView.SelectionMode.MultiSelection".

(** A class that is no enum, with an annotated assignment, an enum and a
    conditional block:
<<
class QWidget(QObject):
    staticMetaObject: QMetaObject
    class RenderFlag(enum.Flag):
        DrawChildren: int
    if sys.version_info >= (3, 9):
        class Hidden(enum.Enum):
            Member: int
>> *)
Definition QWidget : stmt :=
  ClassDef "QWidget" [Name "QObject" no_bindings]
    [AnnAssign (AssignName "staticMetaObject");
     ClassDef "RenderFlag" [Attribute "enum.Flag" no_bindings]
       [AnnAssign (AssignName "DrawChildren")];
     OtherStmt [ClassDef "Hidden" [Attribute "enum.Enum" no_bindings]
                 [AnnAssign (AssignName "Member")]]].

(** The generic rule of the pair of [widgets]. *)
Definition MultiSelection_command : command :=
  generic_command "MultiSelection" MultiSelection_qual_name.

(** A name [_str] in a module with [from builtins import str as _str]. *)
Definition str_alias_node : NodeNG :=
  mkNode false
    (fun name =>
       if String.eqb name "_str"
       then [ImportFrom "QtCore" "builtins" [("str", Some "_str")] None]
       else []).

(** A name [Mode] assigned twice, at module level and in a class. *)
Definition twice_assigned_node : NodeNG :=
  mkNode false
    (fun name =>
       if String.eqb name "Mode"
       then [AssignName_site "QtCore" "Mode";
             AssignName_site "QtCore.Qt" "Mode"]
       else []).

(** A name [QEnum] in a module with [from .core import Enum as QEnum]. *)
Definition relative_import_node : NodeNG :=
  mkNode false
    (fun name =>
       if String.eqb name "QEnum"
       then [Other_site;
             ImportFrom "PySide6.QtGui" "core" [("Enum", Some "QEnum")]
                        (Some 1)]
       else []).

End Examples.


(** ** Further inputs used in the examples *)
Module MoreExamples.
Import Astroid Examples.

(** A scope that binds nothing it recognises: the name is an argument of
    a function. *)
Definition argument_only : Scope := fun _ => [Other_site].

(** A scope with [import enum as en] and [import os.path]. *)
Definition with_aliased_imports : Scope :=
  fun name =>
    if String.eqb name "en" then [Import_ [("enum", Some "en")]]
    else if String.eqb name "os" then [Import_ [("os.path", None)]]
    else [].

(** A scope with [from typing import Optional, List as L]. *)
Definition with_typing : Scope :=
  fun name =>
    if String.eqb name "L" || String.eqb name "Optional"
    then [ImportFrom "PySide6.QtCore" "typing"
                     [("Optional", None); ("List", Some "L")] None]
    else [].

(** The scope of module [PySide6.QtCore], where class [QObject] is
    defined and [object] is the class of the builtins. *)
Definition QtCore_scope : Scope :=
  fun name =>
    if String.eqb name "QObject"
    then [ClassDef_site "PySide6.QtCore.QObject"]
    else if String.eqb name "object"
    then [ClassDef_site "builtins.object"]
    else [].

(** A scope with [from enum import IntFlag as Flags]. *)
Definition with_enum_alias : Scope :=
  fun name =>
    if String.eqb name "Flags"
    then [ImportFrom "PySide6.QtCore" "enum" [("IntFlag", Some "Flags")] None]
    else [].

(** A scope with [from typing import Literal]. *)
Definition with_Literal : Scope :=
  fun name =>
    if String.eqb name "Literal"
    then [ImportFrom "PySide6.QtCore" "typing" [("Literal", None)] None]
    else [].

(** [Qt.pyi]-like module: an enum in a class, built as [PySide6.QtCore]. *)
Definition QtCore_module : Module_ :=
  mkModule "PySide6.QtCore"
    [OtherStmt [];
     ClassDef "Qt" []
       [ClassDef "AlignmentFlag" [Attribute "enum.Flag" no_bindings]
          [AnnAssign (AssignName "AlignLeft");
           AnnAssign (AssignAttr "value");
           ClassDef "Inner" [Attribute "enum.Enum" no_bindings]
             [AnnAssign (AssignName "Hidden")];
           AnnAssign (AssignName "AlignRight")]]].

End MoreExamples.

(** ** Vocabulary for the properties of the extractor and of the run *)
Module Shapes.
Import PyStr Astroid Extractor Compiler Cli.

(** The names an enum body declares: the targets of its annotated
    assignments that are plain, non-empty names, in order. *)
Definition declared_members (body : list stmt) : list string :=
  flat_map (fun child =>
              match child with
              | AnnAssign (AssignName name) =>
                  if String.eqb name "" then [] else [name]
              | _ => []
              end) body.

Section WithAstroid.
Variable relative_to_absolute_name : string -> string -> nat -> string.

(** The pairs of one file, parsed by a parser of its own. *)
Definition pairs_of_file (module : Module_) : Pairs :=
  fst (parse_module relative_to_absolute_name module (mkParser [])).

(** The pairs of one path of the command line. *)
Definition pairs_of_path (p : Path) : Pairs :=
  match p with
  | IsFile module => pairs_of_file module
  | IsDir walked =>
      flat_map (fun entry : string * Module_ =>
                  if endswith (fst entry) ".pyi"
                  then pairs_of_file (snd entry) else [])
               walked
  end.

End WithAstroid.

(** The text of a binding option for the packages [old] and [new]. *)
Definition binding_option (rename : string * string) : string :=
  fst rename ++ "," ++ snd rename.

(** Neither package name holds a comma. *)
Definition comma_free (rename : string * string) : bool :=
  negb (has_char "," (fst rename)) && negb (has_char "," (snd rename)).

(** [qual_name.split(".", 1)[0] in _PREFFERED_QT_MODULES] *)
Definition preferred (qual_name : string) : bool :=
  existsb (String.eqb (first_segment qual_name)) _PREFFERED_QT_MODULES.

(** Does the line hold a dot followed by [member]? *)
Definition mentions (member line : string) : bool :=
  let text := list_ascii_of_string line in
  existsb (Sed.literal_at text ("."%char :: list_ascii_of_string member))
          (seq 0 (List.length text)).

End Shapes.

(** ** The rule of the old location, as [sed -E] reads it *)
Module Legacy.
Import PyStr Compiler Sed.

(** The pattern of the second rule needs two forms more than those of
    [Sed.regex]: the dot and the plus sign. *)
Inductive ere : Type :=
| Core (r : regex)
| AnyChar                                (** [.] *)
| Plus (r : ere)                         (** [r+] *)
| Then (r1 r2 : ere).

Fixpoint show_ere (r : ere) : string :=
  match r with
  | Core r => show r
  | AnyChar => "."
  | Plus r => show_ere r ++ "+"
  | Then r1 r2 => show_ere r1 ++ show_ere r2
  end.

(** The same pattern with the forms of [Sed.regex]: any character is the
    complement of the empty bracket, [r+] is [r] and then [r*]. *)
Fixpoint lower (r : ere) : regex :=
  match r with
  | Core r => r
  | AnyChar => Bracket true []
  | Plus r => Seq (lower r) (Star (lower r))
  | Then r1 r2 => Seq (lower r1) (lower r2)
  end.

(** The old location is pasted into the pattern as it is: each of its
    dots stands for any character. *)
Fixpoint as_pattern (old : string) : ere :=
  match old with
  | EmptyString => Core (Literal "")
  | String c rest =>
      Then (if Ascii.eqb c "." then AnyChar
            else Core (Literal (String c EmptyString)))
           (as_pattern rest)
  end.

Definition legacy_pattern (old : string) : ere :=
  Then (Core (Group 1 (Alt (Bracket true ident_dot) Bol)))
       (Then (Plus (Core (Bracket false ident_dot)))
             (Then (Core (Escaped "."))
                   (Then (as_pattern old)
                         (Core (Group 2 (Alt (Bracket true ident_dot)
                                             Eol)))))).

Definition legacy_replacement (qual_name : string) : list piece :=
  [Ref 1; Text qual_name; Ref 2].

Definition legacy_command (qual_name : string) : command :=
  mkCommand (lower (legacy_pattern (old_location qual_name)))
            (legacy_replacement qual_name).

(** The concrete syntax of [legacy_command]. *)
Definition show_legacy (qual_name : string) : string :=
  "s/" ++ show_ere (legacy_pattern (old_location qual_name)) ++ "/"
  ++ String.concat "" (map show_piece (legacy_replacement qual_name))
  ++ "/g".

End Legacy.

(** ** Lines as [sed] meets them: dotted paths and what separates them *)
Module Lines.
Import PyStr Sed.

(** A dotted path, a longest run of identifier characters and dots, with
    the characters between it and the next path. *)
Definition Items : Type := list (list ascii * list ascii).

(** The characters in front of the first path, and the paths. *)
Definition Line : Type := (list ascii * Items)%type.

Definition chars_of (items : Items) : list ascii :=
  flat_map (fun item => (fst item ++ snd item)%list) items.

Definition render (l : Line) : list ascii :=
  (fst l ++ chars_of (snd l))%list.

(** One more character in front of a line. *)
Definition push (c : ascii) (l : Line) : Line :=
  if is_ident_dot c then
    match l with
    | ([], (path, sep) :: rest) => ([], (c :: path, sep) :: rest)
    | (sep, rest) => ([], ([c], sep) :: rest)
    end
  else (c :: fst l, snd l).

Definition tokenize (text : list ascii) : Line :=
  fold_right push ([], []) text.

Definition paths (line : string) : list (list ascii) :=
  map fst (snd (tokenize (list_ascii_of_string line))).

(** Paths are not empty and hold characters of identifiers and dots only,
    separators hold none of them, and only the last separator may be
    empty. *)
Fixpoint well_formed_items (items : Items) : bool :=
  match items with
  | [] => true
  | (path, sep) :: rest =>
      negb (Nat.eqb (List.length path) 0)
      && forallb is_ident_dot path
      && forallb (fun c => negb (is_ident_dot c)) sep
      && match rest with
         | [] => true
         | _ :: _ => negb (Nat.eqb (List.length sep) 0)
         end
      && well_formed_items rest
  end.

Definition well_formed (l : Line) : bool :=
  forallb (fun c => negb (is_ident_dot c)) (fst l)
  && well_formed_items (snd l).

(** *** Paths that access a member *)

(** The part of [<base>.<member>] in front of the dot. *)
Definition base_of (member : string) (path : list ascii) : string :=
  string_of_list_ascii
    (firstn (List.length path - S (String.length member)) path).

(** The path ends with a dot and the member. *)
Definition accesses (member : string) (path : list ascii) : bool :=
  (S (String.length member) <=? List.length path)%nat
  && String.eqb
       (string_of_list_ascii
          (skipn (List.length path - S (String.length member)) path))
       (String "." member).

(** The path is [<base>.<member>] for a base the pattern accepts. *)
Definition occurrence (member : string) (path : list ascii) : bool :=
  accesses member path && accepted_base (base_of member path).

Definition starts_with_Q (path : list ascii) : bool :=
  match path with
  | c :: _ => Ascii.eqb c "Q"
  | [] => false
  end.

(** Every path of the line that accesses the member starts with the
    letter Q. *)
Definition accessed_through_Q (member line : string) : bool :=
  forallb (fun path => implb (accesses member path) (starts_with_Q path))
          (paths line).

(** *** What the rule does to a line *)

(** From left to right, each path for which [replaced] holds gives way
    to the qualified name. The character after a replaced path is taken
    with it: a path that starts right after that character ([blocked])
    is passed over. *)
Fixpoint rewrite (replaced : list ascii -> bool) (qual_name : string)
    (blocked : bool) (items : Items) : Items :=
  match items with
  | [] => []
  | (path, sep) :: rest =>
      if replaced path && negb blocked
      then (list_ascii_of_string qual_name, sep)
           :: rewrite replaced qual_name (Nat.eqb (List.length sep) 1) rest
      else (path, sep) :: rewrite replaced qual_name false rest
  end.

Definition rewrite_line (replaced : list ascii -> bool)
    (qual_name line : string) : string :=
  let l := tokenize (list_ascii_of_string line) in
  string_of_list_ascii
    (render (fst l, rewrite replaced qual_name false (snd l))).

(** Every path for which [replaced] holds gives way to the qualified
    name; nothing else changes. *)
Definition replace_paths (replaced : list ascii -> bool)
    (qual_name : string) (items : Items) : Items :=
  map (fun item =>
         (if replaced (fst item) then list_ascii_of_string qual_name
          else fst item,
          snd item))
      items.

Definition replace_in_line (replaced : list ascii -> bool)
    (qual_name line : string) : string :=
  let l := tokenize (list_ascii_of_string line) in
  string_of_list_ascii
    (render (fst l, replace_paths replaced qual_name (snd l))).

(** Two paths for which [replaced] holds with a single character between
    them: [adjacent] tells that the path before was one of them, one
    character away. *)
Fixpoint crowded (replaced : list ascii -> bool) (adjacent : bool)
    (items : Items) : bool :=
  match items with
  | [] => false
  | (path, sep) :: rest =>
      (replaced path && adjacent)
      || crowded replaced
           (replaced path && Nat.eqb (List.length sep) 1) rest
  end.

(** No two of the paths for which [replaced] holds share a boundary
    character. *)
Definition well_separated (replaced : list ascii -> bool) (line : string)
    : bool :=
  negb (crowded replaced false (snd (tokenize (list_ascii_of_string line)))).

(** *** Bases *)

(** A base as the comment of the rule has it, any variable, but for the
    qualified names: characters of identifiers and dots, the first of
    them not the letter Q. *)
Definition variable_base (base : string) : bool :=
  match base with
  | EmptyString => false
  | String c rest =>
      is_ident_dot c && negb (Ascii.eqb c "Q")
      && forallb is_ident_dot (list_ascii_of_string rest)
  end.

Definition is_upper (c : ascii) : bool :=
  (nat_of_ascii "A" <=? nat_of_ascii c)%nat
  && (nat_of_ascii c <=? nat_of_ascii "Z")%nat.

(** The second character of the base is one the second bracket of the
    pattern leaves out: the letter t or a capital letter. *)
Definition second_left_out (base : string) : bool :=
  match base with
  | String _ (String d _) => Ascii.eqb d "t" || is_upper d
  | _ => false
  end.

(** The path accesses the member from a variable base. *)
Definition variable_access (member : string) (path : list ascii) : bool :=
  accesses member path && variable_base (base_of member path).


End Lines.
(* ================================================================== *)
(** * Part II: properties *)
(* ================================================================== *)

(** ** Lists *)
Module ListFacts.

Lemma flat_map_filter {A B : Type} (keep : A -> bool) (f : A -> list B)
    (l : list A) :
  (forall x, keep x = false -> f x = []) ->
  flat_map f l = flat_map f (filter keep l).
Proof.
  intros Hskip. induction l as [|x l IH]; [reflexivity|]. simpl.
  destruct (keep x) eqn:E; simpl; rewrite IH; [reflexivity|].
  now rewrite (Hskip x E).
Qed.

Lemma flat_map_ext_in {A B : Type} (f g : A -> list B) (l : list A) :
  (forall x, In x l -> f x = g x) -> flat_map f l = flat_map g l.
Proof.
  intros H. induction l as [|x l IH]; [reflexivity|]. simpl.
  rewrite (H x) by now left.
  rewrite IH; [reflexivity|]. intros y Hy. apply H. now right.
Qed.

Lemma filter_idem {A : Type} (keep : A -> bool) (l : list A) :
  filter keep (filter keep l) = filter keep l.
Proof.
  induction l as [|x l IH]; [reflexivity|]. simpl.
  destruct (keep x) eqn:E; simpl; [rewrite E|]; now rewrite IH.
Qed.

Lemma Forall_flat_map {A B : Type} (P : B -> Prop) (f : A -> list B)
    (l : list A) :
  (forall x, In x l -> Forall P (f x)) -> Forall P (flat_map f l).
Proof.
  intros H. induction l as [|x l IH]; [constructor|]. simpl.
  apply Forall_app. split.
  - apply H. now left.
  - apply IH. intros y Hy. apply H. now right.
Qed.

Lemma flat_map_nil {A B : Type} (f : A -> list B) (l : list A) :
  (forall x, In x l -> f x = []) -> flat_map f l = [].
Proof.
  intros H. induction l as [|x l IH]; [reflexivity|]. simpl.
  rewrite (H x) by now left. apply IH. intros y Hy. apply H. now right.
Qed.

End ListFacts.

(** ** Strings *)
Module PyStrFacts.
Import PyStr.

Lemma prefix_append (p s : string) : String.prefix p (p ++ s) = true.
Proof.
  induction p as [|c p IH]; simpl.
  - now destruct s.
  - destruct (ascii_dec c c) as [_|ne]; [exact IH | now elim ne].
Qed.

Lemma drop_length_append (p s : string) : drop (String.length p) (p ++ s) = s.
Proof. induction p as [|c p IH]; simpl; [reflexivity | exact IH]. Qed.

Lemma replace_first_prefix (old new rest : string) :
  replace_first old new (old ++ rest) = new ++ rest.
Proof.
  destruct old as [|c old]; simpl.
  - now destruct rest.
  - destruct (ascii_dec c c) as [_|ne]; [|now elim ne].
    now rewrite prefix_append, drop_length_append.
Qed.

Lemma first_segment_split (s : string) :
  first_segment s ++ after_first_segment s = s.
Proof.
  induction s as [|c s IH]; simpl; [reflexivity|].
  destruct (Ascii.eqb c "."); simpl; [reflexivity | now rewrite IH].
Qed.

Lemma re_sub_parens_none (repl s : string) :
  has_char "(" s = false -> re_sub_parens repl s = s.
Proof.
  unfold re_sub_parens.
  induction s as [|c s IH]; simpl; [reflexivity|].
  intros H. apply orb_false_iff in H as [Hc Hs].
  rewrite Hc. now rewrite IH.
Qed.

Lemma append_assoc (a b c : string) : (a ++ b) ++ c = a ++ (b ++ c).
Proof. induction a as [|x a IH]; simpl; [reflexivity | now rewrite IH]. Qed.

Lemma append_nil_r (a : string) : a ++ "" = a.
Proof. induction a as [|x a IH]; simpl; [reflexivity | now rewrite IH]. Qed.

End PyStrFacts.

(** ** The resolver's loop *)
Module ResolverFacts.
Import PyStr Astroid Resolver PyStrFacts.

Section WithAstroid.
Variable relative_to_absolute_name : string -> string -> nat -> string.

#[local] Abbreviation resolve_loop :=
  (Resolver.resolve_loop relative_to_absolute_name).
#[local] Abbreviation resolve_qualname :=
  (Resolver.resolve_qualname relative_to_absolute_name).

(** Bindings without a [break] are all visited. *)
Lemma resolve_loop_app (basename top : string) (pre rest : list Binding) :
  forallb (fun b => negb (breaks b)) pre = true ->
  forall acc,
    resolve_loop basename top (pre ++ rest)%list acc
    = resolve_loop basename top rest (resolve_loop basename top pre acc).
Proof.
  induction pre as [|b pre IH]; intros Hpre acc; [reflexivity|].
  simpl in Hpre. apply andb_true_iff in Hpre as [Hb Hpre].
  destruct b; simpl in Hb; try discriminate; simpl; now apply IH.
Qed.

Lemma resolve_loop_unrecognised (basename top : string) (post : list Binding) :
  forallb unrecognised post = true ->
  forall acc, resolve_loop basename top post acc = acc.
Proof.
  induction post as [|b post IH]; intros Hpost acc; [reflexivity|].
  simpl in Hpost. apply andb_true_iff in Hpost as [Hb Hpost].
  destruct b; simpl in Hb; try discriminate. simpl. now apply IH.
Qed.

Lemma resolve_loop_break (basename top : string) (b : Binding)
    (post : list Binding) (acc : string) :
  breaks b = true ->
  resolve_loop basename top (b :: post) acc
  = resolve_loop basename top [b] basename.
Proof. destruct b; simpl; intros Hb; try discriminate; reflexivity. Qed.

Lemma finish_plain (node : NodeNG) (full_basename : string) :
  is_Call node = false ->
  startswith full_basename "builtins." = false ->
  startswith full_basename "__builtin__." = false ->
  finish node full_basename = full_basename.
Proof. unfold finish. now intros -> -> ->. Qed.

(** C7. In the loop of [resolve_qualname], an assignment binding does not
    end the loop. When the bindings before it have no [break], the loop
    reaches it, overwrites [full_basename] with
    [<scope qualified name>.<assigned name>] and goes on with the
    bindings after it; so when nothing recognised follows, this last
    assignment gives the returned name, whatever assignments came before:
    the name handed to the closing steps of the function, and the name
    returned as it is when those steps change nothing (no call node, no
    [builtins.] prefix). An import or class binding ends the loop at
    once: the bindings after it play no part. *)
Theorem assignment_does_not_end_loop :
  forall (node : NodeNG) (basename : string) (pre post : list Binding)
         (b : Binding),
    lookup node (top_level_name_of basename) = (pre ++ b :: post)%list ->
    forallb (fun b' => negb (breaks b')) pre = true ->
    let top := top_level_name_of basename in
    (forall scope_qname name,
        b = AssignName_site scope_qname name ->
        resolve_loop basename top (pre ++ b :: post)%list basename
        = resolve_loop basename top post (scope_qname ++ "." ++ name)
        /\ (forallb unrecognised post = true ->
            resolve_qualname node basename
            = finish node (scope_qname ++ "." ++ name)
            /\ (is_Call node = false ->
                startswith (scope_qname ++ "." ++ name) "builtins." = false ->
                startswith (scope_qname ++ "." ++ name) "__builtin__." = false ->
                resolve_qualname node basename = scope_qname ++ "." ++ name))
        /\ (forall scope_qname' name' post',
               post = AssignName_site scope_qname' name' :: post' ->
               forallb unrecognised post' = true ->
               resolve_qualname node basename
               = finish node (scope_qname' ++ "." ++ name')))
    /\ (breaks b = true ->
        forall post',
          resolve_loop basename top (pre ++ b :: post)%list basename
          = resolve_loop basename top (pre ++ b :: post')%list basename
          /\ resolve_qualname node basename
             = finish node (resolve_loop basename top [b] basename)).
Proof.
  intros node basename pre post b Hlook Hpre top. split.
  - intros scope_qname name ->.
    assert (Hgo : resolve_loop basename top
                    (pre ++ AssignName_site scope_qname name :: post)%list
                    basename
                  = resolve_loop basename top post (scope_qname ++ "." ++ name)).
    { now rewrite resolve_loop_app by exact Hpre. }
    split; [exact Hgo|]. split.
    + intros Hpost.
      assert (Hres : resolve_qualname node basename
                     = finish node (scope_qname ++ "." ++ name)).
      { unfold Resolver.resolve_qualname.
        rewrite Hlook. fold top. rewrite Hgo.
        now rewrite resolve_loop_unrecognised. }
      split; [exact Hres|]. intros Hcall Hb1 Hb2.
      rewrite Hres. now apply finish_plain.
    + intros scope_qname' name' post' -> Hpost'.
      unfold Resolver.resolve_qualname.
      rewrite Hlook. fold top. rewrite Hgo. simpl.
      now rewrite resolve_loop_unrecognised.
  - intros Hb post'. split.
    + rewrite !resolve_loop_app by exact Hpre.
      rewrite (resolve_loop_break _ _ b post _ Hb).
      now rewrite (resolve_loop_break _ _ b post' _ Hb).
    + unfold Resolver.resolve_qualname. rewrite Hlook. fold top.
      rewrite resolve_loop_app by exact Hpre.
      now rewrite (resolve_loop_break _ _ b post _ Hb).
Qed.

Lemma resolve_import_alias_original (name original : string)
    (before after : list (string * option string)) :
  forallb (fun entry : string * option string =>
             negb (String.eqb (fst entry) name)
             && match snd entry with
                | Some alias => negb (String.eqb alias name)
                | None => true
                end) before = true ->
  original <> name ->
  resolve_import_alias name (before ++ (original, Some name) :: after)%list
  = original.
Proof.
  intros Hbefore Hne.
  induction before as [|[n a] before IH]; simpl.
  - apply String.eqb_neq in Hne. rewrite Hne. now rewrite String.eqb_refl.
  - simpl in Hbefore. apply andb_true_iff in Hbefore as [H1 H2].
    apply andb_true_iff in H1 as [Hn Ha].
    apply negb_true_iff in Hn. rewrite Hn.
    destruct a as [alias|]; [|now apply IH].
    apply negb_true_iff in Ha. rewrite Ha. now apply IH.
Qed.

Lemma top_level_name_plain (basename : string) :
  has_char "(" basename = false ->
  top_level_name_of basename = first_segment basename.
Proof.
  intros H. unfold top_level_name_of. now rewrite re_sub_parens_none.
Qed.

(** C8, as amended. When the first binding with a [break] found for the
    looked-up symbol is a [from X import Y [as Z]] (assignments and
    unrecognised bindings may come before it), [resolve_qualname] resolves
    the alias to the imported name, takes the module path as written, or
    made absolute by [relative_to_absolute_name] against the importing
    module when the import has a level, and replaces the first occurrence
    of the symbol in the candidate by [<module>.<imported name>]; what it
    returns is that string after the last steps of the function ([finish]:
    call parentheses collapsed for a call node, a leading [builtins.] or
    [__builtin__.] removed). For a candidate without parentheses the
    symbol is its first dotted segment, and when the last steps change
    nothing the result is [<module>.<imported name>] followed by the rest
    of the candidate. *)
Theorem from_import_resolution :
  forall (node : NodeNG) (basename : string) (pre post : list Binding)
         (root_name modname : string)
         (names : list (string * option string)) (level : option nat),
    lookup node (top_level_name_of basename)
    = (pre ++ ImportFrom root_name modname names level :: post)%list ->
    forallb (fun b' => negb (breaks b')) pre = true ->
    let top := top_level_name_of basename in
    let original := resolve_import_alias top names in
    let module :=
      match level with
      | Some (S k) => relative_to_absolute_name root_name modname (S k)
      | _ => modname
      end in
    resolve_qualname node basename
    = finish node (replace_first top (module ++ "." ++ original) basename)
    /\ (forall y before after,
           names = (before ++ (y, Some top) :: after)%list ->
           forallb (fun entry : string * option string =>
                      negb (String.eqb (fst entry) top)
                      && match snd entry with
                         | Some alias => negb (String.eqb alias top)
                         | None => true
                         end) before = true ->
           y <> top -> original = y)
    /\ (has_char "(" basename = false ->
        top = first_segment basename
        /\ resolve_qualname node basename
           = finish node
               (module ++ "." ++ original ++ after_first_segment basename)
        /\ (is_Call node = false ->
            startswith (module ++ "." ++ original
                        ++ after_first_segment basename) "builtins." = false ->
            startswith (module ++ "." ++ original
                        ++ after_first_segment basename) "__builtin__." = false ->
            resolve_qualname node basename
            = module ++ "." ++ original ++ after_first_segment basename)).
Proof.
  intros node basename pre post root_name modname names level Hlook Hpre
         top original module.
  assert (Hres : resolve_qualname node basename
                 = finish node
                     (replace_first top (module ++ "." ++ original) basename)).
  { unfold Resolver.resolve_qualname. rewrite Hlook. fold top.
    rewrite resolve_loop_app by exact Hpre. simpl.
    unfold get_full_import_name, import_module_name, truthy_level.
    fold original. subst module. now destruct level as [[|k]|]. }
  split; [exact Hres|]. split.
  - intros y before after -> Hbefore Hne. subst original.
    now apply resolve_import_alias_original.
  - intros Hplain.
    assert (Htop : top = first_segment basename)
      by (subst top; now apply top_level_name_plain).
    assert (Hrep : replace_first top (module ++ "." ++ original) basename
                   = module ++ "." ++ original ++ after_first_segment basename).
    { rewrite <- (first_segment_split basename) at 1. rewrite <- Htop.
      rewrite replace_first_prefix. now rewrite !append_assoc. }
    split; [exact Htop|]. split.
    + now rewrite Hres, Hrep.
    + intros Hcall Hb1 Hb2. rewrite Hres, Hrep. now apply finish_plain.
Qed.

End WithAstroid.

Import Examples.

(** The name [Mode], assigned in the module and again in a class. *)
Lemma assignment_does_not_end_loop_witness :
  resolve_qualname absolute_only twice_assigned_node "Mode.Flag"
  = "QtCore.Qt.Mode".
Proof.
  destruct (assignment_does_not_end_loop absolute_only twice_assigned_node
              "Mode.Flag" [AssignName_site "QtCore" "Mode"] []
              (AssignName_site "QtCore.Qt" "Mode") eq_refl eq_refl)
    as [Hassign _].
  destruct (Hassign "QtCore.Qt" "Mode" eq_refl) as (_ & Hlast & _).
  destruct (Hlast eq_refl) as [_ Hplain].
  exact (Hplain eq_refl eq_refl eq_refl).
Defined.

(** [QEnum], imported by [from .core import Enum as QEnum]. *)
Lemma from_import_resolution_witness :
  resolve_qualname absolute_only relative_import_node "QEnum.Flag"
  = "core.Enum.Flag".
Proof.
  destruct (from_import_resolution absolute_only relative_import_node
              "QEnum.Flag" [Other_site] [] "PySide6.QtGui" "core"
              [("Enum", Some "QEnum")] (Some 1) eq_refl eq_refl)
    as (_ & _ & Hplain).
  destruct (Hplain eq_refl) as (_ & _ & Hsame).
  exact (Hsame eq_refl eq_refl eq_refl).
Defined.

(** C8 as first stated fails: with [from builtins import str as _str] the
    candidate [_str] with its symbol replaced is [builtins.str], and
    [resolve_qualname] returns [str]. *)
Lemma from_import_builtins_counterexample :
  lookup str_alias_node (top_level_name_of "_str")
  = [ImportFrom "QtCore" "builtins" [("str", Some "_str")] None]
  /\ replace_first (first_segment "_str")
       ("builtins" ++ "." ++ resolve_import_alias "_str" [("str", Some "_str")])
       "_str" = "builtins.str"
  /\ resolve_qualname absolute_only str_alias_node "_str" = "str"
  /\ resolve_qualname absolute_only str_alias_node "_str"
     <> replace_first (first_segment "_str")
          ("builtins" ++ "." ++ resolve_import_alias "_str" [("str", Some "_str")])
          "_str".
Proof. repeat split; try reflexivity. vm_compute. discriminate. Qed.

End ResolverFacts.

(** ** The extractor *)
Module ExtractorFacts.
Import PyStr Astroid Resolver Extractor PyStrFacts ListFacts.

(** Induction over statements that reaches the nested ones. *)
Lemma stmt_nested_ind (P : stmt -> Prop) :
  (forall name bases body, Forall P body -> P (ClassDef name bases body)) ->
  (forall tgt, P (AnnAssign tgt)) ->
  (forall children, Forall P children -> P (OtherStmt children)) ->
  forall node, P node.
Proof.
  intros HClass HAnn HOtherStmt.
  fix IH 1. intros [name bases body|tgt|children].
  - apply HClass. induction body as [|child body IHbody]; constructor.
    + apply IH.
    + exact IHbody.
  - apply HAnn.
  - apply HOtherStmt. induction children as [|child rest IHrest]; constructor.
    + apply IH.
    + exact IHrest.
Qed.

(** A loop whose body hands [self] back unchanged. *)
Lemma for_each_preserving {A S R : Type} (body : A -> S -> list R * S)
    (items : list A) (self : S) :
  Forall (fun item => snd (body item self) = self) items ->
  for_each body items self
  = (flat_map (fun item => fst (body item self)) items, self).
Proof.
  induction items as [|item items IH]; intros Hitems; [reflexivity|].
  inversion Hitems as [|? ? Hitem Hrest]; subst. simpl.
  destruct (body item self) as [r1 self1] eqn:E. simpl in Hitem. subst self1.
  now rewrite (IH Hrest).
Qed.

Lemma pop_push (name : string) (self : Parser) : pop (push name self) = self.
Proof.
  destruct self as [stack]. unfold pop, push. simpl.
  now rewrite removelast_last.
Qed.

Section WithAstroid.
Variable relative_to_absolute_name : string -> string -> nat -> string.

#[local] Abbreviation parse_classdef :=
  (Extractor.parse_classdef relative_to_absolute_name).
#[local] Abbreviation parse_module :=
  (Extractor.parse_module relative_to_absolute_name).
#[local] Abbreviation observe_classdef :=
  (Extractor.observe_classdef relative_to_absolute_name).
#[local] Abbreviation observe_module :=
  (Extractor.observe_module relative_to_absolute_name).
#[local] Abbreviation get_full_basenames :=
  (Resolver.get_full_basenames relative_to_absolute_name).

#[local] Abbreviation nested_members :=
  (Extractor.nested_members relative_to_absolute_name).

(** [parse_classdef] hands the stack back as it got it. *)
Lemma parse_classdef_balanced (root_name : string) (node : stmt) :
  forall self, snd (parse_classdef root_name node self) = self.
Proof.
  induction node as [name bases body IH|tgt|children _] using stmt_nested_ind;
    intros self; [|reflexivity|reflexivity].
  simpl.
  destruct (existsb enum_rooted (get_full_basenames root_name bases)).
  - rewrite for_each_preserving.
    + simpl. apply pop_push.
    + apply Forall_forall. intros child _. now destruct child.
  - rewrite for_each_preserving.
    + simpl. apply pop_push.
    + apply Forall_forall. intros child Hin.
      rewrite Forall_forall in IH. destruct child; try reflexivity.
      now apply IH.
Qed.

(** [parse_classdef] unfolded, with the loops done. *)
Lemma parse_classdef_eq (root_name name : string) (bases : list expr)
    (body : list stmt) (self : Parser) :
  parse_classdef root_name (ClassDef name bases body) self
  = (if existsb enum_rooted (get_full_basenames root_name bases)
     then enum_members (push name self) body
     else nested_members root_name (push name self) body,
     self).
Proof.
  simpl.
  destruct (existsb enum_rooted (get_full_basenames root_name bases)).
  - rewrite for_each_preserving.
    + simpl. rewrite pop_push. apply (f_equal (fun r => (r, self))).
      unfold enum_members. apply flat_map_ext. intros child. now destruct child.
    + apply Forall_forall. intros child _. now destruct child.
  - rewrite for_each_preserving.
    + simpl. rewrite pop_push. apply (f_equal (fun r => (r, self))).
      unfold Extractor.nested_members. apply flat_map_ext. intros child. now destruct child.
    + apply Forall_forall. intros child _. destruct child; try reflexivity.
      apply parse_classdef_balanced.
Qed.

(** C5. A class none of whose resolved bases has [enum] as leading dotted
    segment gives no pair from its own body: its result is the results of
    the class statements directly in its body, each parsed with the class
    name pushed, one after the other. Annotated assignments and other
    statements of the body, and whatever is nested in those, add nothing:
    removing them leaves the result as it is, and a body without a class
    statement gives no pair at all. *)
Theorem non_enum_class_has_no_members_of_its_own :
  forall (root_name name : string) (bases : list expr) (body : list stmt)
         (self : Parser),
    forallb (fun base => negb (String.eqb (first_segment base) "enum"))
            (get_full_basenames root_name bases) = true ->
    fst (parse_classdef root_name (ClassDef name bases body) self)
    = flat_map (fun child => fst (parse_classdef root_name child
                                                 (push name self)))
               (filter is_classdef body)
    /\ parse_classdef root_name (ClassDef name bases body) self
       = parse_classdef root_name
           (ClassDef name bases (filter is_classdef body)) self
    /\ (forallb (fun child => negb (is_classdef child)) body = true ->
        fst (parse_classdef root_name (ClassDef name bases body) self) = []).
Proof.
  intros root_name name bases body self Hbases.
  assert (Hnot : existsb enum_rooted (get_full_basenames root_name bases)
                 = false).
  { apply not_true_is_false. intros Hex.
    apply existsb_exists in Hex as (base & Hin & Hroot).
    rewrite forallb_forall in Hbases. specialize (Hbases base Hin).
    unfold enum_rooted in Hroot. now rewrite Hroot in Hbases. }
  assert (Hfilter : forall l,
             nested_members root_name (push name self) l
             = flat_map (fun child => fst (parse_classdef root_name child
                                                          (push name self)))
                        (filter is_classdef l)).
  { intros l. unfold Extractor.nested_members.
    rewrite (flat_map_filter is_classdef)
      by (intros child Hc; now destruct child).
    apply flat_map_ext. intros child. now destruct child. }
  rewrite !parse_classdef_eq, Hnot. simpl. repeat split.
  - apply Hfilter.
  - rewrite !Hfilter. now rewrite filter_idem.
  - intros Hnone. rewrite Hfilter.
    replace (filter is_classdef body) with (@nil stmt); [reflexivity|].
    induction body as [|child body IH]; [reflexivity|]. simpl in *.
    apply andb_true_iff in Hnone as [Hc Hrest].
    apply negb_true_iff in Hc. rewrite Hc. now apply IH.
Qed.

(** *** The observed traversal *)

Lemma members_app (l1 l2 : list event) :
  members (l1 ++ l2)%list = (members l1 ++ members l2)%list.
Proof. apply flat_map_app. Qed.

Lemma members_flat_map {A : Type} (f : A -> list event) (l : list A) :
  members (flat_map f l) = flat_map (fun x => members (f x)) l.
Proof.
  induction l as [|x l IH]; [reflexivity|]. simpl.
  now rewrite members_app, IH.
Qed.

Lemma members_observe_member (depth : nat) (self : Parser) (tgt : target) :
  members (observe_member depth self tgt) = _parse_enum_member self tgt.
Proof.
  unfold observe_member.
  induction (_parse_enum_member self tgt) as [|p l IH]; [reflexivity|].
  simpl. now rewrite <- IH at 2.
Qed.

Lemma observe_member_tracks (base depth : nat) (self : Parser) (tgt : target) :
  List.length (_qual_name_stack self) = base + depth ->
  Forall (stack_tracks_depth base) (observe_member depth self tgt).
Proof.
  intros Hlen. unfold observe_member, _parse_enum_member.
  destruct tgt as [name|attrname|]; simpl; try constructor.
  destruct (String.eqb name ""); simpl; constructor; [|constructor].
  simpl. split; [exact Hlen | reflexivity].
Qed.

Lemma observe_classdef_balanced (root_name : string) (node : stmt) :
  forall depth self, snd (observe_classdef root_name depth node self) = self.
Proof.
  induction node as [name bases body IH|tgt|children _] using stmt_nested_ind;
    intros depth self; [|reflexivity|reflexivity].
  simpl.
  destruct (existsb enum_rooted (get_full_basenames root_name bases)).
  - rewrite for_each_preserving.
    + simpl. apply pop_push.
    + apply Forall_forall. intros child _. now destruct child.
  - rewrite for_each_preserving.
    + simpl. apply pop_push.
    + apply Forall_forall. intros child Hin.
      rewrite Forall_forall in IH. destruct child; try reflexivity.
      now apply IH.
Qed.

(** [observe_classdef] unfolded, with the loops done. *)
Lemma observe_classdef_eq (root_name name : string) (bases : list expr)
    (body : list stmt) (depth : nat) (self : Parser) :
  observe_classdef root_name depth (ClassDef name bases body) self
  = ((Entered (S depth) (_qual_name_stack self ++ [name])
      :: (if existsb enum_rooted (get_full_basenames root_name bases)
          then flat_map (fun child =>
                           match child with
                           | AnnAssign tgt =>
                               observe_member (S depth) (push name self) tgt
                           | _ => []
                           end) body
          else flat_map (fun child =>
                           match child with
                           | ClassDef _ _ _ =>
                               fst (observe_classdef root_name (S depth) child
                                                     (push name self))
                           | _ => []
                           end) body)
      ++ [Left depth (_qual_name_stack self)])%list, self).
Proof.
  cbn -[pop push existsb Resolver.get_full_basenames].
  destruct (existsb enum_rooted (get_full_basenames root_name bases)).
  - rewrite for_each_preserving.
    + rewrite !pop_push. simpl.
      apply (f_equal (fun r => ((Entered _ _ :: r ++ [Left _ _])%list, self))).
      apply flat_map_ext. intros child. now destruct child.
    + apply Forall_forall. intros child _. now destruct child.
  - rewrite for_each_preserving.
    + rewrite !pop_push. simpl.
      apply (f_equal (fun r => ((Entered _ _ :: r ++ [Left _ _])%list, self))).
      apply flat_map_ext. intros child. now destruct child.
    + apply Forall_forall. intros child _. destruct child; try reflexivity.
      apply observe_classdef_balanced.
Qed.

(** Dropping the stacks from the log gives the pairs of [parse_classdef]. *)
Lemma observe_classdef_members (root_name : string) (node : stmt) :
  forall depth self,
    members (fst (observe_classdef root_name depth node self))
    = fst (parse_classdef root_name node self).
Proof.
  induction node as [name bases body IH|tgt|children _] using stmt_nested_ind;
    intros depth self; [|reflexivity|reflexivity].
  rewrite observe_classdef_eq, parse_classdef_eq. simpl.
  rewrite members_app. simpl. rewrite app_nil_r.
  destruct (existsb enum_rooted (get_full_basenames root_name bases)).
  - rewrite members_flat_map. unfold enum_members.
    apply flat_map_ext. intros child. destruct child; try reflexivity.
    apply members_observe_member.
  - rewrite members_flat_map. unfold Extractor.nested_members.
    rewrite Forall_forall in IH.
    apply flat_map_ext_in. intros child Hin.
    destruct child; try reflexivity. now apply IH.
Qed.

Lemma observe_classdef_tracks (root_name : string) (base : nat) (node : stmt) :
  forall depth self,
    List.length (_qual_name_stack self) = base + depth ->
    Forall (stack_tracks_depth base)
           (fst (observe_classdef root_name depth node self)).
Proof.
  induction node as [name bases body IH|tgt|children _] using stmt_nested_ind;
    intros depth self Hlen; [|constructor|constructor].
  rewrite observe_classdef_eq. cbn [fst].
  assert (Hpushed : List.length (_qual_name_stack (push name self))
                    = base + S depth).
  { simpl. rewrite length_app. simpl. lia. }
  constructor; [exact Hpushed|].
  apply Forall_app. split; [|constructor; [exact Hlen|constructor]].
  destruct (existsb enum_rooted (get_full_basenames root_name bases)).
  - apply Forall_flat_map. intros child _.
    destruct child; try constructor.
    now apply observe_member_tracks.
  - rewrite Forall_forall in IH.
    apply Forall_flat_map. intros child Hin.
    destruct child; try constructor. now apply IH.
Qed.

Lemma module_loop_observed (root_name : string) (children : list stmt)
    (self : Parser) :
  for_each (fun child self =>
              match child with
              | ClassDef _ _ _ => observe_classdef root_name 0 child self
              | _ => ([], self)
              end) children self
  = (flat_map (fun child =>
                 match child with
                 | ClassDef _ _ _ =>
                     fst (observe_classdef root_name 0 child self)
                 | _ => []
                 end) children, self).
Proof.
  rewrite for_each_preserving.
  - f_equal. apply flat_map_ext. intros child. now destruct child.
  - apply Forall_forall. intros child _. destruct child; try reflexivity.
    apply observe_classdef_balanced.
Qed.

Lemma module_loop_parsed (root_name : string) (children : list stmt)
    (self : Parser) :
  for_each (fun child self =>
              match child with
              | ClassDef _ _ _ => parse_classdef root_name child self
              | _ => ([], self)
              end) children self
  = (flat_map (fun child =>
                 match child with
                 | ClassDef _ _ _ => fst (parse_classdef root_name child self)
                 | _ => []
                 end) children, self).
Proof.
  rewrite for_each_preserving.
  - f_equal. apply flat_map_ext. intros child. now destruct child.
  - apply Forall_forall. intros child _. destruct child; try reflexivity.
    apply parse_classdef_balanced.
Qed.

(** C9. The qualified-name stack is balanced. Every call of
    [parse_classdef] returns the stack it was given; observed, a call on a
    class pushes the class name first, pops it last, and the stack after
    the pop is the stack of entry. Through the whole traversal of a module
    the stack holds the module's short name and one name for each class
    entered and not yet left, so its depth is 1 plus the class-nesting
    depth; and every pair is made of a member name and of the names then
    on the stack joined by dots, followed by that member name. The
    observed traversal yields the pairs and the final stack of
    [parse_module]. *)
Theorem qualified_name_stack_is_balanced :
  forall (module : Module_) (self0 : Parser),
    (forall root_name node self,
        snd (parse_classdef root_name node self) = self)
    /\ (forall root_name depth name bases body self,
           exists inner,
             fst (observe_classdef root_name depth
                                   (ClassDef name bases body) self)
             = (Entered (S depth) (_qual_name_stack self ++ [name])
                :: inner ++ [Left depth (_qual_name_stack self)])%list
             /\ snd (observe_classdef root_name depth
                                      (ClassDef name bases body) self)
                = self)
    /\ members (fst (observe_module module self0))
       = fst (parse_module module self0)
    /\ snd (observe_module module self0) = snd (parse_module module self0)
    /\ _qual_name_stack (snd (parse_module module self0))
       = [last (split "." (mod_name module)) ""]
    /\ Forall (stack_tracks_depth 1) (fst (observe_module module self0)).
Proof.
  intros module self0. split; [|split; [|repeat split]].
  - intros root_name node self. apply parse_classdef_balanced.
  - intros root_name depth name bases body self. eexists.
    rewrite observe_classdef_eq. split; reflexivity.
  - unfold Extractor.observe_module, Extractor.parse_module.
    rewrite module_loop_observed, module_loop_parsed. simpl.
    rewrite members_flat_map. apply flat_map_ext. intros child.
    destruct child; try reflexivity. apply observe_classdef_members.
  - unfold Extractor.observe_module, Extractor.parse_module.
    now rewrite module_loop_observed, module_loop_parsed.
  - unfold Extractor.parse_module. now rewrite module_loop_parsed.
  - unfold Extractor.observe_module. rewrite module_loop_observed. simpl.
    apply Forall_flat_map. intros child _. destruct child; try constructor.
    now apply observe_classdef_tracks.
Qed.

End WithAstroid.

Import Examples.

(** [QWidget] gives the member of its nested enum and nothing else. *)
Lemma non_enum_class_witness :
  fst (parse_classdef absolute_only "QtWidgets" QWidget
                      (mkParser ["QtWidgets"]))
  = [("DrawChildren", "QtWidgets.QWidget.RenderFlag.DrawChildren")].
Proof.
  destruct (non_enum_class_has_no_members_of_its_own absolute_only
              "QtWidgets" "QWidget" [Name "QObject" no_bindings]
              [AnnAssign (AssignName "staticMetaObject");
               ClassDef "RenderFlag" [Attribute "enum.Flag" no_bindings]
                 [AnnAssign (AssignName "DrawChildren")];
               OtherStmt [ClassDef "Hidden" [Attribute "enum.Enum" no_bindings]
                           [AnnAssign (AssignName "Member")]]]
              (mkParser ["QtWidgets"]) eq_refl) as [Hown _].
  exact Hown.
Defined.

End ExtractorFacts.

(** ** The order of the rules *)
Module CompilerFacts.
Import PyStr Compiler PyStrFacts.

#[local] Instance Z_order : Order Z.compare.
Proof.
  split.
  - apply Z.compare_eq_iff.
  - intros a b. apply Z.compare_antisym.
  - intros a b c. rewrite !Z.compare_lt_iff. lia.
Qed.

#[local] Instance bool_order : Order bool_compare.
Proof.
  split.
  - intros [] []; simpl; split; congruence.
  - now intros [] [].
  - intros [] [] []; simpl; congruence.
Qed.

#[local] Instance ascii_order : Order Ascii.compare.
Proof.
  split.
  - intros a b. split; [apply Ascii.compare_eq_iff|].
    intros ->. unfold Ascii.compare. apply N.compare_refl.
  - apply Ascii.compare_antisym.
  - intros a b c. unfold Ascii.compare. rewrite !N.compare_lt_iff. lia.
Qed.

#[local] Instance string_order : Order String.compare.
Proof.
  split.
  - intros a b. split; [apply String.compare_eq_iff|].
    intros ->. induction b as [|c b IH]; simpl; [reflexivity|].
    now rewrite (proj2 (cmp_eq c c) eq_refl).
  - apply String.compare_antisym.
  - induction a as [|x a IH]; intros [|y b] [|z c]; simpl; try congruence.
    destruct (Ascii.compare x y) eqn:Exy; try discriminate;
      destruct (Ascii.compare y z) eqn:Eyz; try discriminate; intros Hab Hbc.
    + apply cmp_eq in Exy, Eyz. subst.
      rewrite (proj2 (cmp_eq z z) eq_refl). now apply (IH b c).
    + apply cmp_eq in Exy. subst. now rewrite Eyz.
    + apply cmp_eq in Eyz. subst. now rewrite Exy.
    + now rewrite (cmp_trans x y z Exy Eyz).
Qed.

#[local] Instance lexicographic_order {A B : Type}
    (cmpA : A -> A -> comparison) (cmpB : B -> B -> comparison)
    `{Order A cmpA} `{Order B cmpB} : Order (lexicographic cmpA cmpB).
Proof.
  split.
  - intros [a1 b1] [a2 b2]. unfold lexicographic. simpl.
    destruct (cmpA a1 a2) eqn:Ea.
    + apply cmp_eq in Ea. subst. rewrite cmp_eq. split; congruence.
    + split; [discriminate|]. intros E. injection E as -> _.
      now rewrite (proj2 (cmp_eq a2 a2) eq_refl) in Ea.
    + split; [discriminate|]. intros E. injection E as -> _.
      now rewrite (proj2 (cmp_eq a2 a2) eq_refl) in Ea.
  - intros [a1 b1] [a2 b2]. unfold lexicographic. simpl.
    rewrite (cmp_antisym a1 a2).
    destruct (cmpA a2 a1); simpl; [apply cmp_antisym | reflexivity..].
  - intros [a1 b1] [a2 b2] [a3 b3]. unfold lexicographic. simpl.
    destruct (cmpA a1 a2) eqn:E12; try discriminate;
      destruct (cmpA a2 a3) eqn:E23; try discriminate; intros H12 H23.
    + apply cmp_eq in E12, E23. subst.
      rewrite (proj2 (cmp_eq a3 a3) eq_refl). now apply (cmp_trans b1 b2 b3).
    + apply cmp_eq in E12. subst. now rewrite E23.
    + apply cmp_eq in E23. subst. now rewrite E12.
    + now rewrite (cmp_trans a1 a2 a3 E12 E23).
Qed.

(** [key_compare] is the lexicographic order of the four components. *)
Lemma key_compare_lexicographic (k1 k2 : Key) :
  key_compare k1 k2
  = lexicographic
      (lexicographic (lexicographic Z.compare String.compare) bool_compare)
      String.compare k1 k2.
Proof.
  destruct k1 as [[[n1 m1] p1] q1], k2 as [[[n2 m2] p2] q2].
  unfold key_compare, lexicographic. simpl.
  destruct (Z.compare n1 n2); try reflexivity.
  destruct (String.compare m1 m2); try reflexivity.
Qed.

#[local] Instance key_order : Order key_compare.
Proof.
  pose proof (lexicographic_order
                (lexicographic (lexicographic Z.compare String.compare)
                               bool_compare) String.compare) as Hlex.
  split.
  - intros a b. rewrite key_compare_lexicographic. apply cmp_eq.
  - intros a b. rewrite !key_compare_lexicographic. apply cmp_antisym.
  - intros a b c. rewrite !key_compare_lexicographic. apply cmp_trans.
Qed.

Lemma key_le_refl (k : Key) : key_le k k.
Proof. unfold key_le. now rewrite (proj2 (cmp_eq k k) eq_refl). Qed.

Lemma key_le_total (k1 k2 : Key) : key_le k1 k2 \/ key_le k2 k1.
Proof.
  unfold key_le. rewrite (cmp_antisym k1 k2).
  destruct (key_compare k2 k1); simpl; [left|right|left]; congruence.
Qed.

Lemma key_le_antisym (k1 k2 : Key) : key_le k1 k2 -> key_le k2 k1 -> k1 = k2.
Proof.
  unfold key_le. intros H12 H21. apply cmp_eq.
  rewrite (cmp_antisym k1 k2) in H12 |- *.
  destruct (key_compare k2 k1); simpl in *; congruence.
Qed.

Lemma key_le_trans (k1 k2 k3 : Key) :
  key_le k1 k2 -> key_le k2 k3 -> key_le k1 k3.
Proof.
  unfold key_le. intros H12 H23.
  destruct (key_compare k1 k2) eqn:E12; [| |congruence].
  - apply cmp_eq in E12. now subst.
  - destruct (key_compare k2 k3) eqn:E23; [| |congruence].
    + apply cmp_eq in E23. subst. now rewrite E12.
    + now rewrite (cmp_trans k1 k2 k3 E12 E23).
Qed.

Lemma key_lt_false_le (k1 k2 : Key) : key_lt k1 k2 = false -> key_le k2 k1.
Proof.
  unfold key_lt, key_le. rewrite (cmp_antisym k2 k1).
  destruct (key_compare k1 k2); simpl; congruence.
Qed.

Lemma key_lt_true_le (k1 k2 : Key) : key_lt k1 k2 = true -> key_le k1 k2.
Proof.
  unfold key_lt, key_le. destruct (key_compare k1 k2); congruence.
Qed.

(** The pair can be read off its key. *)
Lemma _sort_key_injective (p q : string * string) :
  _sort_key p = _sort_key q -> p = q.
Proof.
  destruct p as [m1 q1], q as [m2 q2]. unfold _sort_key. congruence.
Qed.

(** A longer member name makes a smaller key. *)
Lemma longer_member_smaller_key (p q : string * string) :
  String.length (fst q) < String.length (fst p) ->
  key_compare (_sort_key p) (_sort_key q) = Lt.
Proof.
  destruct p as [m1 q1], q as [m2 q2]. simpl. intros Hlen.
  assert (E : (- Z.of_nat (String.length m1)
               ?= - Z.of_nat (String.length m2))%Z = Lt)
    by (apply Z.compare_lt_iff; lia).
  now rewrite E.
Qed.

(** *** [sorted] *)
Section SortFacts.
Context {A : Type} (key : A -> Key).

Lemma insert_perm (x : A) (l : list A) : Permutation (x :: l) (insert key x l).
Proof.
  induction l as [|y l IH]; simpl; [reflexivity|].
  destruct (key_lt (key y) (key x)); [|reflexivity].
  rewrite perm_swap. now apply perm_skip.
Qed.

Lemma sorted_perm (l : list A) : Permutation l (sorted key l).
Proof.
  induction l as [|x l IH]; simpl; [reflexivity|].
  rewrite <- insert_perm. now apply perm_skip.
Qed.

Lemma insert_ordered (x : A) (l : list A) :
  ordered_by key l -> ordered_by key (insert key x l).
Proof.
  unfold ordered_by.
  induction l as [|y l IH]; intros Hl; simpl.
  - repeat constructor.
  - inversion Hl as [|? ? Hrest Hy]; subst.
    destruct (key_lt (key y) (key x)) eqn:E.
    + constructor; [now apply IH|].
      apply (Permutation_Forall (insert_perm x l)).
      constructor; [now apply key_lt_true_le | exact Hy].
    + apply key_lt_false_le in E. constructor; [exact Hl|].
      constructor; [exact E|].
      eapply Forall_impl; [|exact Hy].
      intros z Hz. simpl in Hz. eapply key_le_trans; eassumption.
Qed.

Lemma sorted_ordered (l : list A) : ordered_by key (sorted key l).
Proof.
  induction l as [|x l IH]; simpl; [constructor | now apply insert_ordered].
Qed.

(** An ordered list has one arrangement only, when items with the same
    key are the same item. *)
Lemma ordered_unique (l l' : list A) :
  (forall x y, key x = key y -> x = y) ->
  Permutation l l' -> ordered_by key l -> ordered_by key l' -> l = l'.
Proof.
  intros Hinj. unfold ordered_by. revert l'.
  induction l as [|x l IH]; intros l' Hperm Hl Hl'.
  - now apply Permutation_nil in Hperm.
  - destruct l' as [|y l'];
      [now apply Permutation_sym, Permutation_nil in Hperm|].
    inversion Hl as [|? ? Hl1 Hx]; inversion Hl' as [|? ? Hl1' Hy]; subst.
    assert (x = y) as ->.
    { assert (Hxy : In x (y :: l'))
        by (eapply Permutation_in; [exact Hperm | now left]).
      assert (Hyx : In y (x :: l))
        by (eapply Permutation_in;
            [apply Permutation_sym; exact Hperm | now left]).
      destruct Hxy as [->|Hxy]; [reflexivity|].
      destruct Hyx as [->|Hyx]; [reflexivity|].
      rewrite Forall_forall in Hx, Hy.
      apply Hinj, key_le_antisym; [now apply Hx | now apply Hy]. }
    f_equal. apply IH; [now apply Permutation_cons_inv in Hperm | easy..].
Qed.

Lemma ordered_nth (l : list A) :
  ordered_by key l ->
  forall i j x y,
    nth_error l i = Some x -> nth_error l j = Some y -> i < j ->
    key_le (key x) (key y).
Proof.
  unfold ordered_by. induction 1 as [|a l Hl IH Ha]; intros i j x y Hi Hj Hij.
  - now destruct i.
  - destruct j as [|j]; [lia|]. simpl in Hj.
    destruct i as [|i]; simpl in Hi.
    + injection Hi as ->. rewrite Forall_forall in Ha.
      apply Ha. eapply nth_error_In; eassumption.
    + apply (IH i j); [assumption..|lia].
Qed.

(** In an ordered list an item with a smaller key stands before. *)
Lemma ordered_position (l : list A) (i j : nat) (x y : A) :
  ordered_by key l ->
  nth_error l i = Some x -> nth_error l j = Some y ->
  key_compare (key x) (key y) = Lt -> i < j.
Proof.
  intros Hl Hi Hj Hlt.
  destruct (Nat.lt_trichotomy i j) as [Hij|[->|Hji]]; [exact Hij| |].
  - rewrite Hi in Hj. injection Hj as ->.
    now rewrite (proj2 (cmp_eq (key y) (key y)) eq_refl) in Hlt.
  - pose proof (ordered_nth l Hl j i y x Hj Hi Hji) as Hle.
    unfold key_le in Hle. rewrite (cmp_antisym (key y) (key x)), Hlt in Hle.
    now elim Hle.
Qed.

End SortFacts.

(** *** The two loops of [_to_sed_script] *)

Lemma compile_loop_from (pairs : Pairs) (result : list string)
    (d : list (string * list string)) :
  fold_left
    (fun (state : list string * list (string * list string)) p =>
       let '(result, member_qual_names) := state in
       let '(member, qual_name) := p in
       ((result ++ [generic_rule member qual_name; legacy_rule qual_name])%list,
        dict_append member_qual_names member qual_name))
    pairs (result, d)
  = ((result ++ flat_map rules_of pairs)%list, grouped pairs d).
Proof.
  revert result d.
  induction pairs as [|[member qual_name] pairs IH]; intros result d; simpl.
  - now rewrite app_nil_r.
  - rewrite IH. now rewrite <- app_assoc.
Qed.

Lemma to_sed_script_rules (substitutions : Pairs) :
  fst (_to_sed_script substitutions)
  = flat_map rules_of (sorted _sort_key substitutions).
Proof.
  unfold _to_sed_script, compile_loop. now rewrite compile_loop_from.
Qed.

Lemma to_sed_script_warnings (substitutions : Pairs) :
  snd (_to_sed_script substitutions)
  = warnings (member_qual_names_of substitutions).
Proof.
  unfold _to_sed_script, member_qual_names_of.
  now destruct (compile_loop (sorted _sort_key substitutions)).
Qed.

(** The rules of the pair at position [i] are the rules at positions
    [2 * i] and [2 * i + 1]. *)
Lemma rules_position (pairs : Pairs) (i : nat) (p : string * string) :
  nth_error pairs i = Some p ->
  nth_error (flat_map rules_of pairs) (2 * i)
  = Some (generic_rule (fst p) (snd p))
  /\ nth_error (flat_map rules_of pairs) (2 * i + 1)
     = Some (legacy_rule (snd p)).
Proof.
  revert i. induction pairs as [|q pairs IH]; intros i Hi.
  - now destruct i.
  - destruct i as [|i]; simpl in Hi.
    + injection Hi as ->. now split.
    + replace (2 * S i) with (S (S (2 * i))) by lia.
      replace (S (S (2 * i)) + 1) with (S (S (2 * i + 1))) by lia.
      simpl. now apply IH.
Qed.

(** C3. The compiled rules are the two rules of each pair, pair after
    pair, with the pairs arranged in ascending order of their key
    (negative member-name length, member name, preferred-module flag,
    qualified name). That order of the keys is total, and it is an order
    of the pairs themselves since a key holds its pair: so the arrangement
    is the only ordered one. Of two pairs whose member names differ in
    length, the one with the longer name comes first, and both its rules
    stand before both rules of the other. *)
Theorem rules_follow_the_sort_key :
  forall substitutions : Pairs,
    let pairs := sorted _sort_key substitutions in
    let rules := fst (_to_sed_script substitutions) in
    rules = flat_map rules_of pairs
    /\ Permutation substitutions pairs
    /\ ordered_by _sort_key pairs
    /\ (forall arranged,
           Permutation substitutions arranged ->
           ordered_by _sort_key arranged -> arranged = pairs)
    /\ ((forall k1 k2, key_le k1 k2 \/ key_le k2 k1)
        /\ (forall k1 k2 k3, key_le k1 k2 -> key_le k2 k3 -> key_le k1 k3)
        /\ (forall k1 k2, key_le k1 k2 -> key_le k2 k1 -> k1 = k2)
        /\ (forall p q, _sort_key p = _sort_key q -> p = q))
    /\ (forall p q,
           In p substitutions -> In q substitutions ->
           String.length (fst q) < String.length (fst p) ->
           (exists i j, nth_error pairs i = Some p /\ nth_error pairs j = Some q)
           /\ forall i j,
               nth_error pairs i = Some p -> nth_error pairs j = Some q ->
               i < j
               /\ nth_error rules (2 * i) = Some (generic_rule (fst p) (snd p))
               /\ nth_error rules (2 * i + 1) = Some (legacy_rule (snd p))
               /\ nth_error rules (2 * j) = Some (generic_rule (fst q) (snd q))
               /\ nth_error rules (2 * j + 1) = Some (legacy_rule (snd q))
               /\ 2 * i + 1 < 2 * j).
Proof.
  intros substitutions pairs rules.
  assert (Hrules : rules = flat_map rules_of pairs)
    by apply to_sed_script_rules.
  assert (Hperm : Permutation substitutions pairs) by apply sorted_perm.
  assert (Hord : ordered_by _sort_key pairs) by apply sorted_ordered.
  split; [exact Hrules|]. split; [exact Hperm|]. split; [exact Hord|].
  split; [|split].
  - intros arranged Hperm' Hord'.
    apply (ordered_unique _sort_key); [apply _sort_key_injective| |easy..].
    now rewrite <- Hperm', Hperm.
  - repeat split.
    + apply key_le_total.
    + apply key_le_trans.
    + apply key_le_antisym.
    + apply _sort_key_injective.
  - intros p q Hp Hq Hlen. split.
    + apply (Permutation_in _ Hperm), In_nth_error in Hp as [i Hi].
      apply (Permutation_in _ Hperm), In_nth_error in Hq as [j Hj].
      now exists i, j.
    + intros i j Hi Hj.
      assert (Hij : i < j).
      { apply (ordered_position _sort_key pairs i j p q Hord Hi Hj).
        now apply longer_member_smaller_key. }
      rewrite Hrules.
      destruct (rules_position pairs i p Hi) as [Hi1 Hi2].
      destruct (rules_position pairs j q Hj) as [Hj1 Hj2].
      repeat split; try assumption. lia.
Qed.

(** *** The dictionary of the first loop *)

Lemma dict_append_keys (d : list (string * list string))
    (member qual_name k : string) :
  In k (map fst (dict_append d member qual_name))
  <-> k = member \/ In k (map fst d).
Proof.
  induction d as [|[k' v] d IH]; simpl.
  - intuition.
  - destruct (String.eqb_spec k' member) as [->|Hne]; simpl.
    + intuition.
    + rewrite IH. intuition.
Qed.

Lemma dict_append_NoDup (d : list (string * list string))
    (member qual_name : string) :
  NoDup (map fst d) -> NoDup (map fst (dict_append d member qual_name)).
Proof.
  induction d as [|[k v] d IH]; simpl; intros Hd.
  - repeat constructor. intros [].
  - inversion Hd as [|? ? Hk Hrest]; subst.
    destruct (String.eqb_spec k member) as [->|Hne]; simpl.
    + now constructor.
    + constructor; [|now apply IH].
      rewrite dict_append_keys. intros [->|Hin]; [now elim Hne | now elim Hk].
Qed.

Lemma dict_get_append (d : list (string * list string))
    (member qual_name k : string) :
  dict_get (dict_append d member qual_name) k
  = if String.eqb k member then (dict_get d member ++ [qual_name])%list
    else dict_get d k.
Proof.
  unfold dict_get.
  induction d as [|[k' v] d IH]; simpl.
  - rewrite (String.eqb_sym member k). now destruct (String.eqb k member).
  - destruct (String.eqb_spec k' member) as [->|Hne]; simpl.
    + rewrite (String.eqb_sym member k). now destruct (String.eqb k member).
    + destruct (String.eqb k' k) eqn:Ek'.
      * apply String.eqb_eq in Ek'. subst k'.
        apply String.eqb_neq in Hne. now rewrite Hne.
      * now rewrite IH.
Qed.

Lemma grouped_get (pairs : Pairs) (d : list (string * list string))
    (k : string) :
  dict_get (grouped pairs d) k = (dict_get d k ++ quals_of k pairs)%list.
Proof.
  revert d. induction pairs as [|[m q] pairs IH]; intros d; simpl.
  - now rewrite app_nil_r.
  - rewrite IH, dict_get_append. unfold quals_of. simpl.
    rewrite (String.eqb_sym m k).
    destruct (String.eqb_spec k m) as [->|_]; [|reflexivity].
    simpl. now rewrite <- app_assoc.
Qed.

Lemma grouped_NoDup (pairs : Pairs) (d : list (string * list string)) :
  NoDup (map fst d) -> NoDup (map fst (grouped pairs d)).
Proof.
  revert d. induction pairs as [|p pairs IH]; intros d Hd; [exact Hd|].
  simpl. now apply IH, dict_append_NoDup.
Qed.

Lemma grouped_keys (pairs : Pairs) (d : list (string * list string))
    (k : string) :
  In k (map fst (grouped pairs d))
  <-> In k (map fst d) \/ In k (map fst pairs).
Proof.
  revert d. induction pairs as [|p pairs IH]; intros d; simpl.
  - intuition.
  - rewrite IH, dict_append_keys. intuition.
Qed.

Lemma member_qual_names_grouped (substitutions : Pairs) :
  member_qual_names_of substitutions
  = grouped (sorted _sort_key substitutions) [].
Proof.
  unfold member_qual_names_of, compile_loop. now rewrite compile_loop_from.
Qed.

(** A key of a dictionary without repeated keys has one entry. *)
Lemma dict_split (d : list (string * list string)) (k : string) :
  NoDup (map fst d) -> In k (map fst d) ->
  exists before after,
    d = (before ++ (k, dict_get d k) :: after)%list
    /\ ~ In k (map fst before) /\ ~ In k (map fst after).
Proof.
  unfold dict_get.
  induction d as [|[k' v] d IH]; simpl; intros Hd Hin; [easy|].
  inversion Hd as [|? ? Hk' Hrest]; subst.
  destruct (String.eqb_spec k' k) as [->|Hne].
  - exists [], d. simpl. repeat split; [intros []|exact Hk'].
  - destruct Hin as [->|Hin]; [now elim Hne|].
    destruct (IH Hrest Hin) as (before & after & Hd' & Hb & Ha).
    exists ((k', v) :: before), after. simpl. repeat split.
    + now rewrite Hd' at 1.
    + intros [E|Hin']; [now elim Hne | now elim Hb].
    + exact Ha.
Qed.




Lemma generic_rule_emitted (substitutions : Pairs) (member q : string) :
  In (member, q) substitutions ->
  In (generic_rule member q) (fst (_to_sed_script substitutions))
  /\ In (legacy_rule q) (fst (_to_sed_script substitutions)).
Proof.
  intros Hin. rewrite to_sed_script_rules.
  apply (Permutation_in _ (sorted_perm _sort_key substitutions)) in Hin.
  split; apply in_flat_map; exists (member, q); (split; [exact Hin|]);
    simpl; auto.
Qed.



End CompilerFacts.

(** ** The command line *)
Module CliFacts.
Import PyStr Astroid Extractor Compiler Cli CompilerFacts.

Section WithAstroid.
Variable relative_to_absolute_name : string -> string -> nat -> string.

#[local] Abbreviation main := (Cli.main relative_to_absolute_name).
#[local] Abbreviation substitutions_of :=
  (Cli.substitutions_of relative_to_absolute_name).
#[local] Abbreviation sed_script_of :=
  (Cli.sed_script_of relative_to_absolute_name).

Lemma main_eq (args : Namespace) :
  main args
  = match binding args with
    | None =>
        mkRun [] (snd (_to_sed_script (substitutions_of args))) (inl TypeError)
    | Some bindings =>
        match print_bindings bindings with
        | (out, Some exn) =>
            mkRun out (snd (_to_sed_script (substitutions_of args))) (inl exn)
        | (out, None) =>
            mkRun (out ++ sed_script_of args)%list
                  (snd (_to_sed_script (substitutions_of args))) (inr 0%Z)
        end
    end.
Proof.
  unfold Cli.main, Cli.sed_script_of.
  now destruct (_to_sed_script (substitutions_of args)).
Qed.

(** C2, at the input where the code parts from it. Without any [-b] on the
    command line [args.binding] is [None]: whatever the paths hold, the
    loop over the bindings raises [TypeError] once the rules are compiled
    and the warnings written, and not a line reaches the standard
    output. *)
Theorem main_without_binding_raises :
  forall paths : list Path,
    main (mkArgs None paths)
    = mkRun []
            (snd (_to_sed_script (substitutions_of (mkArgs None paths))))
            (inl TypeError)
    /\ stdout (main (mkArgs None paths)) = []
    /\ outcome (main (mkArgs None paths)) <> inr 0%Z.
Proof.
  intros paths. rewrite main_eq. simpl. repeat split. discriminate.
Qed.

(** The bindings that are pairs [OLD,NEW] are printed in order, two lines
    each, in front of the compiled rules. *)
Lemma print_bindings_pairs (renames : list (string * string)) :
  Forall (fun r => split "," (fst r ++ "," ++ snd r) = [fst r; snd r])
         renames ->
  print_bindings (map (fun r => fst r ++ "," ++ snd r) renames)
  = (flat_map (fun r => binding_lines (fst r) (snd r)) renames, None).
Proof.
  induction 1 as [|r renames Hr _ IH]; [reflexivity|].
  cbn [map print_bindings flat_map]. rewrite Hr, IH. reflexivity.
Qed.

Lemma main_with_bindings (renames : list (string * string))
    (paths : list Path) :
  Forall (fun r => split "," (fst r ++ "," ++ snd r) = [fst r; snd r])
         renames ->
  let args := mkArgs (Some (map (fun r => fst r ++ "," ++ snd r) renames))
                     paths in
  stdout (main args)
  = (flat_map (fun r => binding_lines (fst r) (snd r)) renames
     ++ sed_script_of args)%list
  /\ outcome (main args) = inr 0%Z.
Proof.
  intros Hrenames args. rewrite main_eq. unfold args. cbn [binding].
  now rewrite print_bindings_pairs.
Qed.

End WithAstroid.
End CliFacts.

(** ** The generic rule under sed *)
Module SedFacts.
Import PyStr Sed PyStrFacts ListFacts.

(** The text [_to_sed_script] writes is the concrete syntax of
    [generic_command]. *)
Lemma generic_rule_is_command (member qual_name : string) :
  Compiler.generic_rule member qual_name
  = show_command (generic_command member qual_name).
Proof.
  unfold Compiler.generic_rule, show_command, generic_command,
    generic_pattern, base_name.
  cbn. rewrite !append_assoc. cbn. reflexivity.
Qed.

(** *** Strings as lists of characters *)

Lemma list_of_append (a b : string) :
  list_ascii_of_string (a ++ b)
  = (list_ascii_of_string a ++ list_ascii_of_string b)%list.
Proof. induction a as [|c a IH]; simpl; [reflexivity | now rewrite IH]. Qed.

Lemma string_of_app (l1 l2 : list ascii) :
  string_of_list_ascii (l1 ++ l2)%list
  = string_of_list_ascii l1 ++ string_of_list_ascii l2.
Proof. induction l1 as [|c l1 IH]; simpl; [reflexivity | now rewrite IH]. Qed.

Lemma length_list_of (s : string) :
  List.length (list_ascii_of_string s) = String.length s.
Proof. induction s as [|c s IH]; simpl; [reflexivity | now rewrite IH]. Qed.

(** *** Character classes *)

Lemma first_char_is_ident_dot (c : ascii) :
  in_bracket false first_char c = true -> is_ident_dot c = true.
Proof.
  destruct c as [[] [] [] [] [] [] [] []]; vm_compute; intros H;
    (reflexivity || discriminate H).
Qed.

Lemma first_char_not_Q (c : ascii) :
  in_bracket false first_char c = true -> Ascii.eqb "Q" c = false.
Proof.
  intros H. destruct (Ascii.eqb_spec "Q" c) as [<-|]; [|reflexivity].
  discriminate H.
Qed.

(** *** Where a match of the generic pattern starts *)
Section Matching.
Variable text : list ascii.

(** The leading boundary: a character outside identifiers and dots, or
    the start of the line. *)
Lemma leading_boundary_inv (i j : nat) (caps caps' : Captures) :
  In (j, caps')
     (run text (Group 1 (Alt (Bracket true ident_dot) Bol)) i caps) ->
  caps' = (1, (i, j)) :: caps
  /\ ((j = S i /\ exists p, nth_error text i = Some p
                           /\ is_ident_dot p = false)
      \/ (j = i /\ i = 0)).
Proof.
  cbn [run]. intros Hin. apply in_map_iff in Hin as ([j0 c0] & E & Hin).
  cbn [fst snd] in E. injection E as -> <-.
  apply in_app_or in Hin as [Hin|Hin].
  - destruct (nth_error text i) as [p|] eqn:Ep; [|easy].
    destruct (in_bracket true ident_dot p) eqn:Eb; [|easy].
    destruct Hin as [E|[]]. injection E as <- <-.
    split; [reflexivity|]. left. split; [reflexivity|].
    exists p. split; [reflexivity|].
    unfold is_ident_dot. unfold in_bracket in *. simpl xorb in *.
    now apply negb_true_iff in Eb.
  - destruct (Nat.eqb_spec i 0) as [->|]; [|easy].
    destruct Hin as [E|[]]. injection E as <- <-. split; [reflexivity|].
    now right.
Qed.

(** A match of the generic pattern starts at a boundary, and the
    character after the boundary is one of [first_char]. *)
Lemma generic_match_start (member : string) (i e : nat) (caps : Captures) :
  In (e, caps) (run text (generic_pattern member) i []) ->
  exists j c,
    nth_error text j = Some c
    /\ in_bracket false first_char c = true
    /\ ((j = S i /\ exists p, nth_error text i = Some p
                             /\ is_ident_dot p = false)
        \/ (j = i /\ i = 0)).
Proof.
  unfold generic_pattern, base_name. cbn [run]. intros Hin.
  apply in_flat_map in Hin as ([j c1] & H1 & Hin).
  apply leading_boundary_inv in H1 as [_ Hstart].
  cbn [fst snd] in Hin.
  apply in_flat_map in Hin as ([j2 c2] & H2 & _).
  apply in_flat_map in H2 as ([j3 c3] & H3 & _).
  destruct (nth_error text j) as [c|] eqn:Ec; [|easy].
  destruct (in_bracket false first_char c) eqn:Eb; [|easy].
  now exists j, c.
Qed.

(** The head of a run of identifier characters and dots. *)
Lemma run_heads_at (head : ascii -> bool) (at_start : bool) (l : list ascii) :
  run_heads head at_start l = true ->
  forall j c,
    nth_error l j = Some c -> is_ident_dot c = true ->
    (j = 0 /\ at_start = true)
    \/ (exists i p, j = S i /\ nth_error l i = Some p
                    /\ is_ident_dot p = false) ->
    head c = true.
Proof.
  revert at_start. induction l as [|x l IH]; intros at_start Hl j c Hj Hc Hpos.
  - now destruct j.
  - simpl in Hl. apply andb_true_iff in Hl as [Hx Hl].
    destruct j as [|j]; simpl in Hj.
    + injection Hj as ->.
      destruct Hpos as [[_ ->]|(i & p & E & _)]; [|discriminate].
      now rewrite Hc in Hx.
    + apply (IH _ Hl j c Hj Hc).
      destruct Hpos as [[E _]|(i & p & E & Hi & Hp)]; [discriminate|].
      injection E as <-. destruct j as [|j]; simpl in Hi.
      * injection Hi as ->. left. now rewrite Hp.
      * right. now exists j, p.
Qed.

(** No match anywhere when no run starts with a character of
    [first_char]. *)
Lemma generic_no_match (member : string) (head : ascii -> bool) :
  (forall c, in_bracket false first_char c = true -> head c = false) ->
  run_heads head true text = true ->
  forall i, run text (generic_pattern member) i [] = [].
Proof.
  intros Hhead Htext i.
  destruct (run text (generic_pattern member) i []) as [|[e caps] l] eqn:E;
    [reflexivity|].
  assert (Hin : In (e, caps) (run text (generic_pattern member) i []))
    by (rewrite E; now left).
  apply generic_match_start in Hin as (j & c & Hj & Hc & Hpos).
  assert (Hh : head c = true).
  { apply (run_heads_at head true text Htext j c Hj).
    - now apply first_char_is_ident_dot.
    - destruct Hpos as [[-> (p & Hp & Hb)]|[-> ->]].
      + right. now exists i, p.
      + now left. }
  now rewrite (Hhead c Hc) in Hh.
Qed.

Lemma search_from_none (r : regex) :
  (forall i, run text r i [] = []) ->
  forall n start, search_from text r n start = None.
Proof.
  intros Hnone n. induction n as [|n IH]; intros start; simpl;
    rewrite Hnone; simpl; [reflexivity | apply IH].
Qed.

Lemma substitute_from_unmatched (c : command) (fuel : nat) :
  (forall i, run text (pattern c) i [] = []) ->
  substitute_from text c (S fuel) 0 = text.
Proof.
  intros Hnone. simpl. unfold search. now rewrite search_from_none.
Qed.

End Matching.

(** *** The parts of the generic pattern, one by one *)
Section Parts.
Variable text : list ascii.

Lemma run_seq (r1 r2 : regex) (i : nat) (caps : Captures) :
  run text (Seq r1 r2) i caps
  = flat_map (fun m : nat * Captures => run text r2 (fst m) (snd m))
             (run text r1 i caps).
Proof. reflexivity. Qed.

Lemma run_opt (r : regex) (i : nat) (caps : Captures) :
  run text (Opt r) i caps = (run text r i caps ++ [(i, caps)])%list.
Proof. reflexivity. Qed.

Lemma run_group (n : nat) (r : regex) (i : nat) (caps : Captures) :
  run text (Group n r) i caps
  = map (fun m : nat * Captures => (fst m, (n, (i, fst m)) :: snd m))
        (run text r i caps).
Proof. reflexivity. Qed.

Lemma run_alt (r1 r2 : regex) (i : nat) (caps : Captures) :
  run text (Alt r1 r2) i caps
  = (run text r1 i caps ++ run text r2 i caps)%list.
Proof. reflexivity. Qed.

Lemma run_star (r : regex) (i : nat) (caps : Captures) :
  run text (Star r) i caps
  = iterate (run text r) (S (List.length text)) i caps.
Proof. reflexivity. Qed.

Lemma literal_at_elim (s : list ascii) :
  forall i, literal_at text s i = true ->
  forall k c, nth_error s k = Some c -> nth_error text (i + k) = Some c.
Proof.
  induction s as [|x s IH]; intros i H k c Hk; [now destruct k|].
  simpl in H. destruct (nth_error text i) as [d|] eqn:E; [|discriminate].
  apply andb_true_iff in H as [Hx Hs]. apply Ascii.eqb_eq in Hx. subst d.
  destruct k as [|k]; simpl in Hk.
  - injection Hk as <-. now rewrite Nat.add_0_r.
  - rewrite Nat.add_succ_r. apply (IH (S i) Hs k c Hk).
Qed.

Lemma literal_at_intro (s : list ascii) :
  forall i,
    (forall k c, nth_error s k = Some c -> nth_error text (i + k) = Some c) ->
    literal_at text s i = true.
Proof.
  induction s as [|x s IH]; intros i H; [reflexivity|]. simpl.
  rewrite <- (Nat.add_0_r i) at 1. rewrite (H 0 x eq_refl).
  rewrite Ascii.eqb_refl. simpl. apply IH. intros k c Hk.
  replace (S i + k) with (i + S k) by lia. now apply H.
Qed.

Lemma bracket_inv (negated : bool) (items : list item) (i j : nat)
    (caps caps' : Captures) :
  In (j, caps') (run text (Bracket negated items) i caps) ->
  j = S i /\ caps' = caps
  /\ exists c, nth_error text i = Some c /\ in_bracket negated items c = true.
Proof.
  cbn [run]. destruct (nth_error text i) as [c|]; [|easy].
  destruct (in_bracket negated items c) eqn:E; [|easy].
  intros [H|[]]. injection H as <- <-. repeat split. now exists c.
Qed.

Lemma bracket_intro (negated : bool) (items : list item) (i : nat)
    (caps : Captures) (c : ascii) :
  nth_error text i = Some c -> in_bracket negated items c = true ->
  run text (Bracket negated items) i caps = [(S i, caps)].
Proof. cbn [run]. now intros -> ->. Qed.

(** Iterating a bracket leaves the captures alone... *)
Lemma iterate_bracket_caps (negated : bool) (items : list item) (fuel : nat) :
  forall i j caps caps',
    In (j, caps')
       (iterate (run text (Bracket negated items)) fuel i caps) ->
    caps' = caps.
Proof.
  induction fuel as [|fuel IH]; intros i j caps caps'; simpl.
  - intros [H|[]]. now injection H.
  - intros H. apply in_app_or in H as [H|[H|[]]]; [|now injection H].
    apply in_flat_map in H as ([j1 c1] & H1 & H).
    apply bracket_inv in H1 as (_ & -> & _). cbn [fst snd] in H.
    destruct (Nat.ltb i j1); [|easy]. now apply IH in H.
Qed.

(** ... and reaches the end of every stretch of characters of the
    bracket. *)
Lemma iterate_bracket_reach (negated : bool) (items : list item)
    (caps : Captures) (fuel : nat) :
  forall i j,
    i <= j -> j - i <= fuel ->
    (forall k, i <= k < j ->
               exists c, nth_error text k = Some c
                         /\ in_bracket negated items c = true) ->
    In (j, caps) (iterate (run text (Bracket negated items)) fuel i caps).
Proof.
  induction fuel as [|fuel IH]; intros i j Hij Hfuel Hclass.
  - simpl. left. f_equal. lia.
  - cbn [iterate]. apply in_or_app.
    destruct (Nat.eq_dec i j) as [->|Hne]; [right; now left|]. left.
    destruct (Hclass i) as (c & Hc & Hb); [lia|].
    rewrite (bracket_intro _ _ _ _ c Hc Hb). cbn [flat_map fst snd].
    rewrite app_nil_r.
    replace (Nat.ltb i (S i)) with true by (symmetry; apply Nat.ltb_lt; lia).
    apply IH; [lia..|]. intros k Hk. apply Hclass. lia.
Qed.

Lemma base_name_inv (i j : nat) (caps caps' : Captures) :
  In (j, caps') (run text base_name i caps) ->
  (exists c, nth_error text i = Some c
             /\ in_bracket false first_char c = true)
  /\ (caps' = caps \/ exists span, caps' = (2, span) :: caps).
Proof.
  unfold base_name. cbn [run]. intros H.
  apply in_flat_map in H as ([j1 c1] & H1 & H).
  apply bracket_inv in H1 as (-> & -> & Hc). split; [exact Hc|].
  cbn [fst snd] in H. apply in_app_or in H as [H|[H|[]]].
  - right. apply in_map_iff in H as ([j2 c2] & E & H).
    cbn [fst snd] in E. injection E as <- <-.
    apply in_flat_map in H as ([j3 c3] & H3 & H).
    apply bracket_inv in H3 as (_ & -> & _). cbn [fst snd] in H.
    apply iterate_bracket_caps in H as ->. now eexists.
  - left. now injection H.
Qed.

Lemma base_name_intro (i j : nat) (caps : Captures) (c : ascii) :
  nth_error text i = Some c -> in_bracket false first_char c = true ->
  i < j -> j <= List.length text ->
  (S i < j -> exists d, nth_error text (S i) = Some d
                        /\ in_bracket false second_char d = true) ->
  (forall k, S (S i) <= k < j ->
             exists d, nth_error text k = Some d /\ is_ident_dot d = true) ->
  exists caps', In (j, caps') (run text base_name i caps).
Proof.
  intros Hc Hb Hij Hj Hsecond Hrest. unfold base_name.
  rewrite run_seq, (bracket_intro _ _ _ _ c Hc Hb). cbn [flat_map fst snd].
  rewrite app_nil_r, run_opt.
  destruct (Nat.eq_dec j (S i)) as [->|Hne].
  - exists caps. apply in_or_app. right. now left.
  - destruct Hsecond as (d & Hd & Hdb); [lia|].
    exists ((2, (S i, j)) :: caps). apply in_or_app. left.
    rewrite run_group. apply in_map_iff. exists (j, caps).
    split; [reflexivity|].
    rewrite run_seq, (bracket_intro _ _ _ _ d Hd Hdb). cbn [flat_map fst snd].
    rewrite app_nil_r, run_star.
    apply iterate_bracket_reach; [lia..|exact Hrest].
Qed.

Lemma trailing_boundary_inv (j e : nat) (caps caps' : Captures) :
  In (e, caps')
     (run text (Group 3 (Alt (Bracket true ident_dot) Eol)) j caps) ->
  caps' = (3, (j, e)) :: caps
  /\ ((e = S j /\ exists p, nth_error text j = Some p
                            /\ is_ident_dot p = false)
      \/ (e = j /\ j = List.length text)).
Proof.
  cbn [run]. intros Hin. apply in_map_iff in Hin as ([j0 c0] & E & Hin).
  cbn [fst snd] in E. injection E as -> <-.
  apply in_app_or in Hin as [Hin|Hin].
  - destruct (nth_error text j) as [p|] eqn:Ep; [|easy].
    destruct (in_bracket true ident_dot p) eqn:Eb; [|easy].
    destruct Hin as [E|[]]. injection E as <- <-.
    split; [reflexivity|]. left. split; [reflexivity|].
    exists p. split; [reflexivity|].
    unfold is_ident_dot. unfold in_bracket in *. simpl xorb in *.
    now apply negb_true_iff in Eb.
  - destruct (Nat.eqb_spec j (List.length text)) as [E|]; [|easy].
    destruct Hin as [E'|[]]. injection E' as <- <-. split; [reflexivity|].
    now right.
Qed.

(** What a match of the whole pattern is made of. *)
Lemma generic_match_inv (member : string) (i e : nat) (caps : Captures) :
  In (e, caps) (run text (generic_pattern member) i []) ->
  exists j1 jd j3,
    ((j1 = S i /\ exists p, nth_error text i = Some p
                            /\ is_ident_dot p = false)
     \/ (j1 = i /\ i = 0))
    /\ (exists c, nth_error text j1 = Some c
                  /\ in_bracket false first_char c = true)
    /\ nth_error text jd = Some "."%char
    /\ literal_at text (list_ascii_of_string member) (S jd) = true
    /\ j3 = S jd + String.length member
    /\ ((e = S j3 /\ exists p, nth_error text j3 = Some p
                               /\ is_ident_dot p = false)
        \/ (e = j3 /\ j3 = List.length text))
    /\ capture 1 caps = Some (i, j1)
    /\ capture 3 caps = Some (j3, e).
Proof.
  unfold generic_pattern.
  change (run text (Seq ?a ?b) i [])
    with (flat_map (fun m : nat * Captures => run text b (fst m) (snd m))
                   (run text a i [])).
  intros H. apply in_flat_map in H as ([j1 c1] & H1 & H).
  apply leading_boundary_inv in H1 as [-> Hlead]. cbn [fst snd] in H.
  change (run text (Seq ?a ?b) ?i ?c)
    with (flat_map (fun m : nat * Captures => run text b (fst m) (snd m))
                   (run text a i c)) in H.
  apply in_flat_map in H as ([j2 c2] & H2 & H).
  apply base_name_inv in H2 as [Hfirst Hc2]. cbn [fst snd] in H.
  change (run text (Seq ?a ?b) ?i ?c)
    with (flat_map (fun m : nat * Captures => run text b (fst m) (snd m))
                   (run text a i c)) in H.
  apply in_flat_map in H as ([j3 c3] & H3 & H).
  cbn [run literal_at] in H3.
  destruct (nth_error text j2) as [d|] eqn:Ed; [|easy].
  destruct (Ascii.eqb_spec "."%char d) as [<-|]; [|easy].
  cbn [andb] in H3. destruct H3 as [E|[]]. injection E as <- <-.
  cbn [fst snd] in H.
  change (run text (Seq ?a ?b) ?i ?c)
    with (flat_map (fun m : nat * Captures => run text b (fst m) (snd m))
                   (run text a i c)) in H.
  apply in_flat_map in H as ([j4 c4] & H4 & H).
  cbn [run] in H4.
  destruct (literal_at text (list_ascii_of_string member) (S j2)) eqn:El;
    [|easy].
  destruct H4 as [E|[]]. injection E as <- <-. cbn [fst snd] in H.
  apply trailing_boundary_inv in H as [-> Htrail].
  exists j1, j2, (S j2 + String.length member).
  repeat split; try assumption.
  - destruct Hc2 as [->|[span ->]]; reflexivity.
Qed.

(** Putting the parts together. *)
Lemma generic_match_intro (member : string) (j1 jd e : nat) (c : ascii) :
  ((j1 = 1 /\ exists p, nth_error text 0 = Some p /\ is_ident_dot p = false)
   \/ j1 = 0) ->
  nth_error text j1 = Some c -> in_bracket false first_char c = true ->
  j1 < jd -> jd <= List.length text ->
  (S j1 < jd -> exists d, nth_error text (S j1) = Some d
                         /\ in_bracket false second_char d = true) ->
  (forall k, S (S j1) <= k < jd ->
             exists d, nth_error text k = Some d /\ is_ident_dot d = true) ->
  nth_error text jd = Some "."%char ->
  literal_at text (list_ascii_of_string member) (S jd) = true ->
  ((e = S (S jd + String.length member)
    /\ exists p, nth_error text (S jd + String.length member) = Some p
                 /\ is_ident_dot p = false)
   \/ (e = S jd + String.length member /\ e = List.length text)) ->
  exists caps, In (e, caps) (run text (generic_pattern member) 0 []).
Proof.
  intros Hlead Hc Hfirst Hj1 Hjd Hsecond Hrest Hdot Hmember Htrail.
  destruct (base_name_intro j1 jd [(1, (0, j1))] c Hc Hfirst Hj1 Hjd
                            Hsecond Hrest) as [caps2 Hbase].
  exists ((3, (S jd + String.length member, e)) :: caps2).
  unfold generic_pattern. rewrite run_seq. apply in_flat_map.
  exists (j1, [(1, (0, j1))]). split.
  { rewrite run_group, run_alt. apply in_map_iff.
    exists (j1, []). split; [reflexivity|]. apply in_or_app.
    destruct Hlead as [[-> (p & Hp & Hb)]| ->].
    - left. rewrite (bracket_intro true ident_dot 0 [] p Hp); [now left|].
      unfold is_ident_dot, in_bracket in *. simpl xorb in *. now rewrite Hb.
    - right. now left. }
  cbn [fst snd]. rewrite run_seq. apply in_flat_map.
  exists (jd, caps2). split; [exact Hbase|].
  cbn [fst snd]. rewrite run_seq. apply in_flat_map.
  exists (S jd, caps2). split.
  { cbn [run literal_at]. rewrite Hdot, Ascii.eqb_refl. now left. }
  cbn [fst snd]. rewrite run_seq. apply in_flat_map.
  exists (S jd + String.length member, caps2). split.
  { cbn [run]. rewrite Hmember. now left. }
  cbn [fst snd]. rewrite run_group, run_alt. apply in_map_iff.
  exists (e, caps2). split; [reflexivity|]. apply in_or_app.
  destruct Htrail as [[-> (p & Hp & Hb)]|[-> Hend]].
  - left. rewrite (bracket_intro true ident_dot _ caps2 p Hp); [now left|].
    unfold is_ident_dot, in_bracket in *. simpl xorb in *. now rewrite Hb.
  - right. cbn [run]. rewrite Hend, Nat.eqb_refl. now left.
Qed.

Lemma longest_some (results : list (nat * Captures)) :
  results <> [] -> exists m, longest results = Some m /\ In m results.
Proof.
  induction results as [|m rest IH]; [easy|]. intros _. simpl.
  destruct rest as [|m' rest'].
  - exists m. split; [reflexivity | now left].
  - destruct IH as (best & -> & Hin); [easy|].
    destruct (fst m <? fst best)%nat.
    + exists best. split; [reflexivity | now right].
    + exists m. split; [reflexivity | now left].
Qed.

Lemma search_from_hit (r : regex) (n start : nat) (m : nat * Captures) :
  longest (run text r start []) = Some m ->
  search_from text r n start = Some (start, m).
Proof. destruct n; simpl; now intros ->. Qed.

(** One match that takes the whole line. *)
Lemma substitute_from_whole (c : command) (n e : nat) (caps : Captures) :
  longest (run text (pattern c) 0 []) = Some (e, caps) ->
  e = List.length text -> 0 < List.length text ->
  run text (pattern c) (List.length text) [] = [] ->
  substitute_from text c (S (S n)) 0 = expand text (replacement c) caps.
Proof.
  intros Hbest -> Hlen Hend.
  cbn [substitute_from]. unfold search.
  rewrite (search_from_hit _ _ _ _ Hbest).
  replace (List.length text <? 0)%nat with false by easy.
  replace (0 =? List.length text)%nat with false
    by (symmetry; apply Nat.eqb_neq; lia).
  rewrite Nat.ltb_irrefl, Nat.sub_diag. cbn [search_from]. rewrite Hend.
  cbn [longest]. rewrite skipn_all. unfold slice. simpl.
  now rewrite app_nil_r.
Qed.

End Parts.

(** *** One occurrence on a line *)

Lemma second_char_is_ident_dot (c : ascii) :
  in_bracket false second_char c = true -> is_ident_dot c = true.
Proof.
  destruct c as [[] [] [] [] [] [] [] []]; vm_compute; intros H;
    (reflexivity || discriminate H).
Qed.

Section Occurrence.
Variables (lb rb rest mem : list ascii) (c : ascii).
Variables (member qual_name : string).
Hypothesis Hmem : mem = list_ascii_of_string member.
Hypothesis Hlb : boundary_chars lb = true.
Hypothesis Hrb : boundary_chars rb = true.
Hypothesis Hc : in_bracket false first_char c = true.
Hypothesis Hrest :
  match rest with
  | [] => true
  | d :: rest' =>
      in_bracket false second_char d && forallb is_ident_dot rest'
  end = true.
Hypothesis Hmember : forallb is_ident_dot mem = true.

(** The occurrence, and the line. *)
Let mid : list ascii := c :: (rest ++ "."%char :: mem)%list.
Let text : list ascii := (lb ++ mid ++ rb)%list.

Lemma mid_ident : forallb is_ident_dot mid = true.
Proof.
  unfold mid. cbn [forallb]. rewrite (first_char_is_ident_dot c Hc).
  rewrite forallb_app. cbn [forallb andb]. rewrite Hmember.
  replace (is_ident_dot ".") with true by reflexivity.
  destruct rest as [|d rest']; [reflexivity|].
  apply andb_true_iff in Hrest as [Hd Hrest']. cbn [forallb].
  now rewrite (second_char_is_ident_dot d Hd), Hrest'.
Qed.

Lemma mid_length :
  List.length mid = S (List.length rest + S (String.length member)).
Proof.
  unfold mid. cbn [List.length]. rewrite length_app. cbn [List.length].
  now rewrite Hmem, length_list_of.
Qed.

Lemma text_length :
  List.length text = List.length lb + List.length mid + List.length rb.
Proof. unfold text. rewrite !length_app. lia. Qed.

Lemma lb_short : List.length lb <= 1.
Proof.
  destruct lb as [|p [|q l]]; cbn [boundary_chars List.length] in *;
    (lia || discriminate).
Qed.

Lemma rb_short : List.length rb <= 1.
Proof.
  destruct rb as [|p [|q l]]; cbn [boundary_chars List.length] in *;
    (lia || discriminate).
Qed.

Lemma lb_cases :
  lb = [] \/ exists p, lb = [p] /\ is_ident_dot p = false.
Proof.
  destruct lb as [|p [|q l]]; cbn [boundary_chars] in *;
    [now left| |discriminate].
  right. exists p. split; [reflexivity | now apply negb_true_iff].
Qed.

Lemma rb_cases :
  rb = [] \/ exists p, rb = [p] /\ is_ident_dot p = false.
Proof.
  destruct rb as [|p [|q l]]; cbn [boundary_chars] in *;
    [now left| |discriminate].
  right. exists p. split; [reflexivity | now apply negb_true_iff].
Qed.

Lemma rest_cases :
  rest = []
  \/ exists d rest', rest = d :: rest'
                     /\ in_bracket false second_char d = true.
Proof.
  destruct rest as [|d rest']; [now left|].
  right. exists d, rest'. split; [reflexivity|].
  now apply andb_true_iff in Hrest as [Hd _].
Qed.

Lemma text_lb (k : nat) :
  k < List.length lb -> nth_error text k = nth_error lb k.
Proof. intros Hk. unfold text. now rewrite nth_error_app1. Qed.

Lemma text_mid (k : nat) (x : ascii) :
  nth_error mid k = Some x -> nth_error text (List.length lb + k) = Some x.
Proof.
  intros Hk. unfold text.
  rewrite nth_error_app2 by lia.
  replace (List.length lb + k - List.length lb) with k by lia.
  rewrite nth_error_app1; [exact Hk|].
  apply nth_error_Some. now rewrite Hk.
Qed.

Lemma text_mid_ident (k : nat) :
  List.length lb <= k < List.length lb + List.length mid ->
  exists d, nth_error text k = Some d /\ is_ident_dot d = true.
Proof.
  intros Hk.
  destruct (nth_error mid (k - List.length lb)) as [d|] eqn:E.
  - exists d. split.
    + replace k with (List.length lb + (k - List.length lb)) by lia.
      now apply text_mid.
    + pose proof mid_ident as Hmid. rewrite forallb_forall in Hmid.
      apply Hmid. eapply nth_error_In; eassumption.
  - apply nth_error_None in E. lia.
Qed.

Lemma text_rb (k : nat) :
  nth_error text (List.length lb + List.length mid + k) = nth_error rb k.
Proof.
  unfold text. rewrite nth_error_app2 by lia. rewrite nth_error_app2 by lia.
  f_equal. lia.
Qed.

(** A character that is not of a path stands in a boundary. *)
Lemma boundary_position (k : nat) (p : ascii) :
  nth_error text k = Some p -> is_ident_dot p = false ->
  k < List.length lb \/ List.length lb + List.length mid <= k.
Proof.
  intros Hk Hp.
  destruct (Nat.lt_ge_cases k (List.length lb)) as [Hlt|Hge]; [now left|].
  destruct (Nat.lt_ge_cases k (List.length lb + List.length mid))
    as [Hlt|Hge']; [|now right].
  destruct (text_mid_ident k) as (d & Hd & Hdi); [lia|].
  rewrite Hk in Hd. injection Hd as <-. now rewrite Hp in Hdi.
Qed.

(** A character of a path stands in the occurrence. *)
Lemma path_position (k : nat) (q : ascii) :
  nth_error text k = Some q -> is_ident_dot q = true ->
  List.length lb <= k < List.length lb + List.length mid.
Proof.
  intros Hk Hq.
  destruct (Nat.lt_ge_cases k (List.length lb)) as [Hlt|Hge].
  - exfalso. rewrite text_lb in Hk by exact Hlt.
    destruct lb_cases as [E|(p & E & Hp)]; rewrite E in Hk, Hlt;
      cbn [List.length] in Hlt; [lia|].
    destruct k; [|lia]. cbn [nth_error] in Hk. injection Hk as ->.
    now rewrite Hq in Hp.
  - split; [exact Hge|].
    destruct (Nat.lt_ge_cases k (List.length lb + List.length mid))
      as [Hlt|Hge']; [exact Hlt|exfalso].
    replace k with (List.length lb + List.length mid
                    + (k - List.length lb - List.length mid)) in Hk by lia.
    rewrite text_rb in Hk.
    destruct rb_cases as [E|(p & E & Hp)]; rewrite E in Hk.
    + now destruct (k - List.length lb - List.length mid).
    + destruct (k - List.length lb - List.length mid) as [|k'];
        [|now destruct k'].
      cbn [nth_error] in Hk. injection Hk as ->. now rewrite Hq in Hp.
Qed.

Lemma occurrence_matches :
  exists caps,
    In (List.length text, caps) (run text (generic_pattern member) 0 []).
Proof.
  pose proof mid_length as Hmid. pose proof text_length as Htext.
  pose proof lb_short as Hlbs. pose proof rb_short as Hrbs.
  apply (generic_match_intro text member (List.length lb)
           (List.length lb + S (List.length rest)) (List.length text) c).
  - destruct lb_cases as [E|(p & E & Hp)].
    + right. now rewrite E.
    + left. split; [now rewrite E|]. exists p. split; [|exact Hp].
      rewrite text_lb by (rewrite E; cbn [List.length]; lia).
      now rewrite E.
  - rewrite <- (Nat.add_0_r (List.length lb)). now apply text_mid.
  - exact Hc.
  - lia.
  - lia.
  - intros Hlong.
    destruct rest_cases as [E|(d & rest' & E & Hd)];
      [rewrite E in Hlong; cbn [List.length] in Hlong; lia|].
    exists d. split; [|exact Hd].
    replace (S (List.length lb)) with (List.length lb + 1) by lia.
    apply text_mid. unfold mid. now rewrite E.
  - intros k Hk. apply text_mid_ident. lia.
  - apply text_mid. unfold mid. cbn [nth_error].
    rewrite nth_error_app2 by lia. now rewrite Nat.sub_diag.
  - apply literal_at_intro. intros k x Hk.
    replace (S (List.length lb + S (List.length rest)) + k)
      with (List.length lb + S (List.length rest + S k)) by lia.
    apply text_mid. unfold mid. cbn [nth_error].
    rewrite nth_error_app2 by lia.
    replace (List.length rest + S k - List.length rest) with (S k) by lia.
    cbn [nth_error]. now rewrite Hmem.
  - destruct rb_cases as [E|(p & E & Hp)].
    + right. rewrite E in Htext. cbn [List.length] in Htext. lia.
    + left. split; [rewrite E in Htext; cbn [List.length] in Htext; lia|].
      exists p. split; [|exact Hp].
      replace (S (List.length lb + S (List.length rest))
               + String.length member)
        with (List.length lb + List.length mid + 0) by lia.
      rewrite text_rb. now rewrite E.
Qed.

Lemma occurrence_captures (e : nat) (caps : Captures) :
  In (e, caps) (run text (generic_pattern member) 0 []) ->
  e = List.length text
  /\ capture 1 caps = Some (0, List.length lb)
  /\ capture 3 caps
     = Some (List.length lb + List.length mid, List.length text).
Proof.
  pose proof mid_length as Hmid. pose proof text_length as Htext.
  pose proof lb_short as Hlbs. pose proof rb_short as Hrbs.
  intros Hin.
  apply generic_match_inv in Hin
    as (j1 & jd & j3 & Hlead & (c' & Hc' & Hf') & Hdot & Hlit & -> & Htrail
        & Hcap1 & Hcap3).
  assert (Hj1 : j1 = List.length lb).
  { destruct Hlead as [[-> (p & Hp & Hb)]|[-> _]].
    - apply boundary_position in Hp; [lia | exact Hb].
    - apply path_position in Hc'; [lia|].
      now apply first_char_is_ident_dot. }
  assert (Hlast : List.length lb <= jd + String.length member
                  < List.length lb + List.length mid).
  { destruct (String.length member) as [|n] eqn:En.
    - rewrite Nat.add_0_r. now apply (path_position jd "."%char).
    - destruct (nth_error (list_ascii_of_string member) n) as [x|] eqn:Ex.
      + pose proof (literal_at_elim text _ _ Hlit n x Ex) as Hx.
        replace (jd + S n) with (S jd + n) by lia.
        apply (path_position _ x Hx).
        rewrite forallb_forall in Hmember. apply Hmember. rewrite Hmem.
        eapply nth_error_In; eassumption.
      + apply nth_error_None in Ex. rewrite length_list_of in Ex. lia. }
  assert (He : e = List.length text
               /\ S jd + String.length member
                  = List.length lb + List.length mid).
  { destruct Htrail as [[-> (p & Hp & Hb)]|[-> Hend]].
    - pose proof (boundary_position _ p Hp Hb) as Hpos.
      assert (Hsome : S jd + String.length member < List.length text)
        by (apply nth_error_Some; now rewrite Hp).
      lia.
    - lia. }
  destruct He as [-> Hj3]. split; [reflexivity|].
  now rewrite Hcap1, Hcap3, Hj1, Hj3.
Qed.

Lemma nothing_after_occurrence :
  run text (generic_pattern member) (List.length text) [] = [].
Proof.
  pose proof mid_length as Hmid. pose proof text_length as Htext.
  destruct (run text (generic_pattern member) (List.length text) [])
    as [|[e caps] l] eqn:E; [reflexivity|].
  assert (Hin : In (e, caps)
                   (run text (generic_pattern member) (List.length text) []))
    by (rewrite E; now left).
  apply generic_match_start in Hin as (j & c' & Hj & _ & Hpos).
  destruct Hpos as [[_ (p & Hp & _)]|[_ Hzero]]; [|lia].
  assert (List.length text < List.length text)
    by (apply nth_error_Some; now rewrite Hp).
  lia.
Qed.

(** The occurrence is rewritten, the boundaries are kept. *)
Lemma substitute_occurrence_chars (n : nat) :
  substitute_from text (generic_command member qual_name) (S (S n)) 0
  = (lb ++ list_ascii_of_string qual_name ++ rb)%list.
Proof.
  pose proof mid_length as Hmid. pose proof text_length as Htext.
  destruct occurrence_matches as [caps0 Hin0].
  destruct (longest_some (run text (generic_pattern member) 0 []))
    as ([e caps] & Hbest & Hin).
  { intros E. now rewrite E in Hin0. }
  destruct (occurrence_captures e caps Hin) as (He & Hcap1 & Hcap3).
  rewrite (substitute_from_whole text (generic_command member qual_name)
             n e caps Hbest He);
    [|lia|apply nothing_after_occurrence].
  cbn [replacement generic_command expand flat_map].
  rewrite Hcap1, Hcap3, app_nil_r. unfold slice.
  assert (Hleft : firstn (List.length lb - 0) (skipn 0 text) = lb).
  { rewrite Nat.sub_0_r. cbn [skipn]. unfold text.
    rewrite firstn_app, firstn_all, Nat.sub_diag. cbn [firstn].
    apply app_nil_r. }
  assert (Hright : firstn (List.length text
                           - (List.length lb + List.length mid))
                          (skipn (List.length lb + List.length mid) text)
                   = rb).
  { replace (skipn (List.length lb + List.length mid) text) with rb.
    - apply firstn_all2. lia.
    - unfold text. rewrite app_assoc, <- length_app, skipn_app.
      rewrite skipn_all, Nat.sub_diag. reflexivity. }
  now rewrite Hleft, Hright.
Qed.

End Occurrence.

(** A line no dotted path of which starts with a character of
    [first_char] is left as it is. *)
Lemma substitute_unmatched (member qual_name line : string)
    (head : ascii -> bool) :
  (forall c, in_bracket false first_char c = true -> head c = false) ->
  run_heads head true (list_ascii_of_string line) = true ->
  substitute (generic_command member qual_name) line = line.
Proof.
  intros Hhead Hline. unfold substitute. cbn [Nat.add].
  rewrite substitute_from_unmatched.
  - apply string_of_list_ascii_of_string.
  - intros i. simpl. now apply (generic_no_match _ member head).
Qed.

Lemma substitute_Q_paths (member qual_name line : string) :
  paths_start_with_Q line = true ->
  substitute (generic_command member qual_name) line = line.
Proof.
  apply substitute_unmatched. apply first_char_not_Q.
Qed.

(** *** The loop of [substitute] comes to its end *)
Section Fuel.
Variable text : list ascii.

Lemma iterate_ge (step : nat -> Captures -> list (nat * Captures))
    (fuel : nat) :
  forall i caps j caps',
    In (j, caps') (iterate step fuel i caps) -> i <= j.
Proof.
  induction fuel as [|fuel IH]; intros i caps j caps'; simpl.
  - intros [H|[]]. injection H as <- _. lia.
  - intros H. apply in_app_or in H as [H|[H|[]]].
    + apply in_flat_map in H as ([j1 c1] & _ & H). cbn [fst snd] in H.
      destruct (Nat.ltb_spec i j1); [|easy]. apply IH in H. lia.
    + injection H as <- _. lia.
Qed.

(** A match ends where it starts or later. *)
Lemma run_ge (r : regex) :
  forall i caps j caps', In (j, caps') (run text r i caps) -> i <= j.
Proof.
  induction r as [| |negated items|ch|s|r1 IH1 r2 IH2|r1 IH1 r2 IH2
                  |r IH|r IH|n r IH]; intros i caps j caps' H.
  - cbn [run] in H. destruct (i =? 0)%nat; [|easy].
    destruct H as [H|[]]. injection H as <- _. lia.
  - cbn [run] in H. destruct (i =? List.length text)%nat; [|easy].
    destruct H as [H|[]]. injection H as <- _. lia.
  - apply bracket_inv in H as (-> & _). lia.
  - cbn [run] in H. destruct (literal_at text [ch] i); [|easy].
    destruct H as [H|[]]. injection H as <- _. lia.
  - cbn [run] in H.
    destruct (literal_at text (list_ascii_of_string s) i); [|easy].
    destruct H as [H|[]]. injection H as <- _. lia.
  - rewrite run_seq in H. apply in_flat_map in H as ([j1 c1] & H1 & H2).
    apply IH1 in H1. apply IH2 in H2. cbn [fst] in H2. lia.
  - rewrite run_alt in H. apply in_app_or in H as [H|H];
      [now apply IH1 in H | now apply IH2 in H].
  - rewrite run_star in H. now apply iterate_ge in H.
  - rewrite run_opt in H. apply in_app_or in H as [H|[H|[]]].
    + now apply IH in H.
    + injection H as <- _. lia.
  - rewrite run_group in H. apply in_map_iff in H as ([j1 c1] & E & H).
    cbn [fst snd] in E. injection E as <- _. now apply IH in H.
Qed.

Lemma iterate_le (step : nat -> Captures -> list (nat * Captures))
    (n : nat) :
  (forall i caps j caps', i <= n -> In (j, caps') (step i caps) -> j <= n) ->
  forall fuel i caps j caps',
    i <= n -> In (j, caps') (iterate step fuel i caps) -> j <= n.
Proof.
  intros Hstep. induction fuel as [|fuel IH]; intros i caps j caps' Hi; simpl.
  - intros [H|[]]. injection H as <- _. exact Hi.
  - intros H. apply in_app_or in H as [H|[H|[]]].
    + apply in_flat_map in H as ([j1 c1] & H1 & H). cbn [fst snd] in H.
      destruct (i <? j1)%nat; [|easy].
      apply (IH j1 c1 j caps'); [|exact H]. now apply (Hstep i caps j1 c1).
    + injection H as <- _. exact Hi.
Qed.

(** A match ends within the line. *)
Lemma run_le (r : regex) :
  forall i caps j caps',
    i <= List.length text -> In (j, caps') (run text r i caps) ->
    j <= List.length text.
Proof.
  induction r as [| |negated items|ch|s|r1 IH1 r2 IH2|r1 IH1 r2 IH2
                  |r IH|r IH|n r IH]; intros i caps j caps' Hi H.
  - cbn [run] in H. destruct (i =? 0)%nat; [|easy].
    destruct H as [H|[]]. now injection H as <- _.
  - cbn [run] in H. destruct (i =? List.length text)%nat; [|easy].
    destruct H as [H|[]]. now injection H as <- _.
  - apply bracket_inv in H as (-> & _ & c & Hc & _).
    apply nth_error_Some. now rewrite Hc.
  - cbn [run literal_at] in H.
    destruct (nth_error text i) as [d|] eqn:E; [|easy].
    destruct (Ascii.eqb ch d && true); [|easy].
    destruct H as [H|[]]. injection H as <- _.
    apply nth_error_Some. now rewrite E.
  - cbn [run] in H.
    destruct (literal_at text (list_ascii_of_string s) i) eqn:El; [|easy].
    destruct H as [H|[]]. injection H as <- _.
    destruct (String.length s) as [|k] eqn:Ek; [lia|].
    destruct (nth_error (list_ascii_of_string s) k) as [x|] eqn:Ex.
    + pose proof (literal_at_elim text _ _ El k x Ex) as Hx.
      assert (i + k < List.length text)
        by (apply nth_error_Some; now rewrite Hx).
      lia.
    + apply nth_error_None in Ex. rewrite length_list_of in Ex. lia.
  - rewrite run_seq in H. apply in_flat_map in H as ([j1 c1] & H1 & H2).
    apply IH1 in H1; [|exact Hi]. now apply IH2 in H2.
  - rewrite run_alt in H. apply in_app_or in H as [H|H];
      [now apply IH1 in H | now apply IH2 in H].
  - rewrite run_star in H. revert H. apply iterate_le; [|exact Hi].
    intros i0 c0 j0 c0' Hi0. now apply IH.
  - rewrite run_opt in H. apply in_app_or in H as [H|[H|[]]].
    + now apply IH in H.
    + now injection H as <- _.
  - rewrite run_group in H. apply in_map_iff in H as ([j1 c1] & E & H).
    cbn [fst snd] in E. injection E as <- _. now apply IH in H.
Qed.

(** The rounds of a star are fewer than its fuel. *)
Lemma iterate_fuel (r : regex) (fuel : nat) :
  forall i caps,
    i <= List.length text -> List.length text < i + fuel ->
    iterate (run text r) (S fuel) i caps = iterate (run text r) fuel i caps.
Proof.
  induction fuel as [|fuel IH]; intros i caps Hi Hfuel; [lia|].
  change (iterate (run text r) (S (S fuel)) i caps)
    with (flat_map (fun m : nat * Captures =>
                      if (i <? fst m)%nat
                      then iterate (run text r) (S fuel) (fst m) (snd m)
                      else [])
                   (run text r i caps) ++ [(i, caps)])%list.
  change (iterate (run text r) (S fuel) i caps)
    with (flat_map (fun m : nat * Captures =>
                      if (i <? fst m)%nat
                      then iterate (run text r) fuel (fst m) (snd m)
                      else [])
                   (run text r i caps) ++ [(i, caps)])%list.
  f_equal. apply flat_map_ext_in. intros [j c] Hin. cbn [fst snd].
  destruct (Nat.ltb_spec i j) as [Hij|_]; [|reflexivity].
  apply IH; [|lia]. now apply run_le in Hin.
Qed.

Lemma longest_in (results : list (nat * Captures)) (m : nat * Captures) :
  longest results = Some m -> In m results.
Proof.
  revert m. induction results as [|x rest IH]; intros m; [easy|]. simpl.
  destruct (longest rest) as [best|].
  - destruct (fst x <? fst best)%nat; intros E; injection E as <-;
      [right; now apply IH | now left].
  - intros E. injection E as <-. now left.
Qed.

Lemma search_from_ge (r : regex) (n : nat) :
  forall start s e caps,
    search_from text r n start = Some (s, (e, caps)) -> start <= s <= e.
Proof.
  induction n as [|n IH]; intros start s e caps; simpl;
    destruct (longest (run text r start [])) as [m|] eqn:E.
  - intros H. injection H as <- ->. apply longest_in, run_ge in E. lia.
  - easy.
  - intros H. injection H as <- ->. apply longest_in, run_ge in E. lia.
  - intros H. apply IH in H. lia.
Qed.

Lemma substitute_from_S (c : command) (fuel start : nat) :
  substitute_from text c (S fuel) start
  = if (List.length text <? start)%nat then []
    else
      match search text (pattern c) start with
      | None => skipn start text
      | Some (s, (e, caps)) =>
          (slice text start s ++ expand text (replacement c) caps
           ++ (if (s =? e)%nat
               then slice text e (S e) ++ substitute_from text c fuel (S e)
               else substitute_from text c fuel e))%list
      end.
Proof. reflexivity. Qed.

(** More fuel than the line is long changes nothing. *)
Lemma substitute_from_fuel (c : command) (fuel : nat) :
  forall start,
    List.length text < start + fuel ->
    substitute_from text c (S fuel) start = substitute_from text c fuel start.
Proof.
  induction fuel as [|fuel IH]; intros start Hfuel.
  - cbn [substitute_from].
    replace (List.length text <? start)%nat with true
      by (symmetry; apply Nat.ltb_lt; lia).
    symmetry. apply skipn_all2. lia.
  - rewrite (substitute_from_S c (S fuel)), (substitute_from_S c fuel).
    destruct (List.length text <? start)%nat; [reflexivity|].
    destruct (search text (pattern c) start) as [[s [e caps]]|] eqn:E;
      [|reflexivity].
    unfold search in E. apply search_from_ge in E.
    destruct (Nat.eqb_spec s e) as [_|Hne].
    + now rewrite (IH (S e)) by lia.
    + now rewrite (IH e) by lia.
Qed.

End Fuel.

Lemma substitute_fuel_enough (c : command) (line : string) (extra : nat) :
  let text := list_ascii_of_string line in
  string_of_list_ascii
    (substitute_from text c (extra + (2 + List.length text)) 0)
  = substitute c line.
Proof.
  intros text. unfold substitute. fold text. f_equal.
  induction extra as [|extra IH]; [reflexivity|].
  change (S extra + (2 + List.length text))
    with (S (extra + (2 + List.length text))).
  rewrite substitute_from_fuel by lia. exact IH.
Qed.

(** One occurrence of [<base>.<member>] between boundaries, alone on its
    line, is rewritten when the pattern accepts the base. *)
Lemma substitute_occurrence (member qual_name b1 base b2 : string) :
  is_identifier member = true ->
  is_boundary b1 = true -> is_boundary b2 = true ->
  accepted_base base = true ->
  substitute (generic_command member qual_name)
             (b1 ++ base ++ "." ++ member ++ b2)
  = b1 ++ qual_name ++ b2.
Proof.
  intros Hmember Hb1 Hb2 Hbase.
  destruct base as [|c rest]; [discriminate|].
  cbn [accepted_base] in Hbase. apply andb_true_iff in Hbase as [Hc Hrest].
  assert (Hmem : forallb is_ident_dot (list_ascii_of_string member) = true).
  { unfold is_identifier in Hmember.
    apply andb_true_iff in Hmember as [_ Hall].
    rewrite forallb_forall in Hall |- *. intros x Hx.
    now apply Hall, andb_true_iff in Hx as [Hx _]. }
  assert (Hlb : boundary_chars (list_ascii_of_string b1) = true).
  { destruct b1 as [|p [|q b]]; try discriminate; [reflexivity|exact Hb1]. }
  assert (Hrb : boundary_chars (list_ascii_of_string b2) = true).
  { destruct b2 as [|p [|q b]]; try discriminate; [reflexivity|exact Hb2]. }
  assert (Hrest' : match list_ascii_of_string rest with
                   | [] => true
                   | d :: rest' =>
                       in_bracket false second_char d
                       && forallb is_ident_dot rest'
                   end = true).
  { destruct rest as [|d rest']; [reflexivity|exact Hrest]. }
  pose proof (substitute_occurrence_chars
                (list_ascii_of_string b1) (list_ascii_of_string b2)
                (list_ascii_of_string rest) (list_ascii_of_string member)
                c member qual_name eq_refl Hlb Hrb Hc Hrest' Hmem) as Hsub.
  cbv zeta in Hsub. unfold substitute.
  replace (list_ascii_of_string (b1 ++ String c rest ++ "." ++ member ++ b2))
    with (list_ascii_of_string b1
          ++ (c :: list_ascii_of_string rest
                ++ "."%char :: list_ascii_of_string member)
          ++ list_ascii_of_string b2)%list.
  - cbn [Nat.add]. rewrite Hsub.
    rewrite !string_of_app, !string_of_list_ascii_of_string. reflexivity.
  - rewrite list_of_append. f_equal. cbn [append list_ascii_of_string].
    rewrite list_of_append. cbn [append list_ascii_of_string].
    rewrite list_of_append. cbn [app]. f_equal.
    rewrite <- app_assoc. reflexivity.
Qed.

(** *** Lines whose paths start with Q *)

Lemma run_heads_inside (head : ascii -> bool) (path rest : list ascii) :
  forallb is_ident_dot path = true ->
  run_heads head false (path ++ rest) = run_heads head false rest.
Proof.
  induction path as [|x path IH]; intros Hpath; [reflexivity|].
  cbn [forallb] in Hpath. apply andb_true_iff in Hpath as [Hx Hpath].
  cbn [app run_heads andb]. rewrite Hx. cbn [negb]. now apply IH.
Qed.

Lemma run_heads_boundary (head : ascii -> bool) (at_start : bool)
    (b : list ascii) :
  boundary_chars b = true -> run_heads head at_start b = true.
Proof.
  destruct b as [|p [|q b]]; try discriminate; [reflexivity|].
  cbn [boundary_chars run_heads]. intros Hp. apply negb_true_iff in Hp.
  rewrite Hp. now rewrite andb_false_r.
Qed.

(** A dotted path that starts with Q, between boundaries. *)
Lemma Q_path_between_boundaries (b1 rest b2 : string) :
  is_boundary b1 = true -> is_boundary b2 = true ->
  forallb is_ident_dot (list_ascii_of_string rest) = true ->
  paths_start_with_Q (b1 ++ String "Q" rest ++ b2) = true.
Proof.
  intros Hb1 Hb2 Hrest. unfold paths_start_with_Q.
  assert (Hrb : boundary_chars (list_ascii_of_string b2) = true).
  { destruct b2 as [|p [|q b]]; try discriminate; [reflexivity|exact Hb2]. }
  assert (Hpath : run_heads (Ascii.eqb "Q") true
                    (list_ascii_of_string (String "Q" rest ++ b2)) = true).
  { cbn [append list_ascii_of_string run_heads].
    replace (is_ident_dot "Q") with true by reflexivity.
    cbn [andb negb]. rewrite Ascii.eqb_refl. cbn [andb].
    rewrite list_of_append, run_heads_inside by exact Hrest.
    now apply run_heads_boundary. }
  destruct b1 as [|p [|q b]]; try discriminate; [exact Hpath|].
  cbn [is_boundary] in Hb1. apply negb_true_iff in Hb1.
  cbn [append list_ascii_of_string run_heads]. rewrite Hb1.
  rewrite andb_false_r. cbn [andb negb]. exact Hpath.
Qed.

Lemma base_name_rejects_Q (text : list ascii) (i : nat) (caps : Captures) :
  nth_error text i = Some "Q"%char -> run text base_name i caps = [].
Proof.
  intros HQ. unfold base_name. rewrite run_seq. cbn [run]. now rewrite HQ.
Qed.

End SedFacts.

(** ** The example of the specification, and the rule applied twice *)
Module EndToEnd.
Import PyStr Astroid Extractor Compiler Sed Examples.
Import ExtractorFacts CompilerFacts SedFacts.


(** C10 as first stated fails: the output of a rule need not be a fixed
    point of the rule. The boundary after a match is part of the match,
    so of two occurrences one space apart the first pass rewrites the
    first only, and a second pass rewrites the other. *)
Lemma rule_output_is_not_a_fixed_point :
  substitute MultiSelection_command "a.MultiSelection b.MultiSelection"
  = "QtWidgets.QAbstractItemView.SelectionMode.MultiSelection b.MultiSelection"
  /\ substitute MultiSelection_command
       "QtWidgets.QAbstractItemView.SelectionMode.MultiSelection b.MultiSelection"
     = "QtWidgets.QAbstractItemView.SelectionMode.MultiSelection QtWidgets.QAbstractItemView.SelectionMode.MultiSelection"
  /\ substitute MultiSelection_command
       (substitute MultiSelection_command
                   "a.MultiSelection b.MultiSelection")
     <> substitute MultiSelection_command
                   "a.MultiSelection b.MultiSelection".
Proof.
  split; [now vm_compute|]. split; [now vm_compute|].
  vm_compute. discriminate.
Qed.

End EndToEnd.

(** ** Splitting, joining and dropping parentheses *)
Module StringRoundTrips.
Import PyStr PyStrFacts.

Lemma split_not_nil (sep : ascii) (s : string) : split sep s <> [].
Proof.
  induction s as [|c s IH]; simpl; [easy|].
  destruct (Ascii.eqb c sep); [easy|]. now destruct (split sep s).
Qed.

(** Joining the parts of a split gives the string back. *)
Lemma join_split (sep : ascii) (s : string) :
  join (String sep "") (split sep s) = s.
Proof.
  unfold join. induction s as [|c s IH]; [reflexivity|]. simpl split.
  destruct (Ascii.eqb_spec c sep) as [->|Hne].
  - pose proof (split_not_nil sep s) as Hnil.
    destruct (split sep s) as [|seg rest]; [easy|].
    cbn [concat] in *. now rewrite IH.
  - destruct (split sep s) as [|seg rest] eqn:E.
    + now elim (split_not_nil sep s).
    + cbn [concat] in *. destruct rest; cbn [append]; now rewrite <- IH.
Qed.

Lemma split_plain (sep : ascii) (p : string) :
  has_char sep p = false -> split sep p = [p].
Proof.
  induction p as [|c p IH]; [reflexivity|]. simpl.
  intros H. apply orb_false_iff in H as [Hc Hp].
  rewrite Hc, (IH Hp). reflexivity.
Qed.

Lemma split_append (sep : ascii) (p rest : string) :
  has_char sep p = false ->
  split sep (p ++ String sep rest) = p :: split sep rest.
Proof.
  induction p as [|c p IH]; simpl.
  - now rewrite Ascii.eqb_refl.
  - intros H. apply orb_false_iff in H as [Hc Hp].
    rewrite Hc, (IH Hp). reflexivity.
Qed.

(** Splitting a join gives the parts back, when there is a part and no
    part holds the separator. *)
Lemma split_of_join (sep : ascii) (parts : list string) :
  parts <> [] ->
  forallb (fun p => negb (has_char sep p)) parts = true ->
  split sep (join (String sep "") parts) = parts.
Proof.
  unfold join. induction parts as [|p parts IH]; [easy|]. intros _ Hparts.
  cbn [forallb] in Hparts. apply andb_true_iff in Hparts as [Hp Hrest].
  apply negb_true_iff in Hp.
  destruct parts as [|q parts]; cbn [concat].
  - now apply split_plain.
  - cbn [append]. rewrite split_append by exact Hp.
    f_equal. now apply IH.
Qed.

(** [s.split(".", 1)[0]] is the first part of [s.split(".")], and holds
    no dot. *)
Lemma first_segment_is_first_part (s : string) :
  first_segment s = hd "" (split "." s)
  /\ has_char "." (first_segment s) = false.
Proof.
  induction s as [|c s [IH1 IH2]]; [now split|]. simpl.
  destruct (Ascii.eqb c ".") eqn:E; [now split|].
  split.
  - rewrite IH1. now destruct (split "." s).
  - simpl. now rewrite E, IH2.
Qed.

(** *** [re.sub(r"\(.*\)", repl, s)] *)

Lemma last_close_none (s : string) :
  has_char ")" s = false -> last_close s = None.
Proof.
  induction s as [|c s IH]; [reflexivity|]. simpl.
  intros H. apply orb_false_iff in H as [Hc Hs].
  rewrite (IH Hs), Hc. now destruct (Ascii.eqb c "010").
Qed.

Lemma last_close_last (mid tail : string) :
  has_char "010" mid = false -> has_char ")" tail = false ->
  last_close (mid ++ String ")" tail) = Some (S (String.length mid)).
Proof.
  intros Hmid Htail. induction mid as [|c mid IH]; simpl.
  - now rewrite (last_close_none tail Htail).
  - simpl in Hmid. apply orb_false_iff in Hmid as [Hc Hmid].
    now rewrite Hc, (IH Hmid).
Qed.

Lemma re_sub_skip (repl : string) (dropped rest : string) :
  re_sub_parens_from repl (String.length dropped) (dropped ++ rest)
  = re_sub_parens_from repl 0 rest.
Proof. induction dropped as [|c d IH]; [reflexivity | exact IH]. Qed.

Lemma re_sub_no_close (repl s : string) :
  has_char ")" s = false -> re_sub_parens_from repl 0 s = s.
Proof.
  induction s as [|c s IH]; [reflexivity|]. simpl.
  intros H. apply orb_false_iff in H as [_ Hs].
  rewrite (last_close_none s Hs), (IH Hs).
  now destruct (Ascii.eqb c "(").
Qed.

Lemma re_sub_no_open (repl before s : string) :
  has_char "(" before = false ->
  re_sub_parens_from repl 0 (before ++ s)
  = before ++ re_sub_parens_from repl 0 s.
Proof.
  induction before as [|c b IH]; [reflexivity|]. simpl.
  intros H. apply orb_false_iff in H as [Hc Hb].
  now rewrite Hc, (IH Hb).
Qed.

(** The match is greedy: on one line, everything from the first opening
    parenthesis to the last closing one is replaced at once, whatever
    parentheses stand in between. *)
Theorem re_sub_parens_greedy (repl before mid tail : string) :
  has_char "(" before = false ->
  has_char "010" mid = false ->
  has_char ")" tail = false ->
  re_sub_parens repl (before ++ String "(" (mid ++ String ")" tail))
  = before ++ repl ++ tail.
Proof.
  intros Hbefore Hmid Htail. unfold re_sub_parens.
  rewrite re_sub_no_open by exact Hbefore. f_equal.
  cbn [re_sub_parens_from]. rewrite Ascii.eqb_refl.
  rewrite (last_close_last mid tail Hmid Htail). f_equal.
  replace (mid ++ String ")" tail) with ((mid ++ ")") ++ tail)
    by (rewrite append_assoc; reflexivity).
  replace (S (String.length mid)) with (String.length (mid ++ ")")).
  - rewrite re_sub_skip. now apply re_sub_no_close.
  - clear. induction mid as [|c mid IH]; [reflexivity|]. simpl. now rewrite IH.
Qed.

Lemma re_sub_parens_greedy_witness :
  re_sub_parens "" "Enum(a).member(b).value" = "Enum.value".
Proof.
  exact (re_sub_parens_greedy "" "Enum" "a).member(b" ".value"
                              eq_refl eq_refl eq_refl).
Defined.

End StringRoundTrips.

(** ** The resolver, binding by binding *)
Module ResolverCases.
Import PyStr Astroid Resolver PyStrFacts ResolverFacts StringRoundTrips.
Import Examples MoreExamples.

(** The name an alias resolves to is the name itself or the original of
    an entry imported under that name, never another import; and an
    entry that imports the name itself shields the aliases after it. *)
Theorem resolve_import_alias_sound :
  forall (name : string) (names : list (string * option string)),
    (resolve_import_alias name names = name
     \/ In (resolve_import_alias name names, Some name) names)
    /\ (forall before alias after,
           names = (before ++ (name, alias) :: after)%list ->
           (forall original, ~ In (original, Some name) before) ->
           resolve_import_alias name names = name).
Proof.
  intros name names. split.
  - induction names as [|[n a] names IH]; simpl; [now left|].
    destruct (String.eqb n name); [now left|].
    destruct a as [alias|].
    + destruct (String.eqb_spec alias name) as [->|_]; [right; now left|].
      destruct IH as [IH|IH]; [now left | right; now right].
    + destruct IH as [IH|IH]; [now left | right; now right].
  - intros before alias after -> Hbefore.
    induction before as [|[n a] before IH]; simpl.
    + now rewrite String.eqb_refl.
    + destruct (String.eqb n name); [reflexivity|].
      assert (Hrest : forall original, ~ In (original, Some name) before)
        by (intros original Hin; apply (Hbefore original); now right).
      destruct a as [alias'|]; [|now apply IH].
      destruct (String.eqb_spec alias' name) as [->|_]; [|now apply IH].
      elim (Hbefore n). now left.
Qed.

Lemma prefix_drop (p s : string) :
  String.prefix p s = true -> p ++ drop (String.length p) s = s.
Proof.
  revert s. induction p as [|c p IH]; intros s; [now destruct s|].
  destruct s as [|d s]; simpl; [discriminate|].
  destruct (ascii_dec c d) as [->|]; [|discriminate].
  intros H. now rewrite (IH s H).
Qed.

(** Replacing a text by itself changes nothing. *)
Lemma replace_first_same (old s : string) : replace_first old old s = s.
Proof.
  induction s as [|c s IH].
  - cbn [replace_first]. destruct (String.prefix old "") eqn:E;
      [now apply prefix_drop | reflexivity].
  - cbn [replace_first]. destruct (String.prefix old (String c s)) eqn:E;
      [now apply prefix_drop | now rewrite IH].
Qed.

Section WithAstroid.
Variable relative_to_absolute_name : string -> string -> nat -> string.

#[local] Abbreviation resolve_loop :=
  (Resolver.resolve_loop relative_to_absolute_name).
#[local] Abbreviation resolve_qualname :=
  (Resolver.resolve_qualname relative_to_absolute_name).
#[local] Abbreviation _resolve_annotation :=
  (Resolver._resolve_annotation relative_to_absolute_name).

(** What [resolve_qualname] returns when the first binding with a
    [break] is [b]. *)
Lemma resolve_qualname_at_break (node : NodeNG) (basename : string)
    (pre post : list Binding) (b : Binding) :
  lookup node (top_level_name_of basename) = (pre ++ b :: post)%list ->
  forallb (fun b' => negb (breaks b')) pre = true ->
  breaks b = true ->
  resolve_qualname node basename
  = finish node
      (resolve_loop basename (top_level_name_of basename) [b] basename).
Proof.
  intros Hlook Hpre Hb. unfold Resolver.resolve_qualname. rewrite Hlook.
  rewrite (resolve_loop_app _ basename _ pre) by exact Hpre.
  now rewrite (resolve_loop_break _ _ _ b post _ Hb).
Qed.

(** A name with no binding the loop recognises is passed through: the
    candidate goes to the closing steps as it is, and comes back
    unchanged when the node is no call and the candidate has no
    [builtins.] prefix. *)
Theorem unbound_name_passes_through :
  forall (node : NodeNG) (basename : string),
    forallb unrecognised (lookup node (top_level_name_of basename)) = true ->
    resolve_qualname node basename = finish node basename
    /\ (is_Call node = false ->
        startswith basename "builtins." = false ->
        startswith basename "__builtin__." = false ->
        resolve_qualname node basename = basename).
Proof.
  intros node basename Hnone.
  assert (Hres : resolve_qualname node basename = finish node basename).
  { unfold Resolver.resolve_qualname.
    now rewrite resolve_loop_unrecognised. }
  split; [exact Hres|]. intros Hcall Hb1 Hb2. rewrite Hres.
  now apply finish_plain.
Qed.

(** When the first binding with a [break] is an [import] statement, the
    symbol of the candidate is replaced by the module the statement
    imports under that name: for a candidate without parentheses, the
    module followed by the rest of the candidate. An [import] without
    alias leaves the candidate as it is. *)
Theorem import_resolution :
  forall (node : NodeNG) (basename : string) (pre post : list Binding)
         (names : list (string * option string)),
    lookup node (top_level_name_of basename)
    = (pre ++ Import_ names :: post)%list ->
    forallb (fun b' => negb (breaks b')) pre = true ->
    let top := top_level_name_of basename in
    let original := resolve_import_alias top names in
    resolve_qualname node basename
    = finish node (replace_first top original basename)
    /\ (has_char "(" basename = false ->
        resolve_qualname node basename
        = finish node (original ++ after_first_segment basename))
    /\ (original = top ->
        resolve_qualname node basename = finish node basename).
Proof.
  intros node basename pre post names Hlook Hpre top original.
  assert (Hres : resolve_qualname node basename
                 = finish node (replace_first top original basename)).
  { now rewrite (resolve_qualname_at_break node basename pre post
                   (Import_ names) Hlook Hpre eq_refl). }
  split; [exact Hres|]. split.
  - intros Hplain. rewrite Hres. f_equal.
    rewrite <- (first_segment_split basename) at 1.
    replace (first_segment basename) with top
      by (subst top; now apply top_level_name_plain).
    apply replace_first_prefix.
  - intros Hsame. rewrite Hres, Hsame. now rewrite replace_first_same.
Qed.

(** When the first binding with a [break] is a class statement, the
    result is the qualified name of the class, whatever the candidate
    was: what follows the symbol in the candidate is dropped. The
    [builtins.] prefix of a class of the builtins is removed. *)
Theorem class_resolution :
  forall (node : NodeNG) (basename : string) (pre post : list Binding)
         (qname : string),
    lookup node (top_level_name_of basename)
    = (pre ++ ClassDef_site qname :: post)%list ->
    forallb (fun b' => negb (breaks b')) pre = true ->
    resolve_qualname node basename = finish node qname
    /\ (forall name,
           is_Call node = false -> qname = "builtins." ++ name ->
           resolve_qualname node basename = name).
Proof.
  intros node basename pre post qname Hlook Hpre.
  assert (Hres : resolve_qualname node basename = finish node qname).
  { now rewrite (resolve_qualname_at_break node basename pre post
                   (ClassDef_site qname) Hlook Hpre eq_refl). }
  split; [exact Hres|]. intros name Hcall ->. rewrite Hres.
  unfold finish, startswith. rewrite Hcall.
  now rewrite prefix_append, drop_length_append.
Qed.

End WithAstroid.

(** A name that is an argument of a function. *)
Lemma unbound_name_witness :
  resolve_qualname absolute_only (mkNode false argument_only) "args.count"
  = "args.count".
Proof.
  destruct (unbound_name_passes_through absolute_only
              (mkNode false argument_only) "args.count" eq_refl)
    as [_ Hsame].
  exact (Hsame eq_refl eq_refl eq_refl).
Defined.

(** [en.IntEnum] under [import enum as en]. *)
Lemma import_resolution_witness :
  resolve_qualname absolute_only (mkNode false with_aliased_imports)
                   "en.IntEnum"
  = "enum.IntEnum".
Proof.
  destruct (import_resolution absolute_only
              (mkNode false with_aliased_imports) "en.IntEnum" [] []
              [("enum", Some "en")] eq_refl eq_refl) as (_ & Hplain & _).
  exact (Hplain eq_refl).
Defined.

(** [QObject.Signal] in the module that defines [QObject]. *)
Lemma class_resolution_witness :
  resolve_qualname absolute_only (mkNode false QtCore_scope) "QObject.Signal"
  = "PySide6.QtCore.QObject".
Proof.
  destruct (class_resolution absolute_only (mkNode false QtCore_scope)
              "QObject.Signal" [] [] "PySide6.QtCore.QObject"
              eq_refl eq_refl) as [Hres _].
  exact Hres.
Defined.

End ResolverCases.

(** ** Annotations and bases *)
Module AnnotationCases.
Import PyStr Astroid Resolver Extractor PyStrFacts ResolverFacts.
Import StringRoundTrips ResolverCases Examples MoreExamples.

Lemma first_segment_plain (s : string) :
  has_char "." s = false -> first_segment s = s.
Proof.
  induction s as [|c s IH]; [reflexivity|]. simpl.
  intros H. apply orb_false_iff in H as [Hc Hs]. now rewrite Hc, (IH Hs).
Qed.

Lemma after_first_segment_shape (s : string) :
  after_first_segment s = ""
  \/ exists rest, after_first_segment s = String "." rest.
Proof.
  induction s as [|c s IH]; [now left|]. simpl.
  destruct (Ascii.eqb_spec c ".") as [->|_]; [right; now exists s | exact IH].
Qed.

Lemma first_segment_before_dot (a b : string) :
  first_segment (a ++ String "." b) = first_segment a.
Proof.
  induction a as [|c a IH]; [reflexivity|]. simpl.
  destruct (Ascii.eqb c "."); [reflexivity | now rewrite IH].
Qed.

Lemma replace_first_whole (s new : string) : replace_first s new s = new.
Proof.
  rewrite <- (append_nil_r s) at 2. rewrite replace_first_prefix.
  apply append_nil_r.
Qed.

(** In a candidate without parentheses the symbol is the first dotted
    segment, and it is the part replaced. *)
Lemma replace_symbol (text new : string) :
  has_char "(" text = false ->
  replace_first (top_level_name_of text) new text
  = new ++ after_first_segment text.
Proof.
  intros Hparen. rewrite top_level_name_plain by exact Hparen.
  rewrite <- (first_segment_split text) at 2.
  apply replace_first_prefix.
Qed.

Section WithAstroid.
Variable relative_to_absolute_name : string -> string -> nat -> string.

#[local] Abbreviation resolve_qualname :=
  (Resolver.resolve_qualname relative_to_absolute_name).
#[local] Abbreviation _resolve_annotation :=
  (Resolver._resolve_annotation relative_to_absolute_name).

(** A name imported from [typing] by an absolute [from typing import]
    is rendered bare: the imported name, without the module. *)
Theorem typing_import_is_bare :
  forall (root_name name : string) (sc : Scope) (pre post : list Binding)
         (importing : string) (names : list (string * option string))
         (level : option nat),
    has_char "(" name = false -> has_char "." name = false ->
    sc name = (pre ++ ImportFrom importing "typing" names level :: post)%list ->
    forallb (fun b' => negb (breaks b')) pre = true ->
    truthy_level level = None ->
    _resolve_annotation root_name (Name name sc)
    = resolve_import_alias name names.
Proof.
  intros root_name name sc pre post importing names level Hparen Hdot Hsc
         Hpre Hlevel.
  assert (Htop : top_level_name_of name = name).
  { rewrite top_level_name_plain by exact Hparen.
    now apply first_segment_plain. }
  cbn [Resolver._resolve_annotation].
  rewrite (resolve_qualname_at_break relative_to_absolute_name
             (mkNode false sc) name pre post
             (ImportFrom importing "typing" names level));
    [|cbn [lookup]; now rewrite Htop|exact Hpre|reflexivity].
  rewrite Htop. cbn [Resolver.resolve_loop].
  rewrite replace_first_whole.
  unfold get_full_import_name, import_module_name. rewrite Hlevel.
  change ("typing" ++ "." ++ resolve_import_alias name names)
    with ("typing." ++ resolve_import_alias name names).
  rewrite finish_plain by reflexivity.
  unfold startswith. now rewrite prefix_append, drop_length_append.
Qed.

(** A class of the module being parsed is rendered without the module:
    the part of its qualified name after the module name. *)
Theorem same_module_class_is_local :
  forall (root_name text local : string) (sc : Scope)
         (pre post : list Binding),
    sc (top_level_name_of text)
    = (pre ++ ClassDef_site (root_name ++ "." ++ local) :: post)%list ->
    forallb (fun b' => negb (breaks b')) pre = true ->
    startswith (root_name ++ "." ++ local) "builtins." = false ->
    startswith (root_name ++ "." ++ local) "__builtin__." = false ->
    startswith (root_name ++ "." ++ local) "typing." = false ->
    _resolve_annotation root_name (Name text sc) = local
    /\ _resolve_annotation root_name (Attribute text sc) = local.
Proof.
  intros root_name text local sc pre post Hsc Hpre Hb1 Hb2 Htyping.
  assert (Hres : resolve_qualname (mkNode false sc) text
                 = root_name ++ "." ++ local).
  { rewrite (resolve_qualname_at_break relative_to_absolute_name
               (mkNode false sc) text pre post
               (ClassDef_site (root_name ++ "." ++ local)) Hsc Hpre eq_refl).
    cbn [Resolver.resolve_loop]. now apply finish_plain. }
  assert (Hstrip : forall resolved,
             resolved = root_name ++ "." ++ local ->
             (if startswith resolved "typing."
              then drop (String.length "typing.") resolved
              else if startswith resolved (root_name ++ ".")
                   then drop (String.length (root_name ++ ".")) resolved
                   else resolved) = local).
  { intros resolved ->. rewrite Htyping. unfold startswith.
    replace (root_name ++ "." ++ local) with ((root_name ++ ".") ++ local)
      by apply append_assoc.
    now rewrite prefix_append, drop_length_append. }
  split; cbn [Resolver._resolve_annotation]; now apply Hstrip.
Qed.

(** A base that reaches the [enum] module through an import, by any
    alias, is taken for an enum base, in every module whose own name does
    not start with the segment [enum]. *)
Theorem enum_base_seen_through_alias :
  forall (root_name text : string) (sc : Scope) (pre post : list Binding)
         (b : Binding),
    has_char "(" text = false ->
    sc (top_level_name_of text) = (pre ++ b :: post)%list ->
    forallb (fun b' => negb (breaks b')) pre = true ->
    (exists importing names level,
        b = ImportFrom importing "enum" names level
        /\ truthy_level level = None)
    \/ (exists names,
           b = Import_ names
           /\ resolve_import_alias (top_level_name_of text) names = "enum") ->
    String.eqb (first_segment root_name) "enum" = false ->
    enum_rooted (_resolve_annotation root_name (Name text sc)) = true
    /\ enum_rooted (_resolve_annotation root_name (Attribute text sc)) = true.
Proof.
  intros root_name text sc pre post b Hparen Hsc Hpre Hb Hroot.
  assert (Hres : exists resolved,
             resolve_qualname (mkNode false sc) text = resolved
             /\ first_segment resolved = "enum"
             /\ startswith resolved "typing." = false).
  { destruct Hb as [(importing & names & level & -> & Hlevel)
                   |(names & -> & Horiginal)].
    - rewrite (resolve_qualname_at_break relative_to_absolute_name
                 (mkNode false sc) text pre post _ Hsc Hpre eq_refl).
      cbn [Resolver.resolve_loop].
      unfold get_full_import_name, import_module_name. rewrite Hlevel.
      rewrite replace_symbol by exact Hparen.
      eexists. split; [reflexivity|]. now split.
    - rewrite (resolve_qualname_at_break relative_to_absolute_name
                 (mkNode false sc) text pre post _ Hsc Hpre eq_refl).
      cbn [Resolver.resolve_loop]. rewrite Horiginal.
      rewrite replace_symbol by exact Hparen.
      eexists. split; [reflexivity|].
      destruct (after_first_segment_shape text) as [->|[rest ->]];
        now split. }
  destruct Hres as (resolved & Hres & Hseg & Htyping).
  assert (Hstrip : enum_rooted
                     (if startswith resolved "typing."
                      then drop (String.length "typing.") resolved
                      else if startswith resolved (root_name ++ ".")
                           then drop (String.length (root_name ++ "."))
                                     resolved
                           else resolved) = true).
  { rewrite Htyping.
    destruct (startswith resolved (root_name ++ ".")) eqn:Eprefix.
    - exfalso. unfold startswith in Eprefix.
      apply prefix_drop in Eprefix. rewrite <- Eprefix in Hseg.
      rewrite append_assoc in Hseg. cbn [append] in Hseg.
      rewrite first_segment_before_dot in Hseg.
      rewrite Hseg in Hroot. discriminate.
    - unfold enum_rooted. now rewrite Hseg. }
  split; cbn [Resolver._resolve_annotation]; now rewrite Hres.
Qed.

(** No module prefix ends inside a name that an opening bracket
    follows. *)
Lemma prefix_stops_at_bracket (a word rest : string) :
  has_char "[" a = false -> has_char "." word = false ->
  String.prefix (a ++ ".") (word ++ String "[" rest) = false.
Proof.
  revert a. induction word as [|l word IH]; intros a Ha Hword.
  - destruct a as [|c a]; [reflexivity|]. cbn [String.prefix String.append].
    destruct (ascii_dec c "[") as [->|_]; [discriminate Ha | reflexivity].
  - cbn [has_char] in Hword. apply orb_false_iff in Hword as [Hl Hword].
    destruct a as [|c a]; cbn [String.prefix String.append].
    + destruct (ascii_dec "." l) as [<-|_]; [discriminate Hl | reflexivity].
    + cbn [has_char] in Ha. apply orb_false_iff in Ha as [_ Ha].
      destruct (ascii_dec c l); [now apply IH | reflexivity].
Qed.

(** The arguments of a [Literal[...]] that are constants are rendered as
    they are written in the stub, not resolved as names. *)
Theorem literal_arguments_as_written :
  forall (root_name : string) (container : expr)
         (constants : list (string * string * Scope)),
    _resolve_annotation root_name container = "Literal" ->
    has_char "[" root_name = false ->
    _resolve_annotation root_name
      (Subscript container
         (Tuple (map (fun c => Const (fst (fst c)) (snd (fst c)) (snd c))
                     constants)))
    = "Literal[" ++ join ", " (map (fun c => snd (fst c)) constants) ++ "]"
    /\ forall value text sc,
         _resolve_annotation root_name
           (Subscript container (Const value text sc))
         = "Literal[" ++ text ++ "]".
Proof.
  intros root_name container constants Hcontainer Hroot.
  assert (Hstrip : forall args,
             (if startswith ("Literal[" ++ args ++ "]") "typing."
              then drop (String.length "typing.") ("Literal[" ++ args ++ "]")
              else if startswith ("Literal[" ++ args ++ "]")
                                 (root_name ++ ".")
                   then drop (String.length (root_name ++ "."))
                             ("Literal[" ++ args ++ "]")
                   else "Literal[" ++ args ++ "]")
             = "Literal[" ++ args ++ "]").
  { intros args. unfold startswith.
    change ("Literal[" ++ args ++ "]")
      with ("Literal" ++ String "[" (args ++ "]")).
    rewrite (prefix_stops_at_bracket root_name "Literal" _ Hroot eq_refl).
    reflexivity. }
  split.
  - cbn [Resolver._resolve_annotation]. rewrite Hcontainer.
    cbn [String.eqb Ascii.eqb Bool.eqb]. rewrite map_map. cbn [fst snd].
    apply Hstrip.
  - intros value text sc.
    cbn [Resolver._resolve_annotation]. rewrite Hcontainer.
    cbn [String.eqb Ascii.eqb Bool.eqb]. apply Hstrip.
Qed.

End WithAstroid.

(** [Literal["r", "w"]] under [from typing import Literal]. *)
Lemma literal_arguments_witness :
  _resolve_annotation absolute_only "PySide6.QtCore"
    (Subscript (Name "Literal" with_Literal)
       (Tuple [Const "r" "'r'" no_bindings; Const "w" "'w'" no_bindings]))
  = "Literal['r', 'w']".
Proof.
  destruct (literal_arguments_as_written absolute_only "PySide6.QtCore"
              (Name "Literal" with_Literal)
              [("r", "'r'", no_bindings); ("w", "'w'", no_bindings)]
              eq_refl eq_refl) as [Htuple _].
  exact Htuple.
Defined.

(** [L], imported by [from typing import Optional, List as L]. *)
Lemma typing_import_witness :
  _resolve_annotation absolute_only "PySide6.QtCore" (Name "L" with_typing)
  = "List".
Proof.
  exact (typing_import_is_bare absolute_only "PySide6.QtCore" "L" with_typing
           [] [] "PySide6.QtCore" [("Optional", None); ("List", Some "L")]
           None eq_refl eq_refl eq_refl eq_refl eq_refl).
Defined.

(** [QObject] in the module that defines it. *)
Lemma same_module_class_witness :
  _resolve_annotation absolute_only "PySide6.QtCore"
                      (Name "QObject" QtCore_scope)
  = "QObject".
Proof.
  destruct (same_module_class_is_local absolute_only "PySide6.QtCore"
              "QObject" "QObject" QtCore_scope [] [] eq_refl eq_refl
              eq_refl eq_refl eq_refl) as [Hname _].
  exact Hname.
Defined.

(** [Flags], imported by [from enum import IntFlag as Flags]. *)
Lemma enum_base_witness :
  enum_rooted (_resolve_annotation absolute_only "PySide6.QtCore"
                                   (Name "Flags" with_enum_alias))
  = true.
Proof.
  destruct (enum_base_seen_through_alias absolute_only "PySide6.QtCore"
              "Flags" with_enum_alias [] []
              (ImportFrom "PySide6.QtCore" "enum" [("IntFlag", Some "Flags")]
                          None)
              eq_refl eq_refl eq_refl
              (or_introl (ex_intro _ "PySide6.QtCore"
                 (ex_intro _ [("IntFlag", Some "Flags")]
                    (ex_intro _ None (conj eq_refl eq_refl)))))
              eq_refl) as [Hname _].
  exact Hname.
Defined.

End AnnotationCases.

(** ** What the extractor returns *)
Module ExtractorCases.
Import PyStr Astroid Resolver Extractor PyStrFacts ListFacts ExtractorFacts.
Import Examples MoreExamples Shapes.

Section WithAstroid.
Variable relative_to_absolute_name : string -> string -> nat -> string.

#[local] Abbreviation parse_classdef :=
  (Extractor.parse_classdef relative_to_absolute_name).
#[local] Abbreviation parse_module :=
  (Extractor.parse_module relative_to_absolute_name).
#[local] Abbreviation get_full_basenames :=
  (Resolver.get_full_basenames relative_to_absolute_name).

(** An enum class gives one pair for each annotated assignment of its
    body to a plain, non-empty name, in the order of the body, qualified
    by the stack, the class name and the member name; assignments to
    attributes or other targets, other statements and nested classes,
    enums or not, give nothing. *)
Theorem enum_class_members :
  forall (root_name name : string) (bases : list expr) (body : list stmt)
         (self : Parser),
    existsb enum_rooted (get_full_basenames root_name bases) = true ->
    parse_classdef root_name (ClassDef name bases body) self
    = (map (fun member =>
              (member,
               join "." (_qual_name_stack self ++ [name; member])%list))
           (declared_members body),
       self).
Proof.
  intros root_name name bases body self Henum.
  rewrite parse_classdef_eq, Henum. f_equal.
  unfold enum_members, declared_members.
  induction body as [|child body IH]; [reflexivity|].
  cbn [flat_map]. rewrite map_app, <- IH. f_equal.
  destruct child as [| [member| |] |]; try reflexivity.
  unfold _parse_enum_member, get_assign_target_name, _get_assign_target_node.
  destruct (String.eqb member ""); [reflexivity|].
  cbn [map]. unfold _get_qual_name, push. cbn [_qual_name_stack].
  now rewrite <- app_assoc.
Qed.

(** Every pair of a class statement has a non-empty member name, and a
    qualified name made of the stack, the names of the classes down to
    the enum, and the member name. *)
Lemma parse_classdef_pairs (root_name : string) (node : stmt) :
  forall (self : Parser) (member qual_name : string),
    In (member, qual_name) (fst (parse_classdef root_name node self)) ->
    member <> ""
    /\ exists classes,
         classes <> []
         /\ qual_name
            = join "." (_qual_name_stack self ++ classes ++ [member])%list.
Proof.
  induction node as [name bases body IH|tgt|children _] using stmt_nested_ind;
    intros self member qual_name Hin; [|easy|easy].
  rewrite parse_classdef_eq in Hin. cbn [fst] in Hin.
  destruct (existsb enum_rooted (get_full_basenames root_name bases)).
  - unfold enum_members in Hin.
    apply in_flat_map in Hin as (child & _ & Hin).
    destruct child as [| [target| |] |]; try easy.
    unfold _parse_enum_member, get_assign_target_name,
      _get_assign_target_node in Hin.
    destruct (String.eqb_spec target "") as [|Hne]; [easy|].
    destruct Hin as [E|[]]. injection E as <- <-. split; [exact Hne|].
    exists [name]. split; [easy|].
    unfold _get_qual_name, push. cbn [_qual_name_stack].
    now rewrite <- app_assoc.
  - unfold nested_members in Hin.
    apply in_flat_map in Hin as (child & Hchild & Hin).
    rewrite Forall_forall in IH.
    destruct child as [cname cbases cbody| |]; try easy.
    apply (IH _ Hchild) in Hin as (Hne & classes & Hclasses & ->).
    split; [exact Hne|]. exists (name :: classes). split; [easy|].
    unfold push. cbn [_qual_name_stack]. now rewrite <- app_assoc.
Qed.

(** Every pair found in a module has a non-empty member name, and its
    qualified name is the last segment of the module name, one class
    name at least, and the member name, joined by dots. *)
Theorem module_pairs_are_qualified :
  forall (module : Module_) (self : Parser) (member qual_name : string),
    In (member, qual_name) (fst (parse_module module self)) ->
    member <> ""
    /\ exists classes,
         classes <> []
         /\ qual_name
            = join "." (last (split "." (mod_name module)) ""
                        :: classes ++ [member])%list.
Proof.
  intros module self member qual_name Hin.
  unfold Extractor.parse_module in Hin.
  rewrite module_loop_parsed in Hin. cbn [fst] in Hin.
  apply in_flat_map in Hin as (child & _ & Hin).
  destruct child as [cname cbases cbody| |]; try easy.
  now apply parse_classdef_pairs in Hin.
Qed.

(** Only the class statements directly in the module are parsed, and
    what the parser held before plays no part: the stack starts from the
    module's short name and ends there. *)
Theorem module_top_level_classes_only :
  forall (module : Module_) (self : Parser),
    parse_module module self
    = (flat_map (fun child =>
                   fst (parse_classdef (mod_name module) child
                          (mkParser [last (split "." (mod_name module)) ""])))
                (filter is_classdef (mod_children module)),
       mkParser [last (split "." (mod_name module)) ""]).
Proof.
  intros module self. unfold Extractor.parse_module.
  rewrite module_loop_parsed. f_equal.
  rewrite (flat_map_filter is_classdef)
    by (intros child Hc; now destruct child).
  apply flat_map_ext. intros child. now destruct child.
Qed.

End WithAstroid.

(** The enum [AlignmentFlag] of class [Qt]. *)
Lemma enum_class_members_witness :
  fst (parse_classdef absolute_only "PySide6.QtCore"
         (ClassDef "AlignmentFlag" [Attribute "enum.Flag" no_bindings]
            [AnnAssign (AssignName "AlignLeft");
             AnnAssign (AssignAttr "value");
             ClassDef "Inner" [Attribute "enum.Enum" no_bindings]
               [AnnAssign (AssignName "Hidden")];
             AnnAssign (AssignName "AlignRight")])
         (mkParser ["QtCore"; "Qt"]))
  = [("AlignLeft", "QtCore.Qt.AlignmentFlag.AlignLeft");
     ("AlignRight", "QtCore.Qt.AlignmentFlag.AlignRight")].
Proof.
  exact (f_equal fst
           (enum_class_members absolute_only "PySide6.QtCore" "AlignmentFlag"
              [Attribute "enum.Flag" no_bindings]
              [AnnAssign (AssignName "AlignLeft");
               AnnAssign (AssignAttr "value");
               ClassDef "Inner" [Attribute "enum.Enum" no_bindings]
                 [AnnAssign (AssignName "Hidden")];
               AnnAssign (AssignName "AlignRight")]
              (mkParser ["QtCore"; "Qt"]) eq_refl)).
Defined.

(** A pair of [QtCore_module]. *)
Lemma module_pairs_witness :
  "AlignLeft" <> ""
  /\ exists classes,
       classes <> []
       /\ "QtCore.Qt.AlignmentFlag.AlignLeft"
          = join "." ("QtCore" :: classes ++ ["AlignLeft"])%list.
Proof.
  apply (module_pairs_are_qualified absolute_only QtCore_module (mkParser [])
           "AlignLeft" "QtCore.Qt.AlignmentFlag.AlignLeft").
  now left.
Defined.

End ExtractorCases.

(** ** What the compiler returns *)
Module CompilerCases.
Import PyStr Compiler PyStrFacts ListFacts CompilerFacts StringRoundTrips.
Import Shapes.

(** The script depends on the pairs, not on the order in which the files
    gave them: two lists with the same pairs compile to the same rules
    and the same warnings. *)
Theorem script_ignores_input_order :
  forall substitutions substitutions' : Pairs,
    Permutation substitutions substitutions' ->
    _to_sed_script substitutions = _to_sed_script substitutions'.
Proof.
  intros substitutions substitutions' Hperm.
  assert (Hsame : sorted _sort_key substitutions
                  = sorted _sort_key substitutions').
  { apply (ordered_unique _sort_key).
    - apply _sort_key_injective.
    - rewrite <- (sorted_perm _sort_key substitutions).
      rewrite <- (sorted_perm _sort_key substitutions'). exact Hperm.
    - apply sorted_ordered.
    - apply sorted_ordered. }
  unfold _to_sed_script. now rewrite Hsame.
Qed.

Lemma script_ignores_input_order_witness :
  _to_sed_script [("Read", "QtCore.QIODevice.OpenModeFlag.Read");
                  ("ReadWrite", "QtCore.QIODevice.OpenModeFlag.ReadWrite")]
  = _to_sed_script [("ReadWrite", "QtCore.QIODevice.OpenModeFlag.ReadWrite");
                    ("Read", "QtCore.QIODevice.OpenModeFlag.Read")].
Proof.
  apply script_ignores_input_order. apply perm_swap.
Defined.

(** Two rules for every pair: nothing is dropped, and a pair given twice
    is compiled twice. *)
Theorem two_rules_per_pair :
  forall substitutions : Pairs,
    List.length (fst (_to_sed_script substitutions))
    = 2 * List.length substitutions.
Proof.
  intros substitutions. rewrite to_sed_script_rules.
  rewrite (Permutation_length (sorted_perm _sort_key substitutions)).
  induction (sorted _sort_key substitutions) as [|p l IH]; [reflexivity|].
  cbn [flat_map rules_of List.length app]. rewrite IH. lia.
Qed.

(** *** Warnings *)

Lemma quals_count (member : string) (pairs : Pairs) :
  List.length (quals_of member pairs)
  = count_occ string_dec (map fst pairs) member.
Proof.
  unfold quals_of. induction pairs as [|[k q] pairs IH]; [reflexivity|].
  cbn [filter map fst count_occ].
  destruct (String.eqb_spec k member) as [->|Hne].
  - destruct (string_dec member member) as [_|Hne]; [|now elim Hne].
    cbn [map List.length]. now rewrite IH.
  - destruct (string_dec k member) as [E|_]; [now elim Hne | exact IH].
Qed.

Lemma dict_get_entry (d : list (string * list string)) (member : string)
    (qual_names : list string) :
  NoDup (map fst d) -> In (member, qual_names) d ->
  dict_get d member = qual_names.
Proof.
  unfold dict_get. induction d as [|[k v] d IH]; [easy|].
  cbn [map fst]. intros Hd Hin. inversion Hd as [|? ? Hk Hrest]; subst.
  cbn [find fst]. destruct Hin as [E|Hin].
  - injection E as -> ->. now rewrite String.eqb_refl.
  - destruct (String.eqb_spec k member) as [->|_]; [|now apply IH].
    elim Hk. apply in_map_iff. now exists (member, qual_names).
Qed.

Lemma warnings_nil (d : list (string * list string)) :
  warnings d = []
  <-> forall member qual_names,
        In (member, qual_names) d -> List.length qual_names <= 1.
Proof.
  unfold warnings. induction d as [|[k v] d IH]; cbn [flat_map].
  - split; [intros _ ? ? [] | intros _; reflexivity].
  - destruct (Nat.ltb_spec 1 (List.length v)) as [Hlong|Hshort].
    + split; [discriminate|]. intros H.
      specialize (H k v (or_introl eq_refl)). lia.
    + cbn [app]. rewrite IH. split.
      * intros H member qual_names [E|Hin]; [|now apply (H member)].
        injection E as <- <-. exact Hshort.
      * intros H member qual_names Hin. apply (H member). now right.
Qed.

(** The diagnostic stream stays empty exactly when no member name comes
    twice among the pairs, be it with the same qualified name. *)
Theorem no_warning_iff_members_distinct :
  forall substitutions : Pairs,
    snd (_to_sed_script substitutions) = []
    <-> NoDup (map fst substitutions).
Proof.
  intros substitutions.
  set (pairs := sorted _sort_key substitutions).
  assert (Hcount : forall member,
             List.length (quals_of member pairs)
             = count_occ string_dec (map fst substitutions) member).
  { intros member. rewrite quals_count.
    apply (Permutation_count_occ string_dec). apply Permutation_map.
    apply Permutation_sym, sorted_perm. }
  assert (Hget : forall member,
             dict_get (member_qual_names_of substitutions) member
             = quals_of member pairs).
  { intros member. rewrite member_qual_names_grouped. fold pairs.
    now rewrite grouped_get. }
  assert (Hkeys : NoDup (map fst (member_qual_names_of substitutions))).
  { rewrite member_qual_names_grouped. apply grouped_NoDup. constructor. }
  rewrite to_sed_script_warnings, warnings_nil, (NoDup_count_occ string_dec).
  split.
  - intros Hshort member. rewrite <- Hcount, <- Hget.
    destruct (in_dec string_dec member
                     (map fst (member_qual_names_of substitutions)))
      as [Hin|Hout].
    + destruct (dict_split _ member Hkeys Hin) as (before & after & Hd & _).
      apply (Hshort member). rewrite Hd at 2. apply in_or_app. right. now left.
    + rewrite Hget, Hcount.
      assert (E : count_occ string_dec (map fst substitutions) member = 0).
      { apply count_occ_not_In. intros Hmember. apply Hout.
        rewrite member_qual_names_grouped. apply grouped_keys. right.
        fold pairs.
        apply (Permutation_in member
                 (Permutation_map fst (sorted_perm _sort_key substitutions))).
        exact Hmember. }
      lia.
  - intros Honce member qual_names Hin.
    rewrite <- (dict_get_entry _ member qual_names Hkeys Hin).
    rewrite Hget, Hcount. apply Honce.
Qed.

(** *** The preferred modules *)

Lemma ordered_filter {A : Type} (key : A -> Key) (keep : A -> bool)
    (l : list A) :
  ordered_by key l -> ordered_by key (filter keep l).
Proof.
  unfold ordered_by. induction 1 as [|x l Hl IH Hx]; cbn [filter];
    [constructor|].
  destruct (keep x); [|exact IH]. constructor; [exact IH|].
  rewrite Forall_forall in Hx |- *. intros y Hy. apply Hx.
  now apply filter_In in Hy.
Qed.

Lemma last_in {A : Type} (l : list A) (default : A) :
  l <> [] -> In (last l default) l.
Proof.
  induction l as [|x l IH]; [easy|]. intros _.
  destruct l as [|y l]; [now left|]. right. now apply IH.
Qed.

Lemma last_mapped {A B : Type} (f : A -> B) (l : list A) (default : A) :
  last (map f l) (f default) = f (last l default).
Proof.
  induction l as [|x l IH]; [reflexivity|].
  destruct l as [|y l]; [reflexivity | exact IH].
Qed.

Lemma ordered_last {A : Type} (key : A -> Key) (l : list A) (default x : A) :
  ordered_by key l -> In x l -> key_le (key x) (key (last l default)).
Proof.
  unfold ordered_by. induction 1 as [|a l Hl IH Ha]; [easy|].
  intros Hin. destruct l as [|b l].
  - destruct Hin as [->|[]]. apply key_le_refl.
  - change (last (a :: b :: l) default) with (last (b :: l) default).
    destruct Hin as [->|Hin]; [|now apply IH].
    rewrite Forall_forall in Ha. apply Ha. now apply last_in.
Qed.

(** When a member is paired with a qualified name of one of the
    preferred modules, the qualified name that comes last for it in
    sorted order, the one its warning announces, is of a preferred
    module too. *)
Theorem preferred_module_comes_last :
  forall (substitutions : Pairs) (member qual_name : string),
    In (member, qual_name) substitutions ->
    preferred qual_name = true ->
    preferred
      (last (quals_of member (sorted _sort_key substitutions)) "")
    = true.
Proof.
  intros substitutions member qual_name Hin Hpreferred.
  set (same := filter (fun p : string * string => String.eqb (fst p) member)
                      (sorted _sort_key substitutions)).
  assert (Hmine : In (member, qual_name) same).
  { apply filter_In. split; [|apply String.eqb_refl].
    now apply (Permutation_in _ (sorted_perm _sort_key substitutions)). }
  assert (Hord : ordered_by _sort_key same)
    by apply ordered_filter, sorted_ordered.
  pose proof (ordered_last _sort_key same ("", "") _ Hord Hmine) as Hle.
  assert (Hlast : In (last same ("", "")) same).
  { apply last_in. intros E. now rewrite E in Hmine. }
  apply filter_In in Hlast as [_ Hmember]. apply String.eqb_eq in Hmember.
  unfold quals_of. fold same.
  change "" with (snd (("", "") : string * string)) at 1.
  rewrite last_mapped.
  destruct (last same ("", "")) as [member' chosen]. cbn [fst snd] in *.
  subst member'. unfold key_le, _sort_key, key_compare in Hle.
  rewrite Z.compare_refl in Hle.
  rewrite (proj2 (@cmp_eq _ _ string_order member member) eq_refl) in Hle.
  fold (preferred qual_name) in Hle. fold (preferred chosen) in Hle.
  rewrite Hpreferred in Hle.
  destruct (preferred chosen); [reflexivity|]. now elim Hle.
Qed.

Lemma preferred_module_witness :
  preferred
    (last (quals_of "Flag"
             (sorted _sort_key [("Flag", "QtGui.A.E.Flag");
                                ("Flag", "Qt3DCore.B.F.Flag")])) "")
  = true.
Proof.
  apply (preferred_module_comes_last
           [("Flag", "QtGui.A.E.Flag"); ("Flag", "Qt3DCore.B.F.Flag")]
           "Flag" "QtGui.A.E.Flag").
  - now left.
  - reflexivity.
Defined.

(** *** The old location *)

(** The old location of the second rule is the qualified name without
    its last segment but one, the enum class, when no segment holds a
    dot. *)
Theorem old_location_drops_enum_class :
  forall (scope : list string) (enum_class member : string),
    forallb (fun part => negb (has_char "." part))
            (scope ++ [enum_class; member])%list = true ->
    old_location (join "." (scope ++ [enum_class; member])%list)
    = join "." scope ++ "." ++ member.
Proof.
  intros scope enum_class member Hparts. unfold old_location.
  rewrite split_of_join; [|now destruct scope|exact Hparts].
  rewrite length_app. cbn [List.length].
  replace (List.length scope + 2 - 2) with (List.length scope) by lia.
  rewrite firstn_app, firstn_all, Nat.sub_diag. cbn [firstn].
  rewrite app_nil_r.
  replace (scope ++ [enum_class; member])%list
    with ((scope ++ [enum_class]) ++ [member])%list
    by now rewrite <- app_assoc.
  now rewrite last_last.
Qed.

Lemma old_location_witness :
  old_location "QtWidgets.QAbstractItemView.SelectionMode.MultiSelection"
  = "QtWidgets.QAbstractItemView.MultiSelection".
Proof.
  exact (old_location_drops_enum_class ["QtWidgets"; "QAbstractItemView"]
           "SelectionMode" "MultiSelection" eq_refl).
Defined.

End CompilerCases.

(** ** Runs of [main] *)
Module CliCases.
Import PyStr Astroid Extractor Compiler Cli PyStrFacts ListFacts.
Import ExtractorFacts CompilerFacts CliFacts StringRoundTrips.
Import Examples MoreExamples Shapes.

(** A loop whose body gives results that do not depend on the state. *)
Lemma for_each_stateless {A S R : Type} (body : A -> S -> list R * S)
    (result : A -> list R) (items : list A) :
  (forall item self, fst (body item self) = result item) ->
  forall self, fst (for_each body items self) = flat_map result items.
Proof.
  intros Hbody. induction items as [|item items IH]; intros self;
    [reflexivity|].
  cbn [for_each flat_map]. specialize (Hbody item self).
  destruct (body item self) as [r1 self1]. specialize (IH self1).
  destruct (for_each body items self1) as [r2 self2].
  cbn [fst] in *. now rewrite Hbody, IH.
Qed.

Lemma split_binding (rename : string * string) :
  comma_free rename = true ->
  split "," (binding_option rename) = [fst rename; snd rename].
Proof.
  unfold comma_free, binding_option. intros H.
  apply andb_true_iff in H as [Hold Hnew].
  apply negb_true_iff in Hold, Hnew. cbn [append].
  rewrite split_append by exact Hold. now rewrite split_plain.
Qed.

Lemma print_bindings_good (renames : list (string * string))
    (rest : list string) :
  forallb comma_free renames = true ->
  print_bindings (map binding_option renames ++ rest)%list
  = ((flat_map (fun r => binding_lines (fst r) (snd r)) renames
      ++ fst (print_bindings rest))%list,
     snd (print_bindings rest)).
Proof.
  induction renames as [|r renames IH]; intros Hgood.
  - cbn [map app flat_map]. now destruct (print_bindings rest).
  - cbn [forallb] in Hgood. apply andb_true_iff in Hgood as [Hr Hgood].
    cbn [map app print_bindings flat_map]. rewrite (split_binding r Hr).
    rewrite (IH Hgood). cbn [fst snd]. now rewrite <- app_assoc.
Qed.

Section WithAstroid.
Variable relative_to_absolute_name : string -> string -> nat -> string.

#[local] Abbreviation main := (Cli.main relative_to_absolute_name).
#[local] Abbreviation substitutions_of :=
  (Cli.substitutions_of relative_to_absolute_name).
#[local] Abbreviation sed_script_of :=
  (Cli.sed_script_of relative_to_absolute_name).
#[local] Abbreviation pairs_of_path :=
  (Shapes.pairs_of_path relative_to_absolute_name).

(** The pairs of a run are the hard-coded pair and then the pairs of
    each path in the order of the command line. A file is parsed on its
    own, whatever was parsed before it; a file given by name is parsed
    whatever its name, and of the files of a directory those whose name
    ends in [.pyi]. *)
Theorem run_pairs_path_by_path :
  forall args : Namespace,
    substitutions_of args
    = hard_coded :: flat_map pairs_of_path (file_or_directory args).
Proof.
  intros args. unfold Cli.substitutions_of. f_equal.
  apply for_each_stateless. intros [module|walked] self.
  - reflexivity.
  - cbn [parse_path Shapes.pairs_of_path].
    apply for_each_stateless. intros [filename module] self'.
    cbn [fst snd]. now destruct (endswith filename ".pyi").
Qed.

(** With binding options that are pairs of comma-free package names, the
    run returns 0 and prints the two lines of each binding, in the
    order of the options, and then the compiled rules. *)
Theorem bindings_then_rules :
  forall (renames : list (string * string)) (paths : list Path),
    forallb comma_free renames = true ->
    main (mkArgs (Some (map binding_option renames)) paths)
    = mkRun
        (flat_map (fun r => binding_lines (fst r) (snd r)) renames
         ++ sed_script_of (mkArgs (Some (map binding_option renames)) paths))
        (snd (_to_sed_script
                (substitutions_of
                   (mkArgs (Some (map binding_option renames)) paths))))
        (inr 0%Z).
Proof.
  intros renames paths Hgood. rewrite main_eq. cbn [binding].
  rewrite <- (app_nil_r (map binding_option renames)).
  rewrite (print_bindings_good renames [] Hgood). cbn [print_bindings fst snd].
  now rewrite app_nil_r.
Qed.

(** A binding option that does not split at commas into exactly two
    parts ends the run with [ValueError]: the lines of the bindings
    before it are printed, and none of the rules. *)
Theorem malformed_binding_raises :
  forall (renames : list (string * string)) (bad : string)
         (rest : list string) (paths : list Path),
    forallb comma_free renames = true ->
    List.length (split "," bad) <> 2 ->
    main (mkArgs (Some (map binding_option renames ++ bad :: rest)%list)
                 paths)
    = mkRun
        (flat_map (fun r => binding_lines (fst r) (snd r)) renames)
        (snd (_to_sed_script
                (substitutions_of
                   (mkArgs (Some (map binding_option renames
                                  ++ bad :: rest)%list) paths))))
        (inl ValueError).
Proof.
  intros renames bad rest paths Hgood Hbad. rewrite main_eq. cbn [binding].
  rewrite (print_bindings_good renames (bad :: rest) Hgood).
  assert (Hstop : print_bindings (bad :: rest) = ([], Some ValueError)).
  { cbn [print_bindings].
    destruct (split "," bad) as [|a [|b [|c l]]]; try reflexivity.
    now elim Hbad. }
  rewrite Hstop. cbn [fst snd]. now rewrite app_nil_r.
Qed.

End WithAstroid.

(** [-b PySide2,PySide6] and no stub. *)
Lemma bindings_then_rules_witness :
  stdout (main absolute_only (mkArgs (Some ["PySide2,PySide6"]) []))
  = ["s/import PySide2/import PySide6/";
     "s/from PySide2 import/from PySide6 import/";
     generic_rule "MidButton" "QtCore.Qt.MouseButton.MiddleButton";
     legacy_rule "QtCore.Qt.MouseButton.MiddleButton"].
Proof.
  exact (f_equal stdout
           (bindings_then_rules absolute_only [("PySide2", "PySide6")] []
              eq_refl)).
Defined.

(** [-b PySide2,PySide6 -b PySide2=PySide6]. *)
Lemma malformed_binding_witness :
  main absolute_only
       (mkArgs (Some ["PySide2,PySide6"; "PySide2=PySide6"]) [])
  = mkRun ["s/import PySide2/import PySide6/";
           "s/from PySide2 import/from PySide6 import/"]
          [] (inl ValueError).
Proof.
  exact (malformed_binding_raises absolute_only [("PySide2", "PySide6")]
           "PySide2=PySide6" [] [] eq_refl
           (fun E : 1 = 2 => eq_ind 1 (fun n => match n with 1 => True | _ => False end) I 2 E)).
Defined.

End CliCases.

(** ** The generic rule on other lines *)
Module SedCases.
Import PyStr Sed PyStrFacts ListFacts SedFacts Shapes.

(** A match of the generic pattern holds a dot followed by the member. *)
Lemma match_mentions (text : list ascii) (member : string) (i e : nat)
    (caps : Captures) :
  In (e, caps) (run text (generic_pattern member) i []) ->
  existsb (literal_at text ("."%char :: list_ascii_of_string member))
          (seq 0 (List.length text)) = true.
Proof.
  intros Hin.
  apply generic_match_inv in Hin
    as (j1 & jd & j3 & _ & _ & Hdot & Hlit & _).
  apply existsb_exists. exists jd. split.
  - apply in_seq. split; [lia|]. cbn [Nat.add].
    apply nth_error_Some. now rewrite Hdot.
  - cbn [literal_at]. now rewrite Hdot, Ascii.eqb_refl, Hlit.
Qed.

(** A generic rule changes no line but those that hold a dot followed by
    its member name. *)
Theorem generic_rule_needs_its_member :
  forall member qual_name line : string,
    mentions member line = false ->
    substitute (generic_command member qual_name) line = line.
Proof.
  intros member qual_name line Hline. unfold substitute. cbn [Nat.add].
  rewrite substitute_from_unmatched.
  - apply string_of_list_ascii_of_string.
  - intros i. cbn [pattern generic_command].
    destruct (run (list_ascii_of_string line) (generic_pattern member) i [])
      as [|[e caps] l] eqn:E; [reflexivity|].
    assert (Hin : In (e, caps)
                     (run (list_ascii_of_string line)
                          (generic_pattern member) i []))
      by (rewrite E; now left).
    apply match_mentions in Hin. unfold mentions in Hline.
    cbv zeta in Hline. now rewrite Hin in Hline.
Qed.

Lemma generic_rule_needs_its_member_witness :
  substitute (generic_command "Read" "QtCore.QIODevice.OpenModeFlag.Read")
             "mode = f.Write | other.read"
  = "mode = f.Write | other.read".
Proof.
  exact (generic_rule_needs_its_member
           "Read" "QtCore.QIODevice.OpenModeFlag.Read"
           "mode = f.Write | other.read" eq_refl).
Defined.

(** Of two generic rules applied in turn to a line that holds one
    occurrence of the first one's member, the first decides: what it
    writes starts with the letter Q, and the second rule, whatever its
    member and qualified name, leaves it. *)
Theorem first_generic_rule_decides :
  forall member qual_name rest member' qual_name' b1 base b2 : string,
    qual_name = String "Q" rest ->
    forallb is_ident_dot (list_ascii_of_string rest) = true ->
    is_identifier member = true ->
    is_boundary b1 = true -> is_boundary b2 = true ->
    accepted_base base = true ->
    substitute (generic_command member' qual_name')
      (substitute (generic_command member qual_name)
                  (b1 ++ base ++ "." ++ member ++ b2))
    = b1 ++ qual_name ++ b2.
Proof.
  intros member qual_name rest member' qual_name' b1 base b2
         -> Hrest Hmember Hb1 Hb2 Hbase.
  rewrite substitute_occurrence by assumption.
  apply substitute_Q_paths. now apply Q_path_between_boundaries.
Qed.

(** [f(e.ReadWrite)] under the rules of [QtCore] and then of [QtNetwork]. *)
Lemma first_generic_rule_decides_witness :
  substitute
    (generic_command "ReadWrite" "QtNetwork.QLocalSocket.OpenModeFlag.ReadWrite")
    (substitute
       (generic_command "ReadWrite" "QtCore.QIODevice.OpenModeFlag.ReadWrite")
       ("(" ++ "e" ++ "." ++ "ReadWrite" ++ ")"))
  = "(" ++ "QtCore.QIODevice.OpenModeFlag.ReadWrite" ++ ")".
Proof.
  exact (first_generic_rule_decides
           "ReadWrite" "QtCore.QIODevice.OpenModeFlag.ReadWrite"
           "tCore.QIODevice.OpenModeFlag.ReadWrite"
           "ReadWrite" "QtNetwork.QLocalSocket.OpenModeFlag.ReadWrite"
           "(" "e" ")" eq_refl eq_refl eq_refl eq_refl eq_refl eq_refl).
Defined.

(** *** A member that goes on *)

Section Framed.
Variables lb front tail rb : list ascii.
Hypothesis Hlb : boundary_chars lb = true.
Hypothesis Hrb : boundary_chars rb = true.
Hypothesis Hfront : forallb is_ident_dot front = true.
Hypothesis Htail :
  forallb (fun c => is_ident_dot c && negb (Ascii.eqb c ".")) tail = true.

(** The line: a path between two boundaries, with no dot in its tail. *)
Let text : list ascii := (lb ++ (front ++ tail) ++ rb)%list.

Lemma framed_length :
  List.length text
  = List.length lb + (List.length front + List.length tail)
    + List.length rb.
Proof. unfold text. rewrite !length_app. lia. Qed.

Lemma framed_path (k : nat) :
  List.length lb <= k
  < List.length lb + (List.length front + List.length tail) ->
  exists d, nth_error text k = Some d /\ is_ident_dot d = true.
Proof.
  intros Hk. unfold text. rewrite nth_error_app2 by lia.
  rewrite nth_error_app1 by (rewrite length_app; lia).
  destruct (nth_error (front ++ tail) (k - List.length lb)) as [d|] eqn:E.
  - exists d. split; [reflexivity|].
    apply nth_error_In, in_app_or in E as [Hin|Hin].
    + rewrite forallb_forall in Hfront. now apply Hfront.
    + rewrite forallb_forall in Htail.
      now apply Htail, andb_true_iff in Hin as [Hin _].
  - apply nth_error_None in E. rewrite length_app in E. lia.
Qed.

Lemma framed_tail (k : nat) :
  List.length lb + List.length front <= k
  < List.length lb + (List.length front + List.length tail) ->
  nth_error text k <> Some "."%char.
Proof.
  intros Hk E. unfold text in E. rewrite nth_error_app2 in E by lia.
  rewrite nth_error_app1 in E by (rewrite length_app; lia).
  rewrite nth_error_app2 in E by lia.
  apply nth_error_In in E. rewrite forallb_forall in Htail.
  now apply Htail, andb_true_iff in E as [_ E].
Qed.

(** With a tail longer than the member, no dot stands where the pattern
    needs the one in front of the member. *)
Lemma long_tail_no_match (member : string) :
  0 < String.length member ->
  String.length member < List.length tail ->
  forall i, run text (generic_pattern member) i [] = [].
Proof.
  intros Hmember Hlong i. pose proof framed_length as Hlen.
  destruct (run text (generic_pattern member) i []) as [|[e caps] l] eqn:E;
    [reflexivity|].
  assert (Hin : In (e, caps) (run text (generic_pattern member) i []))
    by (rewrite E; now left).
  apply generic_match_inv in Hin
    as (j1 & jd & j3 & _ & _ & Hdot & _ & -> & Htrail & _).
  assert (Hlbs : List.length lb <= 1).
  { destruct lb as [|p [|q l']]; cbn [boundary_chars List.length] in *;
      (lia || discriminate). }
  assert (Hrbs : List.length rb <= 1).
  { destruct rb as [|p [|q l']]; cbn [boundary_chars List.length] in *;
      (lia || discriminate). }
  assert (Hjd : jd < List.length text)
    by (apply nth_error_Some; now rewrite Hdot).
  assert (Hj3 : List.length lb + (List.length front + List.length tail)
                <= S jd + String.length member <= List.length text).
  { destruct Htrail as [[_ (p & Hp & Hb)]|[_ Hend]]; [|lia].
    assert (Hsome : S jd + String.length member < List.length text)
      by (apply nth_error_Some; now rewrite Hp).
    split; [|lia].
    destruct (Nat.lt_ge_cases (S jd + String.length member)
                (List.length lb + (List.length front + List.length tail)))
      as [Hlt|Hge]; [exfalso|exact Hge].
    destruct (framed_path (S jd + String.length member)) as (d & Hd & Hdi);
      [lia|].
    rewrite Hp in Hd. injection Hd as <-. now rewrite Hb in Hdi. }
  elim (framed_tail jd); [lia | exact Hdot].
Qed.

End Framed.

(** The rule of a member leaves a longer member that starts with its
    name, whatever the order of the rules: the pattern asks for a
    boundary right after the member. *)
Theorem longer_member_is_left :
  forall member qual_name b1 base suffix b2 : string,
    is_identifier member = true -> is_identifier suffix = true ->
    forallb is_ident_dot (list_ascii_of_string base) = true ->
    is_boundary b1 = true -> is_boundary b2 = true ->
    substitute (generic_command member qual_name)
               (b1 ++ base ++ "." ++ member ++ suffix ++ b2)
    = b1 ++ base ++ "." ++ member ++ suffix ++ b2.
Proof.
  intros member qual_name b1 base suffix b2 Hmember Hsuffix Hbase Hb1 Hb2.
  unfold substitute. cbn [Nat.add].
  rewrite substitute_from_unmatched;
    [apply string_of_list_ascii_of_string|].
  intros i. cbn [pattern generic_command].
  replace (list_ascii_of_string (b1 ++ base ++ "." ++ member ++ suffix ++ b2))
    with (list_ascii_of_string b1
          ++ ((list_ascii_of_string base ++ ["."%char])
              ++ list_ascii_of_string (member ++ suffix))
          ++ list_ascii_of_string b2)%list.
  - unfold is_identifier in Hmember, Hsuffix.
    apply andb_true_iff in Hmember as [Hm Hmchars].
    apply andb_true_iff in Hsuffix as [Hs Hschars].
    apply long_tail_no_match.
    + destruct b1 as [|p [|q b]]; try discriminate; [reflexivity|exact Hb1].
    + destruct b2 as [|p [|q b]]; try discriminate; [reflexivity|exact Hb2].
    + rewrite forallb_app, Hbase. reflexivity.
    + now rewrite list_of_append, forallb_app, Hmchars, Hschars.
    + destruct member; [discriminate | cbn [String.length]; lia].
    + rewrite list_of_append, length_app, !length_list_of.
      destruct suffix; [discriminate | cbn [String.length]; lia].
  - rewrite !list_of_append. cbn [list_ascii_of_string].
    repeat (rewrite <- !app_assoc; cbn [app]). reflexivity.
Qed.

(** [ReadWrite] under the rule of [Read]. *)
Lemma longer_member_witness :
  substitute (generic_command "Read" "QtCore.QIODevice.OpenModeFlag.Read")
             ("(" ++ "f" ++ "." ++ "Read" ++ "Write" ++ ")")
  = "(" ++ "f" ++ "." ++ "Read" ++ "Write" ++ ")".
Proof.
  exact (longer_member_is_left "Read" "QtCore.QIODevice.OpenModeFlag.Read"
           "(" "f" "Write" ")" eq_refl eq_refl eq_refl eq_refl eq_refl).
Defined.

End SedCases.

(** ** The rule of the old location *)
Module LegacyFacts.
Import PyStr Compiler Sed Legacy PyStrFacts ListFacts SedFacts.
Import StringRoundTrips.

(** Pasted into the pattern, the old location prints as itself. *)
Lemma show_as_pattern (old : string) : show_ere (as_pattern old) = old.
Proof.
  induction old as [|c old IH]; [reflexivity|].
  cbn [as_pattern show_ere]. rewrite IH.
  now destruct (Ascii.eqb_spec c "."%char) as [->|].
Qed.

(** The text [_to_sed_script] writes is the concrete syntax of
    [legacy_command]. *)
Lemma legacy_rule_is_command (qual_name : string) :
  legacy_rule qual_name = show_legacy qual_name.
Proof.
  unfold legacy_rule, show_legacy, legacy_pattern, legacy_replacement.
  cbn [show_ere]. rewrite show_as_pattern.
  cbn [show map show_piece String.concat].
  rewrite !append_assoc. reflexivity.
Qed.

Section Parts.
Variable text : list ascii.

(** The trailing boundary, the second parenthesis of this rule. *)
Lemma second_group_inv (j e : nat) (caps caps' : Captures) :
  In (e, caps')
     (run text (Group 2 (Alt (Bracket true ident_dot) Eol)) j caps) ->
  caps' = (2, (j, e)) :: caps
  /\ ((e = S j /\ exists p, nth_error text j = Some p
                            /\ is_ident_dot p = false)
      \/ (e = j /\ j = List.length text)).
Proof.
  cbn [run]. intros Hin. apply in_map_iff in Hin as ([j0 c0] & E & Hin).
  cbn [fst snd] in E. injection E as -> <-.
  apply in_app_or in Hin as [Hin|Hin].
  - destruct (nth_error text j) as [p|] eqn:Ep; [|easy].
    destruct (in_bracket true ident_dot p) eqn:Eb; [|easy].
    destruct Hin as [E|[]]. injection E as <- <-.
    split; [reflexivity|]. left. split; [reflexivity|].
    exists p. split; [reflexivity|].
    unfold is_ident_dot. unfold in_bracket in *. simpl xorb in *.
    now apply negb_true_iff in Eb.
  - destruct (Nat.eqb_spec j (List.length text)) as [E|]; [|easy].
    destruct Hin as [E'|[]]. injection E' as <- <-. split; [reflexivity|].
    now right.
Qed.

(** The pasted old location takes as many characters as it has, and
    those it names wherever it has no dot. *)
Lemma as_pattern_inv (old : string) :
  forall i e caps caps',
    In (e, caps') (run text (lower (as_pattern old)) i caps) ->
    e = i + String.length old /\ caps' = caps
    /\ forall k c,
         nth_error (list_ascii_of_string old) k = Some c ->
         exists d, nth_error text (i + k) = Some d
                   /\ (c = "."%char \/ d = c).
Proof.
  induction old as [|c old IH]; intros i e caps caps' Hin.
  - cbn [as_pattern lower run literal_at list_ascii_of_string] in Hin.
    destruct Hin as [E|[]]. injection E as <- <-.
    split; [cbn [String.length]; lia|]. split; [reflexivity|].
    intros k x Hk. now destruct k.
  - cbn [as_pattern lower] in Hin. rewrite run_seq in Hin.
    apply in_flat_map in Hin as ([j c1] & H1 & Hin). cbn [fst snd] in Hin.
    apply IH in Hin as (-> & -> & Hrest).
    assert (Hhead : j = S i /\ c1 = caps
                    /\ exists d, nth_error text i = Some d
                                 /\ (c = "."%char \/ d = c)).
    { destruct (Ascii.eqb_spec c "."%char) as [->|Hc].
      - cbn [lower] in H1.
        apply bracket_inv in H1 as (-> & -> & d & Hd & _).
        split; [reflexivity|]. split; [reflexivity|].
        exists d. split; [exact Hd | now left].
      - cbn [lower run literal_at list_ascii_of_string] in H1.
        destruct (nth_error text i) as [d|] eqn:Ed; [|easy].
        destruct (Ascii.eqb_spec c d) as [<-|]; [|easy].
        cbn [andb] in H1. destruct H1 as [E|[]]. injection E as <- <-.
        split; [cbn [String.length]; lia|]. split; [reflexivity|].
        exists c. split; [reflexivity | now right]. }
    destruct Hhead as (-> & -> & Hd).
    split; [cbn [String.length]; lia|]. split; [reflexivity|].
    intros k x Hk. destruct k as [|k].
    + cbn [list_ascii_of_string nth_error] in Hk. injection Hk as <-.
      now rewrite Nat.add_0_r.
    + cbn [list_ascii_of_string nth_error] in Hk.
      replace (i + S k) with (S i + k) by lia. now apply Hrest.
Qed.

(** It matches where the old location stands. *)
Lemma as_pattern_intro (old : string) :
  forall i caps,
    (forall k c, nth_error (list_ascii_of_string old) k = Some c ->
                 nth_error text (i + k) = Some c) ->
    In (i + String.length old, caps)
       (run text (lower (as_pattern old)) i caps).
Proof.
  induction old as [|c old IH]; intros i caps Htext.
  - cbn [as_pattern lower run literal_at list_ascii_of_string String.length].
    now left.
  - cbn [as_pattern lower]. rewrite run_seq. apply in_flat_map.
    exists (S i, caps). split.
    + assert (Hc : nth_error text i = Some c).
      { rewrite <- (Nat.add_0_r i). now apply Htext. }
      destruct (Ascii.eqb_spec c "."%char) as [->|Hne].
      * cbn [lower]. rewrite (bracket_intro text true [] i caps "."%char Hc);
          [now left | reflexivity].
      * cbn [lower run literal_at list_ascii_of_string].
        rewrite Hc, Ascii.eqb_refl. cbn [andb String.length].
        left. f_equal. lia.
    + cbn [fst snd String.length].
      replace (i + S (String.length old)) with (S i + String.length old)
        by lia.
      apply IH. intros k x Hk.
      replace (S i + k) with (i + S k) by lia. now apply Htext.
Qed.

(** One or more characters of identifiers and dots. *)
Lemma plus_inv (i e : nat) (caps caps' : Captures) :
  In (e, caps')
     (run text (lower (Plus (Core (Bracket false ident_dot)))) i caps) ->
  caps' = caps /\ i < e
  /\ exists c, nth_error text i = Some c /\ is_ident_dot c = true.
Proof.
  cbn [lower]. rewrite run_seq. intros Hin.
  apply in_flat_map in Hin as ([j c1] & H1 & Hin). cbn [fst snd] in Hin.
  apply bracket_inv in H1 as (-> & -> & c & Hc & Hb).
  rewrite run_star in Hin.
  pose proof (iterate_bracket_caps text _ _ _ _ _ _ _ Hin) as ->.
  apply iterate_ge in Hin.
  split; [reflexivity|]. split; [lia|]. now exists c.
Qed.

Lemma plus_intro (i j : nat) (caps : Captures) :
  i < j -> j <= List.length text ->
  (forall k, i <= k < j ->
             exists c, nth_error text k = Some c /\ is_ident_dot c = true) ->
  In (j, caps)
     (run text (lower (Plus (Core (Bracket false ident_dot)))) i caps).
Proof.
  intros Hij Hj Hclass. cbn [lower]. rewrite run_seq. apply in_flat_map.
  exists (S i, caps). split.
  - destruct (Hclass i) as (c & Hc & Hb); [lia|].
    rewrite (bracket_intro text false ident_dot i caps c Hc Hb). now left.
  - cbn [fst snd]. rewrite run_star.
    apply iterate_bracket_reach; [lia..|].
    intros k Hk. apply Hclass. lia.
Qed.

(** What a match of the whole pattern is made of. *)
Lemma legacy_match_inv (old : string) (i e : nat) (caps : Captures) :
  In (e, caps) (run text (lower (legacy_pattern old)) i []) ->
  exists j1 jd j3,
    ((j1 = S i /\ exists p, nth_error text i = Some p
                            /\ is_ident_dot p = false)
     \/ (j1 = i /\ i = 0))
    /\ (exists c, nth_error text j1 = Some c /\ is_ident_dot c = true)
    /\ j1 < jd
    /\ nth_error text jd = Some "."%char
    /\ (forall k c,
          nth_error (list_ascii_of_string old) k = Some c ->
          exists d, nth_error text (S jd + k) = Some d
                    /\ (c = "."%char \/ d = c))
    /\ j3 = S jd + String.length old
    /\ ((e = S j3 /\ exists p, nth_error text j3 = Some p
                               /\ is_ident_dot p = false)
        \/ (e = j3 /\ j3 = List.length text))
    /\ capture 1 caps = Some (i, j1)
    /\ capture 2 caps = Some (j3, e).
Proof.
  unfold legacy_pattern. cbn [lower]. rewrite run_seq. intros H.
  apply in_flat_map in H as ([j1 c1] & H1 & H).
  apply leading_boundary_inv in H1 as [-> Hlead]. cbn [fst snd] in H.
  rewrite run_seq in H.
  apply in_flat_map in H as ([jd c2] & H2 & H).
  apply (plus_inv j1 jd) in H2 as (-> & Hlt & Hfirst). cbn [fst snd] in H.
  rewrite run_seq in H.
  apply in_flat_map in H as ([j2 c3] & H3 & H).
  cbn [run literal_at] in H3.
  destruct (nth_error text jd) as [d|] eqn:Ed; [|easy].
  destruct (Ascii.eqb_spec "."%char d) as [<-|]; [|easy].
  cbn [andb] in H3. destruct H3 as [E|[]]. injection E as <- <-.
  cbn [fst snd] in H. rewrite run_seq in H.
  apply in_flat_map in H as ([j3 c4] & H4 & H).
  apply as_pattern_inv in H4 as (-> & -> & Hold). cbn [fst snd] in H.
  apply second_group_inv in H as [-> Htrail].
  exists j1, jd, (S jd + String.length old).
  repeat split; assumption.
Qed.

(** Putting the parts together. *)
Lemma legacy_match_intro (old : string) (j1 jd e : nat) :
  ((j1 = 1 /\ exists p, nth_error text 0 = Some p /\ is_ident_dot p = false)
   \/ j1 = 0) ->
  j1 < jd -> jd <= List.length text ->
  (forall k, j1 <= k < jd ->
             exists d, nth_error text k = Some d /\ is_ident_dot d = true) ->
  nth_error text jd = Some "."%char ->
  (forall k c, nth_error (list_ascii_of_string old) k = Some c ->
               nth_error text (S jd + k) = Some c) ->
  ((e = S (S jd + String.length old)
    /\ exists p, nth_error text (S jd + String.length old) = Some p
                 /\ is_ident_dot p = false)
   \/ (e = S jd + String.length old /\ e = List.length text)) ->
  exists caps, In (e, caps) (run text (lower (legacy_pattern old)) 0 []).
Proof.
  intros Hlead Hj1 Hjd Hpath Hdot Hold Htrail.
  exists [(2, (S jd + String.length old, e)); (1, (0, j1))].
  unfold legacy_pattern. cbn [lower]. rewrite run_seq. apply in_flat_map.
  exists (j1, [(1, (0, j1))]). split.
  { rewrite run_group, run_alt. apply in_map_iff.
    exists (j1, []). split; [reflexivity|]. apply in_or_app.
    destruct Hlead as [[-> (p & Hp & Hb)]| ->].
    - left. rewrite (bracket_intro text true ident_dot 0 [] p Hp);
        [now left|].
      unfold is_ident_dot, in_bracket in *. simpl xorb in *. now rewrite Hb.
    - right. now left. }
  cbn [fst snd]. rewrite run_seq. apply in_flat_map.
  exists (jd, [(1, (0, j1))]). split; [now apply plus_intro|].
  cbn [fst snd]. rewrite run_seq. apply in_flat_map.
  exists (S jd, [(1, (0, j1))]). split.
  { cbn [run literal_at]. rewrite Hdot, Ascii.eqb_refl. now left. }
  cbn [fst snd]. rewrite run_seq. apply in_flat_map.
  exists (S jd + String.length old, [(1, (0, j1))]). split;
    [now apply as_pattern_intro|].
  cbn [fst snd]. rewrite run_group, run_alt. apply in_map_iff.
  exists (e, [(1, (0, j1))]). split; [reflexivity|]. apply in_or_app.
  destruct Htrail as [[-> (p & Hp & Hb)]|[-> Hend]].
  - left. rewrite (bracket_intro text true ident_dot _ _ p Hp); [now left|].
    unfold is_ident_dot, in_bracket in *. simpl xorb in *. now rewrite Hb.
  - right. cbn [run]. rewrite Hend, Nat.eqb_refl. now left.
Qed.

End Parts.

(** *** Characters of identifiers and of their joins *)

Lemma identifier_chars (s : string) :
  is_identifier s = true ->
  forallb is_ident_dot (list_ascii_of_string s) = true.
Proof.
  unfold is_identifier. intros H. apply andb_true_iff in H as [_ Hall].
  rewrite forallb_forall in Hall |- *. intros x Hx.
  now apply Hall, andb_true_iff in Hx as [Hx _].
Qed.

Lemma identifier_no_dot (s : string) :
  is_identifier s = true -> has_char "." s = false.
Proof.
  unfold is_identifier. intros H. apply andb_true_iff in H as [_ Hall].
  induction s as [|c s IH]; [reflexivity|].
  cbn [list_ascii_of_string forallb] in Hall.
  apply andb_true_iff in Hall as [Hc Hall].
  apply andb_true_iff in Hc as [_ Hc]. apply negb_true_iff in Hc.
  cbn [has_char]. now rewrite Hc, (IH Hall).
Qed.

Lemma identifier_last (s : string) :
  is_identifier s = true ->
  exists front c,
    s = front ++ String c ""
    /\ forallb is_ident_dot (list_ascii_of_string front) = true
    /\ is_ident_dot c = true /\ c <> "."%char.
Proof.
  unfold is_identifier. intros H. apply andb_true_iff in H as [Hne Hall].
  induction s as [|c s IH]; [discriminate|].
  cbn [list_ascii_of_string forallb] in Hall.
  apply andb_true_iff in Hall as [Hc Hall].
  apply andb_true_iff in Hc as [Hc Hdot]. apply negb_true_iff in Hdot.
  destruct s as [|d s'].
  - exists "", c. repeat split; [exact Hc|].
    intros ->. discriminate.
  - destruct (IH eq_refl Hall) as (front & x & E & Hfront & Hx & Hxdot).
    exists (String c front), x. rewrite E. cbn [append].
    repeat split; [|exact Hx|exact Hxdot].
    cbn [list_ascii_of_string forallb]. now rewrite Hc, Hfront.
Qed.

Lemma join_ident_dot (parts : list string) :
  forallb is_identifier parts = true ->
  forallb is_ident_dot (list_ascii_of_string (join "." parts)) = true.
Proof.
  unfold join. induction parts as [|p parts IH]; [reflexivity|].
  intros H. cbn [forallb] in H. apply andb_true_iff in H as [Hp Hparts].
  destruct parts as [|q parts]; [now apply identifier_chars|].
  change (concat "." (p :: q :: parts))
    with (p ++ "." ++ concat "." (q :: parts)).
  rewrite !list_of_append, !forallb_app.
  rewrite (identifier_chars p Hp), (IH Hparts). reflexivity.
Qed.

Lemma boundary_of_string (b : string) :
  is_boundary b = true -> boundary_chars (list_ascii_of_string b) = true.
Proof. destruct b as [|p [|q b]]; try discriminate; now intros. Qed.

(** The old location of a qualified name given by its segments. *)
Lemma old_location_of_segments :
  forall (scope : list string) (enum_class member : string),
    forallb (fun part => negb (has_char "." part))
            (scope ++ [enum_class; member])%list = true ->
    old_location (join "." (scope ++ [enum_class; member])%list)
    = join "." scope ++ "." ++ member.
Proof.
  intros scope enum_class member Hparts. unfold old_location.
  rewrite split_of_join; [|now destruct scope|exact Hparts].
  rewrite length_app. cbn [List.length].
  replace (List.length scope + 2 - 2) with (List.length scope) by lia.
  rewrite firstn_app, firstn_all, Nat.sub_diag. cbn [firstn].
  rewrite app_nil_r.
  replace (scope ++ [enum_class; member])%list
    with ((scope ++ [enum_class]) ++ [member])%list
    by now rewrite <- app_assoc.
  now rewrite last_last.
Qed.

(** *** No match without a package in front *)

Lemma legacy_match_needs_prefix (text : list ascii) (old : string)
    (i e : nat) (caps : Captures) :
  In (e, caps) (run text (lower (legacy_pattern old)) i []) ->
  exists j1,
    i <= j1
    /\ (exists c, nth_error text j1 = Some c /\ is_ident_dot c = true)
    /\ j1 + 2 + String.length old <= List.length text.
Proof.
  intros Hin.
  apply legacy_match_inv in Hin
    as (j1 & jd & j3 & Hlead & Hfirst & Hlt & Hdot & Hold & -> & _).
  exists j1. split; [destruct Hlead as [[-> _]|[-> _]]; lia|].
  split; [exact Hfirst|].
  assert (Hjd : jd < List.length text)
    by (apply nth_error_Some; now rewrite Hdot).
  destruct (String.length old) as [|n] eqn:En; [lia|].
  destruct (nth_error (list_ascii_of_string old) n) as [x|] eqn:Ex.
  - destruct (Hold n x Ex) as (d & Hd & _).
    assert (S jd + n < List.length text)
      by (apply nth_error_Some; now rewrite Hd).
    lia.
  - apply nth_error_None in Ex. rewrite length_list_of in Ex. lia.
Qed.

Lemma old_location_alone_chars (old : string) (lb rb : list ascii) :
  boundary_chars lb = true -> boundary_chars rb = true ->
  forall i,
    run (lb ++ list_ascii_of_string old ++ rb)%list
        (lower (legacy_pattern old)) i [] = [].
Proof.
  intros Hlb Hrb i.
  destruct (run _ (lower (legacy_pattern old)) i []) as [|[e caps] l] eqn:E;
    [reflexivity|].
  assert (Hin : In (e, caps)
                   (run (lb ++ list_ascii_of_string old ++ rb)%list
                        (lower (legacy_pattern old)) i []))
    by (rewrite E; now left).
  apply legacy_match_needs_prefix in Hin as (j1 & _ & (c & Hc & Hci) & Hlen).
  rewrite !length_app, length_list_of in Hlen.
  destruct lb as [|p [|q lb]]; try discriminate;
    destruct rb as [|p' [|q' rb]]; try discriminate;
    cbn [List.length] in Hlen; try lia.
  assert (j1 = 0) as -> by lia.
  cbn [app nth_error] in Hc. injection Hc as ->.
  cbn [boundary_chars] in Hlb. now rewrite Hci in Hlb.
Qed.

(** *** An old location behind a package *)

Section Prefixed.
Variables (lb rb pkg : list ascii) (front : string) (last_c : ascii).
Variable qual_name : string.
Hypothesis Hlb : boundary_chars lb = true.
Hypothesis Hrb : boundary_chars rb = true.
Hypothesis Hpkg : pkg <> [].
Hypothesis Hpkg_ident : forallb is_ident_dot pkg = true.
Hypothesis Hfront : forallb is_ident_dot (list_ascii_of_string front) = true.
Hypothesis Hlast : is_ident_dot last_c = true.
Hypothesis Hnot_dot : last_c <> "."%char.

(** The old location, the path and the line. *)
Let old : string := front ++ String last_c "".
Let mid : list ascii := (pkg ++ "."%char :: list_ascii_of_string old)%list.
Let text : list ascii := (lb ++ mid ++ rb)%list.

Lemma old_chars :
  list_ascii_of_string old = (list_ascii_of_string front ++ [last_c])%list.
Proof. unfold old. now rewrite list_of_append. Qed.

Lemma old_length : String.length old = S (String.length front).
Proof.
  rewrite <- length_list_of, old_chars, length_app, length_list_of.
  cbn [List.length]. lia.
Qed.

Lemma prefixed_mid_ident : forallb is_ident_dot mid = true.
Proof.
  unfold mid. rewrite forallb_app, Hpkg_ident. cbn [forallb andb].
  replace (is_ident_dot ".") with true by reflexivity.
  rewrite old_chars, forallb_app, Hfront. cbn [forallb andb].
  now rewrite Hlast.
Qed.

Lemma prefixed_mid_length :
  List.length mid = List.length pkg + S (String.length old).
Proof.
  unfold mid. rewrite length_app. cbn [List.length].
  now rewrite length_list_of.
Qed.

Lemma prefixed_text_length :
  List.length text = List.length lb + List.length mid + List.length rb.
Proof. unfold text. rewrite !length_app. lia. Qed.

Lemma pkg_length : 0 < List.length pkg.
Proof. destruct pkg; [now elim Hpkg | cbn [List.length]; lia]. Qed.

Lemma prefixed_lb_cases :
  lb = [] \/ exists p, lb = [p] /\ is_ident_dot p = false.
Proof.
  destruct lb as [|p [|q l]]; cbn [boundary_chars] in *;
    [now left| |discriminate].
  right. exists p. split; [reflexivity | now apply negb_true_iff].
Qed.

Lemma prefixed_rb_cases :
  rb = [] \/ exists p, rb = [p] /\ is_ident_dot p = false.
Proof.
  destruct rb as [|p [|q l]]; cbn [boundary_chars] in *;
    [now left| |discriminate].
  right. exists p. split; [reflexivity | now apply negb_true_iff].
Qed.

Lemma prefixed_lb_short : List.length lb <= 1.
Proof.
  destruct prefixed_lb_cases as [E|(p & E & _)]; rewrite E;
    cbn [List.length]; lia.
Qed.

Lemma prefixed_rb_short : List.length rb <= 1.
Proof.
  destruct prefixed_rb_cases as [E|(p & E & _)]; rewrite E;
    cbn [List.length]; lia.
Qed.

Lemma prefixed_text_lb (k : nat) :
  k < List.length lb -> nth_error text k = nth_error lb k.
Proof. intros Hk. unfold text. now rewrite nth_error_app1. Qed.

Lemma prefixed_text_mid (k : nat) (x : ascii) :
  nth_error mid k = Some x -> nth_error text (List.length lb + k) = Some x.
Proof.
  intros Hk. unfold text.
  rewrite nth_error_app2 by lia.
  replace (List.length lb + k - List.length lb) with k by lia.
  rewrite nth_error_app1; [exact Hk|].
  apply nth_error_Some. now rewrite Hk.
Qed.

Lemma prefixed_text_mid_ident (k : nat) :
  List.length lb <= k < List.length lb + List.length mid ->
  exists d, nth_error text k = Some d /\ is_ident_dot d = true.
Proof.
  intros Hk.
  destruct (nth_error mid (k - List.length lb)) as [d|] eqn:E.
  - exists d. split.
    + replace k with (List.length lb + (k - List.length lb)) by lia.
      now apply prefixed_text_mid.
    + pose proof prefixed_mid_ident as Hmid. rewrite forallb_forall in Hmid.
      apply Hmid. eapply nth_error_In; eassumption.
  - apply nth_error_None in E. lia.
Qed.

Lemma prefixed_text_rb (k : nat) :
  nth_error text (List.length lb + List.length mid + k) = nth_error rb k.
Proof.
  unfold text. rewrite nth_error_app2 by lia. rewrite nth_error_app2 by lia.
  f_equal. lia.
Qed.

(** A character that is not of a path stands in a boundary. *)
Lemma prefixed_boundary_position (k : nat) (p : ascii) :
  nth_error text k = Some p -> is_ident_dot p = false ->
  k < List.length lb \/ List.length lb + List.length mid <= k.
Proof.
  intros Hk Hp.
  destruct (Nat.lt_ge_cases k (List.length lb)) as [Hlt|Hge]; [now left|].
  destruct (Nat.lt_ge_cases k (List.length lb + List.length mid))
    as [Hlt|Hge']; [|now right].
  destruct (prefixed_text_mid_ident k) as (d & Hd & Hdi); [lia|].
  rewrite Hk in Hd. injection Hd as <-. now rewrite Hp in Hdi.
Qed.

(** A character of a path stands in the path. *)
Lemma prefixed_path_position (k : nat) (q : ascii) :
  nth_error text k = Some q -> is_ident_dot q = true ->
  List.length lb <= k < List.length lb + List.length mid.
Proof.
  intros Hk Hq.
  destruct (Nat.lt_ge_cases k (List.length lb)) as [Hlt|Hge].
  - exfalso. rewrite prefixed_text_lb in Hk by exact Hlt.
    destruct prefixed_lb_cases as [E|(p & E & Hp)]; rewrite E in Hk, Hlt;
      cbn [List.length] in Hlt; [lia|].
    destruct k; [|lia]. cbn [nth_error] in Hk. injection Hk as ->.
    now rewrite Hq in Hp.
  - split; [exact Hge|].
    destruct (Nat.lt_ge_cases k (List.length lb + List.length mid))
      as [Hlt|Hge']; [exact Hlt|exfalso].
    replace k with (List.length lb + List.length mid
                    + (k - List.length lb - List.length mid)) in Hk by lia.
    rewrite prefixed_text_rb in Hk.
    destruct prefixed_rb_cases as [E|(p & E & Hp)]; rewrite E in Hk.
    + now destruct (k - List.length lb - List.length mid).
    + destruct (k - List.length lb - List.length mid) as [|k'];
        [|now destruct k'].
      cbn [nth_error] in Hk. injection Hk as ->. now rewrite Hq in Hp.
Qed.

Lemma prefixed_matches :
  exists caps,
    In (List.length text, caps) (run text (lower (legacy_pattern old)) 0 []).
Proof.
  pose proof prefixed_mid_length as Hmid.
  pose proof prefixed_text_length as Htext.
  pose proof prefixed_lb_short as Hlbs. pose proof prefixed_rb_short as Hrbs.
  pose proof pkg_length as Hpkgs.
  apply (legacy_match_intro text old (List.length lb)
           (List.length lb + List.length pkg) (List.length text)).
  - destruct prefixed_lb_cases as [E|(p & E & Hp)].
    + right. now rewrite E.
    + left. split; [now rewrite E|]. exists p. split; [|exact Hp].
      rewrite prefixed_text_lb by (rewrite E; cbn [List.length]; lia).
      now rewrite E.
  - lia.
  - lia.
  - intros k Hk. apply prefixed_text_mid_ident. lia.
  - apply prefixed_text_mid. unfold mid.
    rewrite nth_error_app2 by lia. now rewrite Nat.sub_diag.
  - intros k x Hk.
    replace (S (List.length lb + List.length pkg) + k)
      with (List.length lb + (List.length pkg + S k)) by lia.
    apply prefixed_text_mid. unfold mid.
    rewrite nth_error_app2 by lia.
    replace (List.length pkg + S k - List.length pkg) with (S k) by lia.
    exact Hk.
  - destruct prefixed_rb_cases as [E|(p & E & Hp)].
    + right. rewrite E in Htext. cbn [List.length] in Htext. lia.
    + left. split; [rewrite E in Htext; cbn [List.length] in Htext; lia|].
      exists p. split; [|exact Hp].
      replace (S (List.length lb + List.length pkg) + String.length old)
        with (List.length lb + List.length mid + 0) by lia.
      rewrite prefixed_text_rb. now rewrite E.
Qed.

Lemma prefixed_captures (e : nat) (caps : Captures) :
  In (e, caps) (run text (lower (legacy_pattern old)) 0 []) ->
  e = List.length text
  /\ capture 1 caps = Some (0, List.length lb)
  /\ capture 2 caps
     = Some (List.length lb + List.length mid, List.length text).
Proof.
  pose proof prefixed_mid_length as Hmid.
  pose proof prefixed_text_length as Htext.
  pose proof prefixed_lb_short as Hlbs. pose proof prefixed_rb_short as Hrbs.
  pose proof old_length as Holdl.
  intros Hin.
  apply legacy_match_inv in Hin
    as (j1 & jd & j3 & Hlead & (c & Hc & Hci) & Hlt & Hdot & Hold & ->
        & Htrail & Hcap1 & Hcap2).
  assert (Hj1 : j1 = List.length lb).
  { destruct Hlead as [[-> (p & Hp & Hb)]|[-> _]].
    - apply prefixed_boundary_position in Hp; [lia | exact Hb].
    - apply prefixed_path_position in Hc; [lia | exact Hci]. }
  assert (Hend : S jd + String.length front
                 < List.length lb + List.length mid).
  { destruct (Hold (String.length front) last_c) as (d & Hd & [E|E]).
    - rewrite old_chars, nth_error_app2 by (rewrite length_list_of; lia).
      now rewrite length_list_of, Nat.sub_diag.
    - now elim Hnot_dot.
    - subst d. now apply (prefixed_path_position _ last_c Hd). }
  assert (He : e = List.length text
               /\ S jd + String.length old
                  = List.length lb + List.length mid).
  { destruct Htrail as [[-> (p & Hp & Hb)]|[-> Hlen]].
    - pose proof (prefixed_boundary_position _ p Hp Hb) as Hpos.
      assert (Hsome : S jd + String.length old < List.length text)
        by (apply nth_error_Some; now rewrite Hp).
      lia.
    - lia. }
  destruct He as [-> Hj3]. split; [reflexivity|].
  now rewrite Hcap1, Hcap2, Hj1, Hj3.
Qed.

Lemma nothing_after_prefixed :
  run text (lower (legacy_pattern old)) (List.length text) [] = [].
Proof.
  pose proof prefixed_mid_length as Hmid.
  pose proof prefixed_text_length as Htext.
  destruct (run text (lower (legacy_pattern old)) (List.length text) [])
    as [|[e caps] l] eqn:E; [reflexivity|].
  assert (Hin : In (e, caps)
                   (run text (lower (legacy_pattern old))
                        (List.length text) []))
    by (rewrite E; now left).
  apply legacy_match_needs_prefix in Hin as (j1 & Hj1 & _ & Hlen). lia.
Qed.

(** The path is rewritten, the boundaries are kept. *)
Lemma substitute_prefixed_chars (n : nat) :
  substitute_from text
    (mkCommand (lower (legacy_pattern old)) (legacy_replacement qual_name))
    (S (S n)) 0
  = (lb ++ list_ascii_of_string qual_name ++ rb)%list.
Proof.
  pose proof prefixed_mid_length as Hmid.
  pose proof prefixed_text_length as Htext.
  destruct prefixed_matches as [caps0 Hin0].
  destruct (longest_some (run text (lower (legacy_pattern old)) 0 []))
    as ([e caps] & Hbest & Hin).
  { intros E. now rewrite E in Hin0. }
  destruct (prefixed_captures e caps Hin) as (He & Hcap1 & Hcap2).
  rewrite (substitute_from_whole text
             (mkCommand (lower (legacy_pattern old))
                        (legacy_replacement qual_name))
             n e caps Hbest He);
    [|lia|apply nothing_after_prefixed].
  cbn [replacement legacy_replacement expand flat_map].
  rewrite Hcap1, Hcap2, app_nil_r. unfold slice.
  assert (Hleft : firstn (List.length lb - 0) (skipn 0 text) = lb).
  { rewrite Nat.sub_0_r. cbn [skipn]. unfold text.
    rewrite firstn_app, firstn_all, Nat.sub_diag. cbn [firstn].
    apply app_nil_r. }
  assert (Hright : firstn (List.length text
                           - (List.length lb + List.length mid))
                          (skipn (List.length lb + List.length mid) text)
                   = rb).
  { replace (skipn (List.length lb + List.length mid) text) with rb.
    - apply firstn_all2. lia.
    - unfold text. rewrite app_assoc, <- length_app, skipn_app.
      rewrite skipn_all, Nat.sub_diag. reflexivity. }
  now rewrite Hleft, Hright.
Qed.

End Prefixed.

(** *** The two sides of the rule *)

(** The rule of the old location, read by [sed -E] for a qualified name
    of identifier characters and dots (the pasted old location then has
    no special character but the dot), changes no line that holds the
    old location alone between two boundaries: the pattern asks for at
    least one character and a dot in front of it. *)
Theorem old_location_alone_is_kept :
  forall qual_name b1 b2 : string,
    forallb is_ident_dot (list_ascii_of_string qual_name) = true ->
    is_boundary b1 = true -> is_boundary b2 = true ->
    legacy_rule qual_name = show_legacy qual_name
    /\ substitute (legacy_command qual_name)
                  (b1 ++ old_location qual_name ++ b2)
       = b1 ++ old_location qual_name ++ b2.
Proof.
  intros qual_name b1 b2 _ Hb1 Hb2.
  split; [apply legacy_rule_is_command|].
  unfold substitute. cbn [Nat.add].
  rewrite substitute_from_unmatched;
    [apply string_of_list_ascii_of_string|].
  intros i. cbn [pattern legacy_command]. rewrite !list_of_append.
  apply old_location_alone_chars; now apply boundary_of_string.
Qed.

(** The example of the comment above the rule. *)
Lemma old_location_alone_witness :
  substitute
    (legacy_command "QtWidgets.QAbstractItemView.SelectionMode.MultiSelection")
    "QtWidgets.QAbstractItemView.MultiSelection"
  = "QtWidgets.QAbstractItemView.MultiSelection".
Proof.
  exact (proj2 (old_location_alone_is_kept
                  "QtWidgets.QAbstractItemView.SelectionMode.MultiSelection"
                  "" "" eq_refl eq_refl eq_refl)).
Defined.

(** Behind a package (one or more identifier characters and dots, then a
    dot) and between two boundaries, alone on its line, the old location
    of a member of an enumeration is rewritten to the qualified name,
    and the package is dropped. *)
Theorem prefixed_old_location_is_rewritten :
  forall (scope : list string) (enum_class member pkg b1 b2 : string),
    forallb is_identifier (scope ++ [enum_class; member])%list = true ->
    negb (String.eqb pkg "") = true ->
    forallb is_ident_dot (list_ascii_of_string pkg) = true ->
    is_boundary b1 = true -> is_boundary b2 = true ->
    legacy_rule (join "." (scope ++ [enum_class; member])%list)
    = show_legacy (join "." (scope ++ [enum_class; member])%list)
    /\ substitute
         (legacy_command (join "." (scope ++ [enum_class; member])%list))
         (b1 ++ pkg ++ "." ++ join "." scope ++ "." ++ member ++ b2)
       = b1 ++ join "." (scope ++ [enum_class; member])%list ++ b2.
Proof.
  intros scope enum_class member pkg b1 b2 Hparts Hpkg Hpkg_ident Hb1 Hb2.
  split; [apply legacy_rule_is_command|].
  assert (Hdots : forallb (fun part => negb (has_char "." part))
                          (scope ++ [enum_class; member])%list = true).
  { rewrite forallb_forall in Hparts |- *. intros part Hin.
    now rewrite (identifier_no_dot part (Hparts part Hin)). }
  rewrite forallb_app in Hparts.
  apply andb_true_iff in Hparts as [Hscope Hrest].
  cbn [forallb] in Hrest. apply andb_true_iff in Hrest as [_ Hrest].
  apply andb_true_iff in Hrest as [Hmember _].
  destruct (identifier_last member Hmember)
    as (front & c & -> & Hfront & Hc & Hcdot).
  assert (Hold : old_location
                   (join "." (scope ++ [enum_class; (front ++ String c "")%string])%list)
                 = (join "." scope ++ "." ++ front) ++ String c "").
  { rewrite (old_location_of_segments scope enum_class _ Hdots).
    now rewrite !append_assoc. }
  assert (Hpkg_chars : list_ascii_of_string pkg <> []).
  { destruct pkg; [discriminate | easy]. }
  assert (Hfront' : forallb is_ident_dot
                      (list_ascii_of_string (join "." scope ++ "." ++ front))
                    = true).
  { rewrite !list_of_append, !forallb_app.
    now rewrite (join_ident_dot scope Hscope), Hfront. }
  pose proof (substitute_prefixed_chars
                (list_ascii_of_string b1) (list_ascii_of_string b2)
                (list_ascii_of_string pkg) (join "." scope ++ "." ++ front) c
                (join "." (scope ++ [enum_class; (front ++ String c "")%string])%list)
                (boundary_of_string b1 Hb1) (boundary_of_string b2 Hb2)
                Hpkg_chars Hpkg_ident Hfront' Hc Hcdot) as Hsub.
  cbv zeta in Hsub. unfold substitute, legacy_command. rewrite Hold.
  replace (list_ascii_of_string
             (b1 ++ pkg ++ "." ++ join "." scope ++ "."
              ++ (front ++ String c "") ++ b2))
    with (list_ascii_of_string b1
          ++ (list_ascii_of_string pkg
              ++ "."%char
                 :: list_ascii_of_string
                      ((join "." scope ++ "." ++ front) ++ String c ""))
          ++ list_ascii_of_string b2)%list.
  - cbn [Nat.add]. rewrite Hsub.
    rewrite !string_of_app, !string_of_list_ascii_of_string. reflexivity.
  - rewrite !list_of_append. cbn [list_ascii_of_string].
    repeat (rewrite <- !app_assoc; cbn [app]). reflexivity.
Qed.

(** [PySide2.QtWidgets.QAbstractItemView.MultiSelection] as an argument. *)
Lemma prefixed_old_location_witness :
  substitute
    (legacy_command "QtWidgets.QAbstractItemView.SelectionMode.MultiSelection")
    "(PySide2.QtWidgets.QAbstractItemView.MultiSelection)"
  = "(QtWidgets.QAbstractItemView.SelectionMode.MultiSelection)".
Proof.
  exact (proj2 (prefixed_old_location_is_rewritten
                  ["QtWidgets"; "QAbstractItemView"] "SelectionMode"
                  "MultiSelection" "PySide2" "(" ")"
                  eq_refl eq_refl eq_refl eq_refl eq_refl)).
Defined.

End LegacyFacts.

(** ** Whole lines under the generic rule *)
Module LineFacts.
Import PyStr Sed Lines PyStrFacts ListFacts SedFacts.

(** *** The brackets of the pattern *)

Lemma first_char_cases (c : ascii) :
  in_bracket false first_char c
  = is_ident_dot c && negb (Ascii.eqb c "Q").
Proof. destruct c as [[] [] [] [] [] [] [] []]; reflexivity. Qed.

Lemma second_char_cases (d : ascii) :
  in_bracket false second_char d
  = is_ident_dot d && negb (Ascii.eqb d "t" || is_upper d).
Proof. destruct d as [[] [] [] [] [] [] [] []]; reflexivity. Qed.

(** The bases the pattern accepts are the variable bases, but for those
    whose second character is the letter t or a capital letter. *)
Lemma accepted_base_cases (base : string) :
  accepted_base base = variable_base base && negb (second_left_out base).
Proof.
  destruct base as [|c [|d rest]].
  - reflexivity.
  - cbn [accepted_base variable_base second_left_out list_ascii_of_string
         forallb negb].
    rewrite first_char_cases. now rewrite !andb_true_r.
  - cbn [accepted_base variable_base second_left_out list_ascii_of_string
         forallb].
    rewrite first_char_cases, second_char_cases.
    destruct (is_ident_dot c), (Ascii.eqb c "Q"), (is_ident_dot d),
      (Ascii.eqb d "t" || is_upper d),
      (forallb is_ident_dot (list_ascii_of_string rest)); reflexivity.
Qed.

(** *** Lines and their items *)

Lemma render_push (c : ascii) (l : Line) :
  render (push c l) = c :: render l.
Proof.
  unfold push, render. destruct (is_ident_dot c); [|reflexivity].
  destruct l as [[|x sep] [|[path sep'] rest]]; reflexivity.
Qed.

(** The items of a line put together give the line back. *)
Lemma render_tokenize (text : list ascii) : render (tokenize text) = text.
Proof.
  induction text as [|c text IH]; [reflexivity|].
  cbn [tokenize fold_right]. fold (tokenize text).
  now rewrite render_push, IH.
Qed.

Lemma well_formed_push (c : ascii) (l : Line) :
  well_formed l = true -> well_formed (push c l) = true.
Proof.
  unfold push, well_formed. intros H. apply andb_true_iff in H as [Hsep Hitems].
  destruct (is_ident_dot c) eqn:Ec;
    [|cbn [fst snd forallb]; now rewrite Ec, Hsep, Hitems].
  destruct l as [[|x sep] [|[path sep'] rest]]; cbn [fst snd] in *.
  - cbn [forallb well_formed_items List.length Nat.eqb negb andb].
    now rewrite Ec.
  - cbn [well_formed_items] in Hitems.
    apply andb_true_iff in Hitems as [H Hrest].
    apply andb_true_iff in H as [H Hlast].
    apply andb_true_iff in H as [H Hsep'].
    apply andb_true_iff in H as [_ Hpath].
    cbn [forallb well_formed_items List.length Nat.eqb negb andb].
    now rewrite Ec, Hpath, Hsep', Hlast, Hrest.
  - cbn [well_formed_items List.length Nat.eqb negb andb].
    rewrite Hsep. cbn [forallb andb]. now rewrite Ec.
  - cbn [well_formed_items] in Hitems |- *.
    cbn [List.length Nat.eqb negb andb].
    rewrite Hsep, Hitems. cbn [forallb andb]. now rewrite Ec.
Qed.

Lemma well_formed_tokenize (text : list ascii) :
  well_formed (tokenize text) = true.
Proof.
  induction text as [|c text IH]; [reflexivity|].
  cbn [tokenize fold_right]. fold (tokenize text).
  now apply well_formed_push.
Qed.

Lemma tokenize_app (front back : list ascii) :
  tokenize (front ++ back) = fold_right push (tokenize back) front.
Proof. unfold tokenize. now rewrite fold_right_app. Qed.

Lemma push_separator (sep : list ascii) (l : Line) :
  forallb (fun c => negb (is_ident_dot c)) sep = true ->
  fold_right push l sep = ((sep ++ fst l)%list, snd l).
Proof.
  induction sep as [|c sep IH]; intros H;
    [now destruct l|].
  cbn [forallb] in H. apply andb_true_iff in H as [Hc Hsep].
  apply negb_true_iff in Hc.
  cbn [fold_right]. rewrite (IH Hsep). unfold push. now rewrite Hc.
Qed.

Lemma push_path (path sep : list ascii) (rest : Items) :
  path <> [] -> forallb is_ident_dot path = true ->
  sep <> [] \/ rest = [] ->
  fold_right push (sep, rest) path = ([], (path, sep) :: rest).
Proof.
  induction path as [|c path IH]; [easy|]. intros _ H Hsep.
  cbn [forallb] in H. apply andb_true_iff in H as [Hc Hpath].
  cbn [fold_right]. destruct path as [|d path].
  - cbn [fold_right]. unfold push. rewrite Hc.
    destruct sep as [|x sep]; [|reflexivity].
    destruct Hsep as [Hsep| ->]; [now elim Hsep | reflexivity].
  - rewrite IH by (easy || assumption). unfold push. now rewrite Hc.
Qed.

Lemma tokenize_items (items : Items) :
  well_formed_items items = true -> tokenize (chars_of items) = ([], items).
Proof.
  induction items as [|[path sep] rest IH]; [reflexivity|]. intros H.
  cbn [well_formed_items] in H.
  apply andb_true_iff in H as [H Hrest]. apply andb_true_iff in H as [H Hlast].
  apply andb_true_iff in H as [H Hsep]. apply andb_true_iff in H as [Hne Hpath].
  cbn [chars_of flat_map fst snd]. fold (chars_of rest).
  rewrite <- app_assoc, !tokenize_app, (IH Hrest).
  rewrite (push_separator sep _ Hsep). cbn [fst snd]. rewrite app_nil_r.
  apply push_path; [now destruct path | exact Hpath |].
  destruct rest as [|item rest]; [now right|]. left. now destruct sep.
Qed.

(** A well-formed line is the line of its characters. *)
Lemma tokenize_render (l : Line) :
  well_formed l = true -> tokenize (render l) = l.
Proof.
  destruct l as [sep items]. unfold well_formed, render. cbn [fst snd].
  intros H. apply andb_true_iff in H as [Hsep Hitems].
  rewrite tokenize_app, (tokenize_items items Hitems).
  rewrite (push_separator sep _ Hsep). cbn [fst snd]. now rewrite app_nil_r.
Qed.

(** *** Pieces of a text *)

Section Slices.
Variable text : list ascii.

Lemma slice_length (i j : nat) :
  j <= List.length text -> List.length (slice text i j) = j - i.
Proof. intros Hj. unfold slice. rewrite length_firstn, length_skipn. lia. Qed.

Lemma nth_error_slice (i j k : nat) :
  k < j - i -> nth_error (slice text i j) k = nth_error text (i + k).
Proof.
  intros Hk. unfold slice. rewrite nth_error_firstn.
  replace (k <? j - i)%nat with true by (symmetry; apply Nat.ltb_lt; lia).
  apply nth_error_skipn.
Qed.

Lemma slice_app (i j k : nat) :
  i <= j <= k -> (slice text i j ++ slice text j k)%list = slice text i k.
Proof.
  intros Hijk. unfold slice.
  rewrite <- (firstn_skipn (j - i) (firstn (k - i) (skipn i text))).
  rewrite firstn_firstn, skipn_firstn_comm, skipn_skipn.
  replace (Nat.min (j - i) (k - i)) with (j - i) by lia.
  replace (k - i - (j - i)) with (k - j) by lia.
  now replace (j - i + i) with j by lia.
Qed.

Lemma slice_nil (i j : nat) : j <= i -> slice text i j = [].
Proof. intros H. unfold slice. now replace (j - i) with 0 by lia. Qed.

Lemma slice_to_end (i : nat) :
  slice text i (List.length text) = skipn i text.
Proof. unfold slice. apply firstn_all2. rewrite length_skipn. lia. Qed.

Lemma skipn_cons (i : nat) (c : ascii) :
  nth_error text i = Some c -> skipn i text = c :: skipn (S i) text.
Proof.
  revert i. induction text as [|x l IH]; intros i H; [now destruct i|].
  destruct i as [|i]; [cbn in H; now injection H as -> |].
  cbn [nth_error] in H. cbn [skipn]. now apply IH.
Qed.

Lemma slice_cons (i j : nat) (c : ascii) :
  nth_error text i = Some c -> i < j ->
  slice text i j = c :: slice text (S i) j.
Proof.
  intros Hc Hij. unfold slice. rewrite (skipn_cons i c Hc).
  replace (j - i) with (S (j - S i)) by lia. reflexivity.
Qed.

Lemma forallb_slice (P : ascii -> bool) (j : nat) :
  forall i,
    (forall k, i <= k < j ->
               exists c, nth_error text k = Some c /\ P c = true) ->
    forallb P (slice text i j) = true.
Proof.
  intros i. remember (j - i) as n eqn:En. revert i En.
  induction n as [|n IH]; intros i En Hclass.
  - rewrite slice_nil by lia. reflexivity.
  - destruct (Hclass i) as (c & Hc & Hp); [lia|].
    rewrite (slice_cons i j c Hc) by lia. cbn [forallb]. rewrite Hp.
    apply IH; [lia|]. intros k Hk. apply Hclass. lia.
Qed.

Lemma slice_literal (s : list ascii) :
  forall i, literal_at text s i = true ->
            slice text i (i + List.length s) = s.
Proof.
  induction s as [|c s IH]; intros i H.
  - apply slice_nil. cbn [List.length]. lia.
  - cbn [literal_at] in H.
    destruct (nth_error text i) as [d|] eqn:Ed; [|discriminate].
    apply andb_true_iff in H as [Hc Hs]. apply Ascii.eqb_eq in Hc as <-.
    rewrite (slice_cons i _ c Ed) by (cbn [List.length]; lia).
    f_equal. cbn [List.length].
    replace (i + S (List.length s)) with (S i + List.length s) by lia.
    now apply IH.
Qed.

Lemma literal_of_slice (s : list ascii) (i : nat) :
  slice text i (i + List.length s) = s ->
  literal_at text s i = true.
Proof.
  intros E. apply literal_at_intro. intros k c Hk.
  assert (Hlt : k < List.length s) by (apply nth_error_Some; now rewrite Hk).
  rewrite <- (nth_error_slice i (i + List.length s) k) by lia.
  now rewrite E.
Qed.

End Slices.

Lemma slice_middle (front mid back : list ascii) :
  slice (front ++ mid ++ back) (List.length front)
        (List.length front + List.length mid)
  = mid.
Proof.
  unfold slice. rewrite skipn_app, skipn_all, Nat.sub_diag. cbn [skipn app].
  replace (List.length front + List.length mid - List.length front)
    with (List.length mid) by lia.
  rewrite firstn_app, firstn_all, Nat.sub_diag. cbn [firstn].
  apply app_nil_r.
Qed.

Lemma nth_error_middle (front mid back : list ascii) (k : nat) :
  k < List.length mid ->
  nth_error (front ++ mid ++ back) (List.length front + k) = nth_error mid k.
Proof.
  intros Hk. rewrite nth_error_app2 by lia.
  replace (List.length front + k - List.length front) with k by lia.
  now rewrite nth_error_app1.
Qed.

(** The characters of a stretch all have the property of the stretch. *)
Lemma stretch (P : ascii -> bool) (front mid back : list ascii) (k : nat) :
  forallb P mid = true ->
  List.length front <= k < List.length front + List.length mid ->
  exists c, nth_error (front ++ mid ++ back) k = Some c /\ P c = true.
Proof.
  intros HP Hk.
  replace k with (List.length front + (k - List.length front)) by lia.
  rewrite nth_error_middle by lia.
  destruct (nth_error mid (k - List.length front)) as [c|] eqn:E.
  - exists c. split; [reflexivity|]. rewrite forallb_forall in HP.
    apply HP. eapply nth_error_In; eassumption.
  - apply nth_error_None in E. lia.
Qed.

(** *** Occurrences *)

Lemma occurrence_app (member : string) (base : list ascii) :
  occurrence member (base ++ "."%char :: list_ascii_of_string member)
  = accepted_base (string_of_list_ascii base).
Proof.
  unfold occurrence, accesses, base_of.
  rewrite length_app. cbn [List.length]. rewrite length_list_of.
  replace (List.length base + S (String.length member)
           - S (String.length member)) with (List.length base) by lia.
  rewrite skipn_app, skipn_all, Nat.sub_diag. cbn [skipn app].
  rewrite firstn_app, firstn_all, Nat.sub_diag. cbn [firstn].
  rewrite app_nil_r. cbn [string_of_list_ascii].
  rewrite string_of_list_ascii_of_string, String.eqb_refl.
  replace (S (String.length member)
           <=? List.length base + S (String.length member))%nat
    with true by (symmetry; apply Nat.leb_le; lia).
  reflexivity.
Qed.

Lemma accesses_inv (member : string) (path : list ascii) :
  accesses member path = true ->
  path = (list_ascii_of_string (base_of member path)
          ++ "."%char :: list_ascii_of_string member)%list.
Proof.
  unfold accesses, base_of. intros H. apply andb_true_iff in H as [_ H].
  apply String.eqb_eq in H.
  rewrite list_ascii_of_string_of_list_ascii.
  rewrite <- (firstn_skipn (List.length path - S (String.length member)) path)
    at 1.
  f_equal.
  rewrite <- (list_ascii_of_string_of_list_ascii
                (skipn (List.length path - S (String.length member)) path)).
  now rewrite H.
Qed.


(** *** A match is an occurrence between two boundaries *)

Section Matches.
Variable text : list ascii.
Variable member : string.
Hypothesis Hmember : is_identifier member = true.

Lemma member_ident :
  forallb is_ident_dot (list_ascii_of_string member) = true.
Proof.
  unfold is_identifier in Hmember.
  apply andb_true_iff in Hmember as [_ Hall].
  rewrite forallb_forall in Hall |- *. intros x Hx.
  now apply Hall, andb_true_iff in Hx as [Hx _].
Qed.

(** The characters a starred bracket passes over are of the bracket. *)
Lemma iterate_bracket_inv (negated : bool) (items : list item) (fuel : nat) :
  forall i j caps caps',
    In (j, caps')
       (iterate (run text (Bracket negated items)) fuel i caps) ->
    forall k, i <= k < j ->
              exists c, nth_error text k = Some c
                        /\ in_bracket negated items c = true.
Proof.
  induction fuel as [|fuel IH]; intros i j caps caps' H k Hk.
  - cbn [iterate] in H. destruct H as [H|[]]. injection H as <- _. lia.
  - cbn [iterate] in H. apply in_app_or in H as [H|[H|[]]].
    + apply in_flat_map in H as ([j1 c1] & H1 & H).
      apply bracket_inv in H1 as (-> & -> & c & Hc & Hb).
      cbn [fst snd] in H.
      destruct (Nat.ltb i (S i)); [|easy].
      destruct (Nat.eq_dec k i) as [->|Hne]; [now exists c|].
      apply (IH _ _ _ _ H). lia.
    + injection H as <- _. lia.
Qed.

Lemma base_name_shape (i j : nat) (caps caps' : Captures) :
  In (j, caps') (run text base_name i caps) ->
  (exists c, nth_error text i = Some c
             /\ in_bracket false first_char c = true)
  /\ i < j
  /\ (S i < j -> exists d, nth_error text (S i) = Some d
                          /\ in_bracket false second_char d = true)
  /\ (forall k, S (S i) <= k < j ->
                exists d, nth_error text k = Some d
                          /\ is_ident_dot d = true).
Proof.
  unfold base_name. rewrite run_seq. intros H.
  apply in_flat_map in H as ([j1 c1] & H1 & H).
  apply bracket_inv in H1 as (-> & -> & Hc). split; [exact Hc|].
  cbn [fst snd] in H. rewrite run_opt in H.
  apply in_app_or in H as [H|[H|[]]].
  - rewrite run_group in H. apply in_map_iff in H as ([j2 c2] & E & H).
    cbn [fst snd] in E. injection E as <- _.
    rewrite run_seq in H. apply in_flat_map in H as ([j3 c3] & H3 & H).
    apply bracket_inv in H3 as (-> & -> & Hd). cbn [fst snd] in H.
    rewrite run_star in H.
    pose proof H as Hge. apply iterate_ge in Hge.
    split; [lia|]. split; [now intros _|].
    intros k Hk. now apply (iterate_bracket_inv _ _ _ _ _ _ _ H).
  - injection H as <- _. split; [lia|]. split; intros; lia.
Qed.

(** What a match of the pattern is made of, in full. *)
Lemma generic_match_parts (i e : nat) (caps : Captures) :
  In (e, caps) (run text (generic_pattern member) i []) ->
  exists j1 jd,
    ((j1 = S i /\ exists p, nth_error text i = Some p
                            /\ is_ident_dot p = false)
     \/ (j1 = i /\ i = 0))
    /\ (exists c, nth_error text j1 = Some c
                  /\ in_bracket false first_char c = true)
    /\ j1 < jd
    /\ (S j1 < jd -> exists d, nth_error text (S j1) = Some d
                              /\ in_bracket false second_char d = true)
    /\ (forall k, S (S j1) <= k < jd ->
                  exists d, nth_error text k = Some d
                            /\ is_ident_dot d = true)
    /\ nth_error text jd = Some "."%char
    /\ literal_at text (list_ascii_of_string member) (S jd) = true
    /\ ((e = S (S jd + String.length member)
         /\ exists p, nth_error text (S jd + String.length member) = Some p
                      /\ is_ident_dot p = false)
        \/ (e = S jd + String.length member
            /\ S jd + String.length member = List.length text))
    /\ capture 1 caps = Some (i, j1)
    /\ capture 3 caps = Some (S jd + String.length member, e).
Proof.
  unfold generic_pattern. rewrite run_seq. intros H.
  apply in_flat_map in H as ([j1 c1] & H1 & H).
  apply leading_boundary_inv in H1 as [-> Hlead]. cbn [fst snd] in H.
  rewrite run_seq in H. apply in_flat_map in H as ([j2 c2] & H2 & H).
  pose proof (base_name_inv _ _ _ _ _ H2) as [_ Hc2].
  apply base_name_shape in H2 as (Hfirst & Hlt & Hsecond & Hrest).
  cbn [fst snd] in H. rewrite run_seq in H.
  apply in_flat_map in H as ([j3 c3] & H3 & H).
  cbn [run literal_at] in H3.
  destruct (nth_error text j2) as [d|] eqn:Ed; [|easy].
  destruct (Ascii.eqb_spec "."%char d) as [<-|]; [|easy].
  cbn [andb] in H3. destruct H3 as [E|[]]. injection E as <- <-.
  cbn [fst snd] in H. rewrite run_seq in H.
  apply in_flat_map in H as ([j4 c4] & H4 & H).
  cbn [run] in H4.
  destruct (literal_at text (list_ascii_of_string member) (S j2)) eqn:El;
    [|easy].
  destruct H4 as [E|[]]. injection E as <- <-. cbn [fst snd] in H.
  apply trailing_boundary_inv in H as [-> Htrail].
  exists j1, j2.
  split; [exact Hlead|]. split; [exact Hfirst|]. split; [exact Hlt|].
  split; [exact Hsecond|]. split; [exact Hrest|]. split; [exact Ed|].
  split; [exact El|]. split; [exact Htrail|].
  split; [|cbn [capture Nat.eqb]; reflexivity].
  destruct Hc2 as [->|[span ->]]; reflexivity.
Qed.

(** Putting the parts together, at any place of the text. *)
Lemma generic_match_at (i j1 jd e : nat) (c : ascii) :
  ((j1 = S i /\ exists p, nth_error text i = Some p
                          /\ is_ident_dot p = false)
   \/ (j1 = i /\ i = 0)) ->
  nth_error text j1 = Some c -> in_bracket false first_char c = true ->
  j1 < jd -> jd <= List.length text ->
  (S j1 < jd -> exists d, nth_error text (S j1) = Some d
                         /\ in_bracket false second_char d = true) ->
  (forall k, S (S j1) <= k < jd ->
             exists d, nth_error text k = Some d /\ is_ident_dot d = true) ->
  nth_error text jd = Some "."%char ->
  literal_at text (list_ascii_of_string member) (S jd) = true ->
  ((e = S (S jd + String.length member)
    /\ exists p, nth_error text (S jd + String.length member) = Some p
                 /\ is_ident_dot p = false)
   \/ (e = S jd + String.length member /\ e = List.length text)) ->
  exists caps, In (e, caps) (run text (generic_pattern member) i []).
Proof.
  intros Hlead Hc Hfirst Hj1 Hjd Hsecond Hrest Hdot Hlit Htrail.
  destruct (base_name_intro text j1 jd [(1, (i, j1))] c Hc Hfirst Hj1 Hjd
                            Hsecond Hrest) as [caps2 Hbase].
  exists ((3, (S jd + String.length member, e)) :: caps2).
  unfold generic_pattern. rewrite run_seq. apply in_flat_map.
  exists (j1, [(1, (i, j1))]). split.
  { rewrite run_group, run_alt. apply in_map_iff.
    exists (j1, []). split; [reflexivity|]. apply in_or_app.
    destruct Hlead as [[-> (p & Hp & Hb)]|[-> ->]].
    - left. rewrite (bracket_intro text true ident_dot i [] p Hp);
        [now left|].
      unfold is_ident_dot, in_bracket in *. simpl xorb in *. now rewrite Hb.
    - right. now left. }
  cbn [fst snd]. rewrite run_seq. apply in_flat_map.
  exists (jd, caps2). split; [exact Hbase|].
  cbn [fst snd]. rewrite run_seq. apply in_flat_map.
  exists (S jd, caps2). split.
  { cbn [run literal_at]. rewrite Hdot, Ascii.eqb_refl. now left. }
  cbn [fst snd]. rewrite run_seq. apply in_flat_map.
  exists (S jd + String.length member, caps2). split.
  { cbn [run]. rewrite Hlit. now left. }
  cbn [fst snd]. rewrite run_group, run_alt. apply in_map_iff.
  exists (e, caps2). split; [reflexivity|]. apply in_or_app.
  destruct Htrail as [[-> (p & Hp & Hb)]|[-> Hend]].
  - left. rewrite (bracket_intro text true ident_dot _ caps2 p Hp);
      [now left|].
    unfold is_ident_dot, in_bracket in *. simpl xorb in *. now rewrite Hb.
  - right. cbn [run]. rewrite Hend, Nat.eqb_refl. now left.
Qed.

(** A match takes a whole path, an occurrence, with the boundary in
    front of it and the boundary behind. *)
Lemma match_is_occurrence (i e : nat) (caps : Captures) :
  In (e, caps) (run text (generic_pattern member) i []) ->
  exists j1 j3,
    ((j1 = S i /\ exists p, nth_error text i = Some p
                            /\ is_ident_dot p = false)
     \/ (j1 = i /\ i = 0))
    /\ j1 < j3 <= List.length text
    /\ (forall k, j1 <= k < j3 ->
                  exists c, nth_error text k = Some c
                            /\ is_ident_dot c = true)
    /\ ((e = S j3 /\ exists p, nth_error text j3 = Some p
                               /\ is_ident_dot p = false)
        \/ (e = j3 /\ j3 = List.length text))
    /\ occurrence member (slice text j1 j3) = true
    /\ capture 1 caps = Some (i, j1)
    /\ capture 3 caps = Some (j3, e).
Proof.
  intros H.
  apply generic_match_parts in H
    as (j1 & jd & Hlead & (c & Hc & Hfirst) & Hlt & Hsecond & Hrest & Hdot
        & Hlit & Htrail & Hcap1 & Hcap3).
  assert (Hj3 : S jd + String.length member <= List.length text).
  { destruct Htrail as [[_ (p & Hp & _)]|[_ Hend]]; [|lia].
    apply Nat.lt_le_incl, nth_error_Some. now rewrite Hp. }
  exists j1, (S jd + String.length member).
  split; [exact Hlead|]. split; [lia|]. split.
  { intros k Hk.
    destruct (Nat.eq_dec k j1) as [->|Hk1].
    { exists c. split; [exact Hc | now apply first_char_is_ident_dot]. }
    destruct (Nat.lt_ge_cases k jd) as [Hkd|Hkd].
    { destruct (Nat.eq_dec k (S j1)) as [->|Hk2].
      - destruct Hsecond as (d & Hd & Hdb); [lia|].
        exists d. split; [exact Hd | now apply second_char_is_ident_dot].
      - apply Hrest. lia. }
    destruct (Nat.eq_dec k jd) as [->|Hk3];
      [exists "."%char; now split|].
    destruct (nth_error (list_ascii_of_string member) (k - S jd))
      as [x|] eqn:Ex.
    - exists x. split.
      + replace k with (S jd + (k - S jd)) by lia.
        now apply (literal_at_elim text _ _ Hlit).
      + pose proof member_ident as Hm. rewrite forallb_forall in Hm.
        apply Hm. eapply nth_error_In; eassumption.
    - apply nth_error_None in Ex. rewrite length_list_of in Ex. lia. }
  split; [exact Htrail|]. split; [|split; assumption].
  rewrite <- (slice_app text j1 jd (S jd + String.length member)) by lia.
  rewrite (slice_cons text jd _ "."%char Hdot) by lia.
  replace (slice text (S jd) (S jd + String.length member))
    with (list_ascii_of_string member)
    by (symmetry; rewrite <- (length_list_of member);
        now apply slice_literal).
  rewrite occurrence_app, (slice_cons text j1 jd c Hc Hlt).
  cbn [string_of_list_ascii accepted_base]. rewrite Hfirst. cbn [andb].
  destruct (Nat.eq_dec jd (S j1)) as [->|Hne].
  - rewrite slice_nil by lia. reflexivity.
  - destruct Hsecond as (d & Hd & Hdb); [lia|].
    rewrite (slice_cons text (S j1) jd d Hd) by lia.
    cbn [string_of_list_ascii]. rewrite Hdb. cbn [andb].
    rewrite list_ascii_of_string_of_list_ascii.
    now apply forallb_slice.
Qed.

(** An occurrence between two boundaries is a match. *)
Lemma occurrence_is_match (i j1 j3 e : nat) :
  ((j1 = S i /\ exists p, nth_error text i = Some p
                          /\ is_ident_dot p = false)
   \/ (j1 = i /\ i = 0)) ->
  j3 <= List.length text ->
  occurrence member (slice text j1 j3) = true ->
  ((e = S j3 /\ exists p, nth_error text j3 = Some p
                          /\ is_ident_dot p = false)
   \/ (e = j3 /\ j3 = List.length text)) ->
  exists caps, In (e, caps) (run text (generic_pattern member) i []).
Proof.
  intros Hlead Hj3 Hocc Htrail. unfold occurrence in Hocc.
  apply andb_true_iff in Hocc as [Hacc Hbase].
  pose proof (accesses_inv _ _ Hacc) as Epath.
  remember (base_of member (slice text j1 j3)) as base eqn:Ebase.
  clear Ebase Hacc.
  assert (Hlen : j3 - j1
                 = String.length base + S (String.length member)).
  { rewrite <- (slice_length text j1 j3 Hj3), Epath, length_app.
    cbn [List.length]. now rewrite !length_list_of. }
  assert (Hnth : forall k,
             k < j3 - j1 ->
             nth_error text (j1 + k)
             = nth_error (list_ascii_of_string base
                          ++ "."%char :: list_ascii_of_string member) k).
  { intros k Hk. rewrite <- Epath. symmetry. now apply nth_error_slice. }
  destruct base as [|c rest]; [discriminate|].
  cbn [accepted_base] in Hbase. apply andb_true_iff in Hbase as [Hc Hrest].
  cbn [String.length] in Hlen.
  apply (generic_match_at i j1 (j1 + S (String.length rest)) e c).
  - exact Hlead.
  - rewrite <- (Nat.add_0_r j1), Hnth by lia. reflexivity.
  - exact Hc.
  - lia.
  - lia.
  - intros Hlong. destruct rest as [|d rest'];
      [cbn [String.length] in Hlong; lia|].
    apply andb_true_iff in Hrest as [Hd _]. exists d. split; [|exact Hd].
    replace (S j1) with (j1 + 1) by lia.
    rewrite Hnth by (cbn [String.length] in Hlen; lia). reflexivity.
  - intros k Hk. destruct rest as [|d rest'];
      [cbn [String.length] in Hk; lia|].
    apply andb_true_iff in Hrest as [_ Hrest].
    cbn [String.length] in Hk, Hlen.
    replace k with (j1 + S (S (k - S (S j1)))) by lia.
    rewrite Hnth by lia. cbn [list_ascii_of_string app nth_error].
    rewrite nth_error_app1 by (rewrite length_list_of; lia).
    destruct (nth_error (list_ascii_of_string rest') (k - S (S j1)))
      as [x|] eqn:Ex.
    + exists x. split; [reflexivity|]. rewrite forallb_forall in Hrest.
      apply Hrest. eapply nth_error_In; eassumption.
    + apply nth_error_None in Ex. rewrite length_list_of in Ex. lia.
  - rewrite Hnth by lia.
    rewrite nth_error_app2 by (cbn [list_ascii_of_string List.length];
                               rewrite length_list_of; lia).
    cbn [list_ascii_of_string List.length]. rewrite length_list_of.
    now rewrite Nat.sub_diag.
  - apply literal_at_intro. intros k x Hk.
    assert (Hlt : k < String.length member).
    { rewrite <- length_list_of. apply nth_error_Some. now rewrite Hk. }
    replace (S (j1 + S (String.length rest)) + k)
      with (j1 + (S (String.length rest) + S k)) by lia.
    rewrite Hnth by lia.
    rewrite nth_error_app2 by (cbn [list_ascii_of_string List.length];
                               rewrite length_list_of; lia).
    cbn [list_ascii_of_string List.length]. rewrite length_list_of.
    replace (S (String.length rest) + S k - S (String.length rest))
      with (S k) by lia.
    exact Hk.
  - replace (S (j1 + S (String.length rest)) + String.length member)
      with j3 by lia.
    destruct Htrail as [[-> Hp]|[-> Hend]]; [now left | now right].
Qed.

End Matches.

(** *** The loop of the [g] flag over a line *)

Lemma no_results {A : Type} (l : list A) :
  (forall x, In x l -> False) -> l = [].
Proof. destruct l as [|x l]; [reflexivity|]. intros H. elim (H x). now left. Qed.

Lemma chars_of_cons (path sep : list ascii) (rest : Items) :
  chars_of ((path, sep) :: rest) = (path ++ sep ++ chars_of rest)%list.
Proof. unfold chars_of. cbn [flat_map fst snd]. now rewrite <- app_assoc. Qed.

Section Loop.
Variable text : list ascii.
Variables member qual_name : string.
Hypothesis Hmember : is_identifier member = true.

Lemma search_skip (r : regex) (a' : nat) :
  forall a,
    (forall k, a <= k < a' -> run text r k [] = []) ->
    a <= a' <= List.length text ->
    search text r a = search text r a'.
Proof.
  intros a. remember (a' - a) as n eqn:En. revert a En.
  induction n as [|n IH]; intros a En Hnone Ha.
  - now replace a' with a by lia.
  - unfold search at 1.
    replace (List.length text - a) with (S (List.length text - S a)) by lia.
    cbn [search_from]. rewrite Hnone by lia. cbn [longest].
    apply (IH (S a)); [lia| |lia]. intros k Hk. apply Hnone. lia.
Qed.

Lemma search_nothing (r : regex) (a : nat) :
  (forall k, a <= k -> run text r k [] = []) -> search text r a = None.
Proof.
  intros Hnone. unfold search. generalize (List.length text - a) as n.
  intros n. revert a Hnone. induction n as [|n IH]; intros a Hnone;
    cbn [search_from]; rewrite Hnone by lia; cbn [longest]; [reflexivity|].
  apply IH. intros k Hk. apply Hnone. lia.
Qed.

(** Where nothing matches, the text is copied. *)
Lemma skip_unmatched (fuel a a' : nat) :
  (forall k, a <= k < a' -> run text (generic_pattern member) k [] = []) ->
  a <= a' <= List.length text ->
  substitute_from text (generic_command member qual_name) (S fuel) a
  = (slice text a a'
     ++ substitute_from text (generic_command member qual_name) (S fuel) a')%list.
Proof.
  intros Hnone Ha. rewrite !substitute_from_S.
  replace (List.length text <? a)%nat with false
    by (symmetry; apply Nat.ltb_ge; lia).
  replace (List.length text <? a')%nat with false
    by (symmetry; apply Nat.ltb_ge; lia).
  cbn [pattern generic_command].
  rewrite (search_skip _ a' a Hnone Ha).
  destruct (search text (generic_pattern member) a')
    as [[s [e caps]]|] eqn:E.
  - unfold search in E. apply search_from_ge in E.
    rewrite <- (slice_app text a a' s) by lia. now rewrite <- app_assoc.
  - rewrite <- !slice_to_end. symmetry. apply slice_app. lia.
Qed.

(** No match starts at a character that is followed by a boundary. *)
Lemma no_match_before_boundary (k : nat) :
  (forall c, nth_error text k = Some c -> is_ident_dot c = false) ->
  (forall c, nth_error text (S k) = Some c -> is_ident_dot c = false) ->
  run text (generic_pattern member) k [] = [].
Proof.
  intros Hk HSk. apply no_results. intros [e caps] Hin.
  apply generic_match_start in Hin as (j & c & Hc & Hfirst & Hlead).
  apply first_char_is_ident_dot in Hfirst.
  destruct Hlead as [[-> _]|[-> _]].
  - rewrite (HSk c Hc) in Hfirst. discriminate.
  - rewrite (Hk c Hc) in Hfirst. discriminate.
Qed.

(** No match starts inside a path. *)
Lemma no_match_inside_path (k : nat) :
  0 < k ->
  (forall c, nth_error text k = Some c -> is_ident_dot c = true) ->
  run text (generic_pattern member) k [] = [].
Proof.
  intros Hpos Hk. apply no_results. intros [e caps] Hin.
  apply generic_match_start in Hin as (j & c & _ & _ & Hlead).
  destruct Hlead as [[_ (p & Hp & Hb)]|[_ ->]]; [|lia].
  rewrite (Hk p Hp) in Hb. discriminate.
Qed.

(** A match that starts in front of a path takes that path. *)
Lemma match_at_path (i j1 j3 e : nat) (caps : Captures) :
  ((j1 = S i /\ exists p, nth_error text i = Some p
                          /\ is_ident_dot p = false)
   \/ (j1 = i /\ i = 0)) ->
  j1 < j3 <= List.length text ->
  (forall k, j1 <= k < j3 ->
             exists c, nth_error text k = Some c /\ is_ident_dot c = true) ->
  (forall c, nth_error text j3 = Some c -> is_ident_dot c = false) ->
  In (e, caps) (run text (generic_pattern member) i []) ->
  occurrence member (slice text j1 j3) = true
  /\ ((e = S j3 /\ j3 < List.length text)
      \/ (e = j3 /\ j3 = List.length text))
  /\ capture 1 caps = Some (i, j1)
  /\ capture 3 caps = Some (j3, e).
Proof.
  intros Hlead Hj Hpath Hend Hin.
  apply (match_is_occurrence text member Hmember) in Hin
    as (j1' & j3' & Hlead' & Hj' & Hpath' & Htrail & Hocc & Hcap1 & Hcap3).
  assert (E1 : j1' = j1).
  { destruct Hlead as [[-> (p & Hp & Hb)]|[-> ->]];
      destruct Hlead' as [[-> (p' & Hp' & Hb')]|[-> Hi]]; try reflexivity.
    - exfalso. destruct (Hpath' i) as (c & Hc & Hci); [lia|].
      rewrite Hp in Hc. injection Hc as <-. now rewrite Hb in Hci.
    - exfalso. destruct (Hpath 0) as (c & Hc & Hci); [lia|].
      rewrite Hp' in Hc. injection Hc as <-. now rewrite Hb' in Hci. }
  subst j1'.
  assert (E3 : j3' = j3).
  { destruct (Nat.lt_trichotomy j3' j3) as [Hlt|[E|Hgt]]; [exfalso|exact E|exfalso].
    - destruct (Hpath j3') as (c & Hc & Hci); [lia|].
      destruct Htrail as [[_ (p & Hp & Hb)]|[_ Hlen]]; [|lia].
      rewrite Hp in Hc. injection Hc as <-. now rewrite Hb in Hci.
    - destruct (Hpath' j3) as (c & Hc & Hci); [lia|].
      now rewrite (Hend c Hc) in Hci. }
  subst j3'. split; [exact Hocc|]. split; [|split; assumption].
  destruct Htrail as [[-> (p & Hp & _)]|[-> Hlen]]; [left | now right].
  split; [reflexivity|]. apply nth_error_Some. now rewrite Hp.
Qed.

(** One path of the line, with what stands around it. *)
Section Step.
Variables done sep path after tail : list ascii.
Hypothesis Htext : text = (done ++ sep ++ path ++ after ++ tail)%list.
Hypothesis Hsep : forallb (fun c => negb (is_ident_dot c)) sep = true.
Hypothesis Hne : path <> [].
Hypothesis Hpath : forallb is_ident_dot path = true.
Hypothesis Hafter : forallb (fun c => negb (is_ident_dot c)) after = true.
Hypothesis Htail : after <> [] \/ tail = [].

Lemma step_length :
  List.length text
  = List.length done + List.length sep + List.length path
    + List.length after + List.length tail.
Proof. rewrite Htext, !length_app. lia. Qed.

Lemma path_length : 0 < List.length path.
Proof. destruct path; [now elim Hne | cbn [List.length]; lia]. Qed.

Lemma step_sep (k : nat) :
  List.length done <= k < List.length done + List.length sep ->
  exists x, nth_error text k = Some x /\ is_ident_dot x = false.
Proof.
  intros Hk. rewrite Htext.
  destruct (stretch _ done sep (path ++ after ++ tail) k Hsep Hk)
    as (x & Hx & Hb).
  exists x. split; [exact Hx | now apply negb_true_iff].
Qed.

Lemma step_path (k : nat) :
  List.length done + List.length sep <= k
  < List.length done + List.length sep + List.length path ->
  exists x, nth_error text k = Some x /\ is_ident_dot x = true.
Proof.
  intros Hk. rewrite Htext, app_assoc.
  apply stretch; [exact Hpath|]. rewrite length_app. lia.
Qed.

Lemma step_end (x : ascii) :
  nth_error text (List.length done + List.length sep + List.length path)
  = Some x ->
  is_ident_dot x = false.
Proof.
  rewrite Htext, !app_assoc, <- (app_assoc _ after tail).
  replace (List.length done + List.length sep + List.length path)
    with (List.length ((done ++ sep) ++ path)) by (rewrite !length_app; lia).
  rewrite nth_error_app2, Nat.sub_diag by lia.
  destruct after as [|y rest] eqn:E.
  - destruct Htail as [H| ->]; [now elim H | discriminate].
  - cbn [app nth_error]. intros H. injection H as <-.
    cbn [forallb] in Hafter. apply andb_true_iff in Hafter as [Hy _].
    now apply negb_true_iff.
Qed.

Lemma step_slice_sep :
  slice text (List.length done) (List.length done + List.length sep) = sep.
Proof. rewrite Htext. apply slice_middle. Qed.

Lemma step_slice_path :
  slice text (List.length done + List.length sep)
        (List.length done + List.length sep + List.length path)
  = path.
Proof.
  rewrite Htext, app_assoc, <- (length_app done sep). apply slice_middle.
Qed.

Lemma step_slice_after :
  slice text (List.length done + List.length sep + List.length path)
        (List.length done + List.length sep + List.length path
         + List.length (firstn 1 after))
  = firstn 1 after.
Proof.
  rewrite <- (firstn_skipn 1 after) in Htext at 1.
  rewrite Htext, !app_assoc, <- !(app_assoc _ (skipn 1 after) tail).
  rewrite <- (app_assoc _ (firstn 1 after)).
  replace (List.length done + List.length sep + List.length path)
    with (List.length ((done ++ sep) ++ path)) by (rewrite !length_app; lia).
  apply slice_middle.
Qed.

(** What stands behind the path: the end of the line, or a boundary. *)
Lemma after_cases :
  (firstn 1 after = []
   /\ List.length done + List.length sep + List.length path
      = List.length text)
  \/ (exists y,
         firstn 1 after = [y]
         /\ nth_error text
              (List.length done + List.length sep + List.length path + 0)
            = Some y
         /\ is_ident_dot y = false).
Proof.
  pose proof step_length as Hlen.
  destruct after as [|y rest] eqn:E.
  - left. split; [reflexivity|].
    destruct Htail as [H| ->]; [now elim H|].
    cbn [List.length] in Hlen. lia.
  - right. exists y. split; [reflexivity|]. split.
    + rewrite Htext, !app_assoc, <- (app_assoc _ (y :: rest) tail).
      replace (List.length done + List.length sep + List.length path + 0)
        with (List.length ((done ++ sep) ++ path))
        by (rewrite !length_app; lia).
      now rewrite nth_error_app2, Nat.sub_diag by lia.
    + cbn [forallb] in Hafter. apply andb_true_iff in Hafter as [Hy _].
      now apply negb_true_iff.
Qed.

(** A match in front of the path, if the path is an occurrence. *)
Lemma step_match (i e : nat) (caps : Captures) :
  ((List.length done + List.length sep = S i
    /\ exists p, nth_error text i = Some p /\ is_ident_dot p = false)
   \/ (List.length done + List.length sep = i /\ i = 0)) ->
  In (e, caps) (run text (generic_pattern member) i []) ->
  occurrence member path = true
  /\ e = List.length done + List.length sep + List.length path
         + List.length (firstn 1 after)
  /\ capture 1 caps = Some (i, List.length done + List.length sep)
  /\ capture 3 caps
     = Some (List.length done + List.length sep + List.length path, e).
Proof.
  intros Hlead Hin. pose proof step_length as Hlen.
  pose proof path_length as Hp.
  apply (match_at_path i (List.length done + List.length sep)
           (List.length done + List.length sep + List.length path))
    in Hin as (Hocc & He & Hcap1 & Hcap3).
  - rewrite step_slice_path in Hocc. split; [exact Hocc|].
    split; [|now split].
    destruct after as [|y rest] eqn:E; cbn [firstn List.length] in *.
    + destruct Htail as [H| ->]; [now elim H|].
      cbn [List.length] in Hlen. lia.
    + lia.
  - exact Hlead.
  - lia.
  - apply step_path.
  - apply step_end.
Qed.

Lemma step_kept (fuel : nat) :
  occurrence member path
  && negb (Nat.eqb (List.length sep) 0 && negb (Nat.eqb (List.length done) 0))
  = false ->
  substitute_from text (generic_command member qual_name) (S fuel)
                  (List.length done)
  = (sep ++ path
     ++ substitute_from text (generic_command member qual_name) (S fuel)
          (List.length done + List.length sep + List.length path))%list.
Proof.
  intros Hkept. pose proof step_length as Hlen.
  pose proof path_length as Hp.
  rewrite (skip_unmatched fuel (List.length done)
             (List.length done + List.length sep + List.length path));
    [|
     |lia].
  - rewrite <- (slice_app text _ (List.length done + List.length sep)) by lia.
    now rewrite step_slice_sep, step_slice_path, <- app_assoc.
  - intros k Hk.
    destruct (Nat.lt_ge_cases (S k) (List.length done + List.length sep))
      as [Hin|Hout].
    { apply no_match_before_boundary; intros c Hc.
      - destruct (step_sep k) as (x & Hx & Hb); [lia|]. congruence.
      - destruct (step_sep (S k)) as (x & Hx & Hb); [lia|]. congruence. }
    destruct (Nat.eq_dec (S k) (List.length done + List.length sep))
      as [Elast|Hpathk].
    { apply no_results. intros [e caps] Hmatch.
      apply (step_match k) in Hmatch as (Hocc & _).
      - rewrite Hocc in Hkept. cbn [andb] in Hkept.
        apply negb_false_iff, andb_true_iff in Hkept as [Hnil _].
        apply Nat.eqb_eq in Hnil. lia.
      - left. split; [now symmetry|].
        destruct (step_sep k) as (x & Hx & Hb); [lia|]. now exists x. }
    destruct (Nat.eq_dec k 0) as [->|Hpos].
    { apply no_results. intros [e caps] Hmatch.
      apply (step_match 0) in Hmatch as (Hocc & _).
      - rewrite Hocc in Hkept. cbn [andb] in Hkept.
        apply negb_false_iff, andb_true_iff in Hkept as [_ Hdone].
        apply negb_true_iff, Nat.eqb_neq in Hdone. lia.
      - right. split; [lia | reflexivity]. }
    apply no_match_inside_path; [lia|]. intros c Hc.
    destruct (step_path k) as (x & Hx & Hb); [lia|]. congruence.
Qed.

Lemma step_replaced (fuel : nat) :
  occurrence member path = true ->
  Nat.eqb (List.length sep) 0 && negb (Nat.eqb (List.length done) 0) = false ->
  substitute_from text (generic_command member qual_name) (S fuel)
                  (List.length done)
  = (sep ++ list_ascii_of_string qual_name ++ firstn 1 after
     ++ substitute_from text (generic_command member qual_name) fuel
          (List.length done + List.length sep + List.length path
           + List.length (firstn 1 after)))%list.
Proof.
  intros Hocc Hfree. pose proof step_length as Hlen.
  pose proof path_length as Hp.
  assert (Hfirst : List.length (firstn 1 after) <= List.length after)
    by (rewrite length_firstn; lia).
  assert (Hstart : exists i,
             List.length done <= i <= List.length done + List.length sep
             /\ (forall k, List.length done <= k < i ->
                           S k < List.length done + List.length sep)
             /\ ((List.length done + List.length sep = S i
                  /\ exists p, nth_error text i = Some p
                               /\ is_ident_dot p = false)
                 \/ (List.length done + List.length sep = i /\ i = 0))).
  { destruct (Nat.eq_dec (List.length sep) 0) as [Enil|Hsome].
    - rewrite Enil in Hfree. cbn [Nat.eqb andb] in Hfree.
      apply negb_false_iff, Nat.eqb_eq in Hfree.
      exists 0. split; [lia|]. split; [intros k Hk; lia|]. right. lia.
    - exists (List.length done + List.length sep - 1).
      split; [lia|]. split; [intros k Hk; lia|]. left. split; [lia|].
      apply step_sep. lia. }
  destruct Hstart as (i & Hi & Hbefore & Hlead).
  destruct (occurrence_is_match text member i
              (List.length done + List.length sep)
              (List.length done + List.length sep + List.length path)
              (List.length done + List.length sep + List.length path
               + List.length (firstn 1 after)))
    as [caps0 Hin0].
  { exact Hlead. }
  { lia. }
  { now rewrite step_slice_path. }
  { destruct after_cases as [[E Hend]|(y & E & Hy & Hb)]; rewrite E;
      cbn [List.length].
    - right. lia.
    - left. split; [lia|]. exists y. rewrite Nat.add_0_r in Hy.
      now split. }
  destruct (longest_some (run text (generic_pattern member) i []))
    as ([e caps] & Hbest & Hin).
  { intros E. now rewrite E in Hin0. }
  destruct (step_match i e caps Hlead Hin) as (_ & He & Hcap1 & Hcap3).
  rewrite substitute_from_S.
  replace (List.length text <? List.length done)%nat with false
    by (symmetry; apply Nat.ltb_ge; lia).
  cbn [pattern generic_command].
  rewrite (search_skip _ i (List.length done)); [| |lia].
  - unfold search. rewrite (search_from_hit text _ _ _ _ Hbest).
    replace (i =? e)%nat with false by (symmetry; apply Nat.eqb_neq; lia).
    change (replacement (generic_command member qual_name))
      with [Ref 1; Text qual_name; Ref 3].
    cbn [expand flat_map]. rewrite Hcap1, Hcap3, app_nil_r.
    rewrite He at 1. rewrite step_slice_after, <- He.
    rewrite <- !app_assoc.
    rewrite (app_assoc (slice text (List.length done) i)), slice_app by lia.
    now rewrite step_slice_sep.
  - intros k Hk. specialize (Hbefore k Hk).
    apply no_match_before_boundary; intros c Hc.
    + destruct (step_sep k) as (x & Hx & Hb); [lia|]. congruence.
    + destruct (step_sep (S k)) as (x & Hx & Hb); [lia|]. congruence.
Qed.

End Step.

Lemma separator_tail (done sep : list ascii) (k : nat) (c : ascii) :
  text = (done ++ sep)%list ->
  forallb (fun x => negb (is_ident_dot x)) sep = true ->
  List.length done <= k ->
  nth_error text k = Some c -> is_ident_dot c = false.
Proof.
  intros Htext Hsep Hk Hc. rewrite Htext, nth_error_app2 in Hc by exact Hk.
  apply nth_error_In in Hc. rewrite forallb_forall in Hsep.
  now apply negb_true_iff, Hsep.
Qed.

(** The loop, from the end of what it has dealt with. *)
Lemma loop_spec (items : Items) :
  forall (done sep : list ascii) (fuel : nat),
    text = (done ++ sep ++ chars_of items)%list ->
    forallb (fun c => negb (is_ident_dot c)) sep = true ->
    well_formed_items items = true ->
    List.length text < List.length done + fuel ->
    substitute_from text (generic_command member qual_name) fuel
                    (List.length done)
    = (sep
       ++ chars_of
            (rewrite (occurrence member) qual_name
               (Nat.eqb (List.length sep) 0
                && negb (Nat.eqb (List.length done) 0))
               items))%list.
Proof.
  induction items as [|[path after] rest IH];
    intros done sep fuel Htext Hsep Hwf Hfuel.
  - cbn [chars_of flat_map rewrite] in *. rewrite app_nil_r in *.
    assert (Hlen : List.length text = List.length done + List.length sep)
      by (rewrite Htext, length_app; lia).
    destruct fuel as [|fuel]; [lia|]. rewrite substitute_from_S.
    replace (List.length text <? List.length done)%nat with false
      by (symmetry; apply Nat.ltb_ge; lia).
    rewrite search_nothing.
    + rewrite <- slice_to_end, Hlen, Htext.
      rewrite <- (app_nil_r sep) at 1. apply slice_middle.
    + intros k Hk. cbn [pattern generic_command].
      apply no_match_before_boundary; intros c Hc;
        apply (separator_tail done sep _ c Htext Hsep) in Hc;
        (exact Hc || lia).
  - rewrite chars_of_cons in Htext. cbn [well_formed_items] in Hwf.
    apply andb_true_iff in Hwf as [Hwf Hrest].
    apply andb_true_iff in Hwf as [Hwf Hlast].
    apply andb_true_iff in Hwf as [Hwf Hafter].
    apply andb_true_iff in Hwf as [Hne Hpath].
    assert (Hne' : path <> []) by (intros ->; discriminate).
    assert (Htail : after <> [] \/ chars_of rest = []).
    { destruct rest as [|item rest']; [now right|]. left.
      intros ->. discriminate. }
    assert (Hlen : List.length text
                   = List.length done + List.length sep + List.length path
                     + List.length after + List.length (chars_of rest))
      by (rewrite Htext, !length_app; lia).
    destruct fuel as [|fuel]; [lia|].
    cbn [rewrite].
    destruct (occurrence member path
              && negb (Nat.eqb (List.length sep) 0
                       && negb (Nat.eqb (List.length done) 0))) eqn:Hcase.
    + apply andb_true_iff in Hcase as [Hocc Hfree].
      apply negb_true_iff in Hfree.
      rewrite (step_replaced done sep path after (chars_of rest) Htext Hsep
                 Hne' Hpath Hafter Htail fuel Hocc Hfree).
      rewrite chars_of_cons. cbn [fst snd].
      replace (List.length done + List.length sep + List.length path
               + List.length (firstn 1 after))
        with (List.length (done ++ sep ++ path ++ firstn 1 after))
        by (rewrite !length_app; lia).
      rewrite (IH (done ++ sep ++ path ++ firstn 1 after)%list
                  (skipn 1 after) fuel).
      * assert (Hflag :
                  rewrite (occurrence member) qual_name
                    (Nat.eqb (List.length (skipn 1 after)) 0
                     && negb (Nat.eqb
                                (List.length
                                   (done ++ sep ++ path ++ firstn 1 after))
                                0))
                    rest
                  = rewrite (occurrence member) qual_name
                      (Nat.eqb (List.length after) 1) rest).
        { destruct rest as [|item rest']; [reflexivity|].
          f_equal. rewrite !length_app.
          destruct path as [|x path']; [now elim Hne'|].
          destruct after as [|y [|z after']]; cbn [List.length skipn Nat.eqb];
            [discriminate| |reflexivity].
          rewrite Nat.add_comm with (n := List.length done).
          rewrite Nat.add_comm with (n := List.length sep).
          reflexivity. }
        rewrite Hflag, <- ?app_assoc.
        now rewrite (app_assoc (firstn 1 after)), firstn_skipn.
      * rewrite Htext, <- ?app_assoc.
        now rewrite (app_assoc (firstn 1 after)), firstn_skipn.
      * rewrite <- (firstn_skipn 1 after), forallb_app in Hafter.
        now apply andb_true_iff in Hafter as [_ Hafter].
      * exact Hrest.
      * rewrite !length_app.
        assert (0 < List.length path)
          by (destruct path; [now elim Hne' | cbn [List.length]; lia]).
        lia.
    + rewrite (step_kept done sep path after (chars_of rest) Htext Hsep
                 Hne' Hpath Hafter Htail fuel Hcase).
      rewrite chars_of_cons.
      replace (List.length done + List.length sep + List.length path)
        with (List.length (done ++ sep ++ path))
        by (rewrite !length_app; lia).
      rewrite (IH (done ++ sep ++ path)%list after (S fuel)).
      * assert (Hflag :
                  rewrite (occurrence member) qual_name
                    (Nat.eqb (List.length after) 0
                     && negb (Nat.eqb (List.length (done ++ sep ++ path)) 0))
                    rest
                  = rewrite (occurrence member) qual_name false rest).
        { destruct rest as [|item rest']; [reflexivity|].
          destruct after as [|y after']; [discriminate | reflexivity]. }
        now rewrite Hflag, <- ?app_assoc.
      * now rewrite Htext, <- ?app_assoc.
      * exact Hafter.
      * exact Hrest.
      * rewrite !length_app. destruct path; [now elim Hne'|].
        cbn [List.length]. lia.
Qed.

End Loop.

(** On every line, the rule does what [rewrite_line] says. *)
Lemma substitute_rewrites (member qual_name line : string) :
  is_identifier member = true ->
  substitute (generic_command member qual_name) line
  = rewrite_line (occurrence member) qual_name line.
Proof.
  intros Hmember. unfold substitute, rewrite_line. cbv zeta. f_equal.
  pose proof (render_tokenize (list_ascii_of_string line)) as Hrender.
  pose proof (well_formed_tokenize (list_ascii_of_string line)) as Hwf.
  destruct (tokenize (list_ascii_of_string line)) as [sep items].
  unfold render, well_formed in *. cbn [fst snd] in *.
  apply andb_true_iff in Hwf as [Hsep Hitems].
  pose proof (loop_spec (list_ascii_of_string line) member qual_name Hmember
                items [] sep (2 + List.length (list_ascii_of_string line)))
    as Hloop.
  cbn [List.length Nat.eqb negb app] in Hloop.
  rewrite andb_false_r in Hloop. apply Hloop;
    [now symmetry | exact Hsep | exact Hitems | lia].
Qed.


(** *** Lines whose occurrences stand apart *)

Lemma rewrite_apart (replaced : list ascii -> bool) (qual_name : string)
    (items : Items) :
  forall blocked adjacent,
    crowded replaced adjacent items = false ->
    (blocked = true -> adjacent = true) ->
    rewrite replaced qual_name blocked items
    = replace_paths replaced qual_name items.
Proof.
  induction items as [|[path sep] rest IH]; intros blocked adjacent Hfree Hb;
    [reflexivity|].
  cbn [crowded] in Hfree. apply orb_false_iff in Hfree as [Hhere Hrest].
  cbn [rewrite replace_paths map fst snd].
  destruct (replaced path) eqn:Hpath; cbn [andb] in *.
  - destruct blocked; [now rewrite Hb in Hhere|]. cbn [negb].
    f_equal. now apply (IH _ (Nat.eqb (List.length sep) 1)).
  - f_equal. now apply (IH false false).
Qed.

Lemma rewrite_none (replaced : list ascii -> bool) (qual_name : string)
    (items : Items) :
  forallb (fun item => negb (replaced (fst item))) items = true ->
  forall blocked, rewrite replaced qual_name blocked items = items.
Proof.
  induction items as [|[path sep] rest IH]; intros H blocked; [reflexivity|].
  cbn [forallb fst] in H. apply andb_true_iff in H as [Hpath Hrest].
  apply negb_true_iff in Hpath. cbn [rewrite]. rewrite Hpath. cbn [andb].
  f_equal. now apply IH.
Qed.


Lemma crowded_ext (f g : list ascii -> bool) (items : Items) :
  (forall item, In item items -> f (fst item) = g (fst item)) ->
  forall adjacent, crowded f adjacent items = crowded g adjacent items.
Proof.
  induction items as [|[path sep] rest IH]; intros H adjacent; [reflexivity|].
  cbn [crowded].
  pose proof (H (path, sep) (or_introl eq_refl)) as E. cbn [fst] in E.
  rewrite E. f_equal. apply IH. intros item Hin. apply H. now right.
Qed.

Lemma well_formed_replace (replaced : list ascii -> bool)
    (qual_name : string) (items : Items) :
  qual_name <> "" ->
  forallb is_ident_dot (list_ascii_of_string qual_name) = true ->
  well_formed_items items = true ->
  well_formed_items (replace_paths replaced qual_name items) = true.
Proof.
  intros Hne Hq. induction items as [|[path sep] rest IH]; [reflexivity|].
  intros H. cbn [well_formed_items] in H.
  apply andb_true_iff in H as [H Hrest]. apply andb_true_iff in H as [H Hlast].
  apply andb_true_iff in H as [H Hsep]. apply andb_true_iff in H as [Hlen Hpath].
  cbn [replace_paths map fst snd well_formed_items].
  fold (replace_paths replaced qual_name rest).
  rewrite (IH Hrest), Hsep.
  assert (Hlast' : match replace_paths replaced qual_name rest with
                   | [] => true
                   | _ :: _ => negb (Nat.eqb (List.length sep) 0)
                   end = true)
    by now destruct rest.
  rewrite Hlast'.
  destruct (replaced path); [|now rewrite Hlen, Hpath].
  rewrite Hq. destruct qual_name; [now elim Hne | reflexivity].
Qed.

(** A path that starts with the letter Q is no occurrence. *)
Lemma Q_path_is_no_occurrence (member : string) (path : list ascii) :
  starts_with_Q path = true ->
  occurrence member path = false /\ variable_access member path = false.
Proof.
  intros HQ. unfold occurrence, variable_access.
  destruct (accesses member path) eqn:Hacc; [|now split].
  pose proof (accesses_inv _ _ Hacc) as Epath.
  remember (base_of member path) as base eqn:Ebase. clear Ebase Hacc.
  destruct base as [|c rest]; [now split|].
  rewrite Epath in HQ. cbn [list_ascii_of_string app starts_with_Q] in HQ.
  apply Ascii.eqb_eq in HQ as ->. now split.
Qed.

Lemma replaced_are_gone (member qual_name : string) (items : Items) :
  occurrence member (list_ascii_of_string qual_name) = false ->
  forallb (fun item => negb (occurrence member (fst item)))
          (replace_paths (occurrence member) qual_name items)
  = true.
Proof.
  intros Hq. induction items as [|[path sep] rest IH]; [reflexivity|].
  cbn [replace_paths map fst snd forallb].
  fold (replace_paths (occurrence member) qual_name rest). rewrite IH.
  destruct (occurrence member path) eqn:E; [now rewrite Hq | now rewrite E].
Qed.

(** *** What the generic rule does to a line *)

Section Lines.
Variables member qual_name : string.
Hypothesis Hmember : is_identifier member = true.

(** A line in which the member is reached through paths that start with
    Q only is left as it is. *)
Lemma substitute_accessed_through_Q (line : string) :
  accessed_through_Q member line = true ->
  substitute (generic_command member qual_name) line = line.
Proof.
  intros HQ. rewrite substitute_rewrites by exact Hmember.
  unfold rewrite_line, accessed_through_Q, paths in *. cbv zeta.
  rewrite rewrite_none.
  - rewrite <- surjective_pairing, render_tokenize.
    apply string_of_list_ascii_of_string.
  - rewrite forallb_forall in HQ |- *. intros item Hin.
    assert (Hpath : In (fst item)
                       (map fst (snd (tokenize (list_ascii_of_string line)))))
      by now apply in_map.
    specialize (HQ _ Hpath). apply negb_true_iff.
    destruct (starts_with_Q (fst item)) eqn:E.
    + now apply Q_path_is_no_occurrence.
    + unfold occurrence.
      destruct (accesses member (fst item)); [discriminate | reflexivity].
Qed.

(** Where no two occurrences share a boundary character, every
    occurrence is replaced. *)
Lemma substitute_apart (line : string) :
  well_separated (occurrence member) line = true ->
  substitute (generic_command member qual_name) line
  = replace_in_line (occurrence member) qual_name line.
Proof.
  intros Hapart. rewrite substitute_rewrites by exact Hmember.
  unfold rewrite_line, replace_in_line, well_separated in *. cbv zeta.
  apply negb_true_iff in Hapart.
  now rewrite (rewrite_apart _ _ _ false false Hapart).
Qed.

(** What the rule writes for such a line is a line it leaves alone, when
    the qualified name starts with Q. *)
Lemma substitute_twice (rest line : string) :
  qual_name = String "Q" rest ->
  forallb is_ident_dot (list_ascii_of_string rest) = true ->
  well_separated (occurrence member) line = true ->
  substitute (generic_command member qual_name)
             (substitute (generic_command member qual_name) line)
  = substitute (generic_command member qual_name) line.
Proof.
  intros Hq Hrest Hapart. rewrite (substitute_apart line Hapart).
  rewrite substitute_rewrites by exact Hmember.
  unfold replace_in_line, rewrite_line. cbv zeta.
  rewrite list_ascii_of_string_of_list_ascii.
  pose proof (well_formed_tokenize (list_ascii_of_string line)) as Hwf.
  destruct (tokenize (list_ascii_of_string line)) as [sep items].
  cbn [fst snd]. unfold well_formed in Hwf. cbn [fst snd] in Hwf.
  apply andb_true_iff in Hwf as [Hsep Hitems].
  rewrite tokenize_render.
  - cbn [fst snd]. rewrite rewrite_none; [reflexivity|].
    apply replaced_are_gone. apply Q_path_is_no_occurrence.
    now rewrite Hq.
  - unfold well_formed. cbn [fst snd]. rewrite Hsep.
    apply well_formed_replace; [now rewrite Hq| |exact Hitems].
    rewrite Hq. cbn [list_ascii_of_string forallb]. now rewrite Hrest.
Qed.




End Lines.


End LineFacts.

(** ** The rule of [widgets.pyi] and the fixed points of a rule *)
Module WholeLines.
Import PyStr Astroid Extractor Compiler Sed Lines Examples.
Import ExtractorFacts CompilerFacts SedFacts LineFacts.



(** C10, as amended. The text of every generic rule is the concrete
    syntax of [generic_command]. The base-name part of its pattern has no
    match at a position that holds the letter Q, and no path that starts
    with Q is an occurrence. So the rule leaves unchanged every line all
    of whose paths start with Q and, for a member that is an identifier,
    every line in which the paths that reach the member start with Q,
    whatever else the line holds. When the qualified name starts with Q,
    what the rule writes for a line in which no two occurrences share a
    boundary character, the line with every occurrence replaced, is a
    line the rule leaves alone: applied twice the rule does what it does
    applied once. *)
Theorem generic_rule_leaves_Q_paths :
  forall member qual_name : string,
    generic_rule member qual_name
    = show_command (generic_command member qual_name)
    /\ (forall text i caps,
           nth_error text i = Some "Q"%char -> run text base_name i caps = [])
    /\ (forall path,
           starts_with_Q path = true -> occurrence member path = false)
    /\ (forall line,
           paths_start_with_Q line = true ->
           substitute (generic_command member qual_name) line = line)
    /\ (is_identifier member = true ->
        (forall line,
            accessed_through_Q member line = true ->
            substitute (generic_command member qual_name) line = line)
        /\ (forall rest line,
               qual_name = String "Q" rest ->
               forallb is_ident_dot (list_ascii_of_string rest) = true ->
               well_separated (occurrence member) line = true ->
               substitute (generic_command member qual_name) line
               = replace_in_line (occurrence member) qual_name line
               /\ substitute (generic_command member qual_name)
                    (substitute (generic_command member qual_name) line)
                  = substitute (generic_command member qual_name) line)).
Proof.
  intros member qual_name.
  split; [apply generic_rule_is_command|].
  split; [apply base_name_rejects_Q|].
  split; [intros path HQ; now apply Q_path_is_no_occurrence|].
  split; [intros line; apply substitute_Q_paths|].
  intros Hmember. split.
  - intros line. now apply substitute_accessed_through_Q.
  - intros rest line Hq Hrest Hapart. split.
    + now apply substitute_apart.
    + now apply (substitute_twice member qual_name Hmember rest).
Qed.

(** A qualified name behind an assignment, and two occurrences as
    arguments. *)
Lemma generic_rule_leaves_Q_paths_witness :
  substitute MultiSelection_command
    "x = QtWidgets.QAbstractItemView.SelectionMode.MultiSelection"
  = "x = QtWidgets.QAbstractItemView.SelectionMode.MultiSelection"
  /\ substitute MultiSelection_command
       (substitute MultiSelection_command
                   "f(a.MultiSelection, b.MultiSelection)")
     = substitute MultiSelection_command
                  "f(a.MultiSelection, b.MultiSelection)".
Proof.
  destruct (generic_rule_leaves_Q_paths "MultiSelection"
              MultiSelection_qual_name)
    as (_ & _ & _ & _ & Hlines).
  destruct (Hlines eq_refl) as [Hkept Hfixed]. split.
  - exact (Hkept
             "x = QtWidgets.QAbstractItemView.SelectionMode.MultiSelection"
             eq_refl).
  - exact (proj2 (Hfixed
                    "tWidgets.QAbstractItemView.SelectionMode.MultiSelection"
                    "f(a.MultiSelection, b.MultiSelection)"
                    eq_refl eq_refl eq_refl)).
Defined.

End WholeLines.

(** ** What a run prints of the hard-coded pair *)
Module Runs.
Import PyStr Astroid Extractor Compiler Cli CompilerFacts CliFacts CliCases.
Import Examples Shapes.

Section WithAstroid.
Variable relative_to_absolute_name : string -> string -> nat -> string.

#[local] Abbreviation main := (Cli.main relative_to_absolute_name).
#[local] Abbreviation sed_script_of :=
  (Cli.sed_script_of relative_to_absolute_name).

(** C6, at the input where the code parts from it. Whatever the paths
    hold, the compiled script holds the two rules of the hard-coded
    pair. With binding options that are pairs of comma-free package
    names the run returns 0 and both rules are among the lines it
    prints. Without any [-b] the run raises [TypeError] before it
    prints a line: neither rule is in its output. *)
Theorem hard_coded_pair_is_printed :
  forall paths : list Path,
    (forall renames : list (string * string),
        forallb comma_free renames = true ->
        outcome (main (mkArgs (Some (map binding_option renames)) paths))
        = inr 0%Z
        /\ In (generic_rule "MidButton" "QtCore.Qt.MouseButton.MiddleButton")
              (stdout (main (mkArgs (Some (map binding_option renames))
                                    paths)))
        /\ In (legacy_rule "QtCore.Qt.MouseButton.MiddleButton")
              (stdout (main (mkArgs (Some (map binding_option renames))
                                    paths))))
    /\ generic_rule "MidButton" "QtCore.Qt.MouseButton.MiddleButton"
       = "s/([^a-zA-Z0-9_.]|^)[a-zA-PR-Z0-9_.]([a-su-z0-9_.][a-zA-Z0-9_.]*)?\.MidButton([^a-zA-Z0-9_.]|$)/\1QtCore.Qt.MouseButton.MiddleButton\3/g"
    /\ legacy_rule "QtCore.Qt.MouseButton.MiddleButton"
       = "s/([^a-zA-Z0-9_.]|^)[a-zA-Z0-9_.]+\.QtCore.Qt.MiddleButton([^a-zA-Z0-9_.]|$)/\1QtCore.Qt.MouseButton.MiddleButton\2/g"
    /\ In (generic_rule "MidButton" "QtCore.Qt.MouseButton.MiddleButton")
          (sed_script_of (mkArgs None paths))
    /\ In (legacy_rule "QtCore.Qt.MouseButton.MiddleButton")
          (sed_script_of (mkArgs None paths))
    /\ stdout (main (mkArgs None paths)) = []
    /\ outcome (main (mkArgs None paths)) = inl TypeError
    /\ ~ In (generic_rule "MidButton" "QtCore.Qt.MouseButton.MiddleButton")
            (stdout (main (mkArgs None paths)))
    /\ ~ In (legacy_rule "QtCore.Qt.MouseButton.MiddleButton")
            (stdout (main (mkArgs None paths))).
Proof.
  intros paths.
  assert (Hrules : forall args,
             In (generic_rule "MidButton" "QtCore.Qt.MouseButton.MiddleButton")
                (sed_script_of args)
             /\ In (legacy_rule "QtCore.Qt.MouseButton.MiddleButton")
                   (sed_script_of args)).
  { intros args. apply generic_rule_emitted. now left. }
  split.
  { intros renames Hgood. rewrite main_eq. cbn [binding].
    rewrite <- (app_nil_r (map binding_option renames)).
    rewrite (print_bindings_good renames [] Hgood).
    cbn [print_bindings fst snd stdout outcome]. rewrite !app_nil_r.
    split; [reflexivity|].
    destruct (Hrules (mkArgs (Some (map binding_option renames)) paths))
      as [Hg Hl].
    split; apply in_or_app; now right. }
  split; [reflexivity|]. split; [reflexivity|].
  split; [apply Hrules|]. split; [apply Hrules|].
  rewrite main_eq. cbn [binding stdout outcome].
  repeat split; intros [].
Qed.

End WithAstroid.

(** [-b PySide2,PySide6 widgets.pyi]. *)
Lemma hard_coded_pair_witness :
  outcome (Cli.main absolute_only
             (mkArgs (Some ["PySide2,PySide6"]) [IsFile (widgets no_bindings)]))
  = inr 0%Z
  /\ In (generic_rule "MidButton" "QtCore.Qt.MouseButton.MiddleButton")
        (stdout (Cli.main absolute_only
                   (mkArgs (Some ["PySide2,PySide6"])
                           [IsFile (widgets no_bindings)])))
  /\ In (legacy_rule "QtCore.Qt.MouseButton.MiddleButton")
        (stdout (Cli.main absolute_only
                   (mkArgs (Some ["PySide2,PySide6"])
                           [IsFile (widgets no_bindings)]))).
Proof.
  destruct (hard_coded_pair_is_printed absolute_only
              [IsFile (widgets no_bindings)]) as [Hprinted _].
  exact (Hprinted [("PySide2", "PySide6")] eq_refl).
Defined.

End Runs.

(** ** Every line under a generic rule *)
Module LineCases.
Import PyStr Sed Lines Examples SedFacts LineFacts.

(** On every line, a generic rule whose member is an identifier does what
    [rewrite_line] says: from left to right it writes the qualified name
    in place of each path [<base>.<member>] whose base the pattern
    accepts, but for one that starts right after the boundary character
    taken with the path replaced before it, and it copies the rest. *)
Theorem generic_rule_on_every_line :
  forall member qual_name line : string,
    is_identifier member = true ->
    substitute (generic_command member qual_name) line
    = rewrite_line (occurrence member) qual_name line.
Proof.
  intros member qual_name line Hmember.
  unfold substitute, rewrite_line. cbv zeta. f_equal.
  pose proof (render_tokenize (list_ascii_of_string line)) as Hrender.
  pose proof (well_formed_tokenize (list_ascii_of_string line)) as Hwf.
  destruct (tokenize (list_ascii_of_string line)) as [sep items].
  unfold render, well_formed in *. cbn [fst snd] in *.
  apply andb_true_iff in Hwf as [Hsep Hitems].
  pose proof (loop_spec (list_ascii_of_string line) member qual_name Hmember
                items [] sep (2 + List.length (list_ascii_of_string line)))
    as Hloop.
  cbn [List.length Nat.eqb negb app] in Hloop.
  rewrite andb_false_r in Hloop. apply Hloop;
    [now symmetry | exact Hsep | exact Hitems | lia].
Qed.

(** Of three occurrences one space apart the second is passed over. *)
Lemma generic_rule_on_every_line_witness :
  substitute MultiSelection_command
             "a.MultiSelection b.MultiSelection c.MultiSelection"
  = "QtWidgets.QAbstractItemView.SelectionMode.MultiSelection b.MultiSelection QtWidgets.QAbstractItemView.SelectionMode.MultiSelection".
Proof.
  exact (generic_rule_on_every_line "MultiSelection" MultiSelection_qual_name
           "a.MultiSelection b.MultiSelection c.MultiSelection" eq_refl).
Defined.

(** A generic rule leaves a line as it is when every path that reaches
    the member does so from a base whose second character is the letter
    t or a capital letter: the second bracket of the pattern has neither,
    so that [item.MultiSelection] and [xView.MultiSelection] are not
    rewritten. *)
Theorem second_bracket_leaves_out :
  forall member qual_name line : string,
    is_identifier member = true ->
    forallb (fun path =>
               implb (accesses member path)
                     (second_left_out (base_of member path)))
            (paths line) = true ->
    substitute (generic_command member qual_name) line = line.
Proof.
  intros member qual_name line Hmember Hleft.
  rewrite substitute_rewrites by exact Hmember.
  unfold rewrite_line, paths in *. cbv zeta. rewrite rewrite_none.
  - rewrite <- surjective_pairing, render_tokenize.
    apply string_of_list_ascii_of_string.
  - rewrite forallb_forall in Hleft |- *. intros item Hin.
    assert (Hpath : In (fst item)
                       (map fst (snd (tokenize (list_ascii_of_string line)))))
      by now apply in_map.
    specialize (Hleft _ Hpath). apply negb_true_iff.
    unfold occurrence. rewrite accepted_base_cases.
    destruct (accesses member (fst item)); [|reflexivity].
    cbn [implb] in Hleft. rewrite Hleft. now rewrite andb_false_r.
Qed.

Lemma second_bracket_leaves_out_witness :
  substitute MultiSelection_command
             "flags = item.MultiSelection | xView.MultiSelection"
  = "flags = item.MultiSelection | xView.MultiSelection".
Proof.
  exact (second_bracket_leaves_out "MultiSelection" MultiSelection_qual_name
           "flags = item.MultiSelection | xView.MultiSelection"
           eq_refl eq_refl).
Defined.

End LineCases.
